(** * The iterative mass-balance engine of the flowsheet simulator

    A shallow embedding of the balance engine of [utils/calculations]:
    data propagation ([propagateStreamData]), the conversion of flow lines
    to detailed streams, the two closure passes, the equipment transfer
    functions, normalisation, the convergence test, the solver loop
    ([solveIterativeMassBalance]) and the stand-alone mixer [mixStreams].

    Conventions of the embedding.
    - A JavaScript number is an exact rational ([Q]): rounding and the sign
      of zero are not modelled.  Where an operation of the source can leave
      the rationals (a division whose divisor may be zero, [Math.max] of no
      argument) the result lives in [num], the rationals extended with the
      two infinities and NaN.  Where exact arithmetic makes two computed
      quantities equal and floating point need not, a theorem states that
      they agree up to rounding ([agrees]).  One calculator,
      [calculateFlotationRecovery], is embedded on binary64 numbers.
    - The numbers a flowsheet holds are finite.  In the solver every
      division whose result is stored in a stream has a divisor that the
      surrounding test or [||] makes non-zero, so stream fields stay in [Q];
      the one exception, [volumetricFlow], is kept in [num].
    - An object used as a dictionary is a [gmap string _]; an array is a
      list, read with [!!] and written with [<[_:=_]>].
    - An optional property is an [option]; [x || d] on a number is
      [or_else x d].
    - Streams are values.  The source writes into stream objects in place;
      the streams of a run are distinct objects with dictionaries of their
      own (the conversion, the transfer functions and normalisation build
      fresh ones, the pass-through copies both dictionaries), so a write at
      one index is seen at that index only.  [correctStreamImbalances]
      writes into the objects of its caller: it is embedded on a store of
      objects, with references.
    - [maxIterations] is a count of iterations, a [nat].
    - The source file holds two declarations of
      [calculateEquipmentBalanceWithClosure] and of
      [applyGlobalMassBalanceWithClosure]; the solver lives in the module
      that declares the later, complete ones (with the flotation case and
      the bulk-flow closure), and those are the ones embedded here. *)

From Stdlib Require Import QArith Qabs Qround Qminmax Lqa ZArith Lia.
From Stdlib Require Import Floats.
From stdpp Require Import gmap strings list fin_maps.

Open Scope Q_scope.

(** ** Numbers *)

Module Num.

(** IEEE values with exact finite arithmetic. *)
Inductive num : Type :=
| Fin (q : Q)
| PInf
| NInf
| NaN.

Definition Qltb (x y : Q) : bool := negb (Qle_bool y x).

(** [x || d] for a number [x]: zero is falsy. *)
Definition or_else (x d : Q) : Q := if Qeq_bool x 0 then d else x.

(** [o || d] for an optional number. *)
Definition opt_or (o : option Q) (d : Q) : Q :=
  match o with Some x => or_else x d | None => d end.

(** [m[k] || 0] for a dictionary of numbers. *)
Definition get0 (m : gmap string Q) (k : string) : Q :=
  opt_or (m !! k) 0.

(** [a / b] in JavaScript, for finite operands. *)
Definition jsdiv (a b : Q) : num :=
  if Qeq_bool b 0 then
    (if Qltb 0 a then PInf else if Qltb a 0 then NInf else NaN)
  else Fin (a / b).

Definition truthy (x : num) : bool :=
  match x with
  | Fin q => negb (Qeq_bool q 0)
  | PInf | NInf => true
  | NaN => false
  end.

(** [x || d] on extended numbers. *)
Definition num_or (x d : num) : num := if truthy x then x else d.

Definition add (x y : num) : num :=
  match x, y with
  | NaN, _ | _, NaN => NaN
  | PInf, NInf | NInf, PInf => NaN
  | PInf, _ | _, PInf => PInf
  | NInf, _ | _, NInf => NInf
  | Fin a, Fin b => Fin (a + b)
  end.

(** Sign of a product with an infinity: [s] is the sign of the infinite
    factor ([true] for +), [q] the finite factor. *)
Definition inf_times (s : bool) (q : Q) : num :=
  if Qeq_bool q 0 then NaN
  else if Qltb 0 q then (if s then PInf else NInf)
  else (if s then NInf else PInf).

Definition mul (x y : num) : num :=
  match x, y with
  | NaN, _ | _, NaN => NaN
  | Fin a, Fin b => Fin (a * b)
  | PInf, Fin q | Fin q, PInf => inf_times true q
  | NInf, Fin q | Fin q, NInf => inf_times false q
  | PInf, PInf | NInf, NInf => PInf
  | PInf, NInf | NInf, PInf => NInf
  end.

Definition div (x y : num) : num :=
  match x, y with
  | NaN, _ | _, NaN => NaN
  | Fin a, Fin b => jsdiv a b
  | Fin _, (PInf | NInf) => Fin 0
  | PInf, Fin q => if Qltb q 0 then NInf else PInf
  | NInf, Fin q => if Qltb q 0 then PInf else NInf
  | (PInf | NInf), (PInf | NInf) => NaN
  end.

(** [x < y]; every comparison with NaN is false. *)
Definition ltb (x y : num) : bool :=
  match x, y with
  | NaN, _ | _, NaN => false
  | Fin a, Fin b => Qltb a b
  | NInf, (Fin _ | PInf) => true
  | Fin _, PInf => true
  | _, _ => false
  end.

Definition gtb (x y : num) : bool := ltb y x.

(** One step of [Math.max]: NaN is contagious. *)
Definition max (x y : num) : num :=
  match x, y with
  | NaN, _ | _, NaN => NaN
  | PInf, _ | _, PInf => PInf
  | NInf, z | z, NInf => z
  | Fin a, Fin b => Fin (Qmax a b)
  end.

(** [Math.max(...l)]: minus infinity for no argument. *)
Definition math_max (l : list Q) : num :=
  foldr (fun q acc => max (Fin q) acc) NInf l.

(** The same value, up to the representation of the fraction. *)
Definition eqv (x y : num) : Prop :=
  match x, y with
  | Fin a, Fin b => a == b
  | PInf, PInf | NInf, NInf | NaN, NaN => True
  | _, _ => False
  end.

End Num.
Export Num.

(** [reduce((sum, x) => sum + x, 0)]. *)
Definition Qsum (l : list Q) : Q := foldl Qplus 0 l.

(** ** Data model *)

(** [MineralComponent]: the fields the engine reads. *)
Module MineralComponent.
Record t : Type := mk {
  id : string;
  symbol : string;
  defaultGrade : Q;
  isActive : bool
}.
End MineralComponent.

(** [FlowLine]: a directed edge of the flowsheet.  The geometry of the
    drawing is left out: the engine neither reads nor writes it. *)
Module FlowLine.
Record t : Type := mk {
  id : string;
  fromEquipment : option string;
  toEquipment : option string;
  flowRate : Q;
  solidPercent : Q;
  density : Q;
  particleSize : option Q;
  components : option (list string);
  componentGrades : option (gmap string Q)
}.
End FlowLine.

(** [DetailedStream]: a stream during one balance run. *)
Module DetailedStream.
Record t : Type := mk {
  flowRate : Q;
  solidPercent : Q;
  density : Q;
  particleSize : Q;
  mineralContent : gmap string Q;
  volumetricFlow : num;
  componentMass : gmap string Q;
  componentPercentages : gmap string Q;
  waterFlow : Q;
  solidFlow : Q
}.
End DetailedStream.

(** The per-component block of [EquipmentParameters.components]. *)
Module ComponentParameters.
Record t : Type := mk {
  feedGrade : Q;
  concentrate : Q;
  tailing : Q;
  recovery : Q
}.
End ComponentParameters.

(** [EquipmentParameters]: the properties the transfer functions read. *)
Module EquipmentParameters.
Record t : Type := mk {
  recovery : option Q;
  numberOfOutputs : option Q;
  splits : option (list Q);
  targetSize : option Q;
  components : option (gmap string ComponentParameters.t)
}.
End EquipmentParameters.

Inductive EquipmentType : Type :=
| moinho | britador | rougher | cleaner | recleaner | mixer.

Module Equipment.
Record t : Type := mk {
  id : string;
  type : EquipmentType;
  parameters : EquipmentParameters.t
}.
End Equipment.

(** What a call does: it returns a value or throws. *)
Inductive Exception : Type :=
| RangeError (message : string)
| Error (message : string).

Inductive outcome (A : Type) : Type :=
| Returns (a : A)
| Throws (e : Exception).
Arguments Returns {A} a.
Arguments Throws {A} e.

Definition bind {A B : Type} (x : outcome A) (f : A -> outcome B) : outcome B :=
  match x with
  | Returns a => f a
  | Throws e => Throws e
  end.

(** ** Data propagation *)

(** Truthiness of an optional equipment id: absent and empty are falsy. *)
Definition has_id (o : option string) : bool :=
  match o with
  | Some s => negb (String.eqb s "")
  | None => false
  end.

(** [a === b] on optional ids. *)
Definition same_id (a b : option string) : bool := bool_decide (a = b).

Definition grades_of (o : option (gmap string Q)) : gmap string Q :=
  default ∅ o.

(** [fl.flowRate === 0 || !fl.componentGrades ||
     Object.keys(fl.componentGrades).length === 0] *)
Definition lacks_data (fl : FlowLine.t) : bool :=
  Qeq_bool (FlowLine.flowRate fl) 0
  || match FlowLine.componentGrades fl with
     | None => true
     | Some g => Nat.eqb (size g) 0
     end.

(** [s.flowRate === 0 || !s.componentGrades] *)
Definition needs_copy (fl : FlowLine.t) : bool :=
  Qeq_bool (FlowLine.flowRate fl) 0
  || match FlowLine.componentGrades fl with
     | None => true
     | Some _ => false
     end.

(** [a || b] on optional numbers, the result possibly still undefined. *)
Definition opt_or_opt (a b : option Q) : option Q :=
  match a with
  | Some x => if Qeq_bool x 0 then b else Some x
  | None => b
  end.

(** [dst.components || src.components || []]: an array is truthy. *)
Definition components_or (dst src : FlowLine.t) : list string :=
  match FlowLine.components dst with
  | Some c => c
  | None => default [] (FlowLine.components src)
  end.

(** [{...src.componentGrades, ...dst.componentGrades}] *)
Definition merged_grades (dst src : FlowLine.t) : gmap string Q :=
  grades_of (FlowLine.componentGrades dst) ∪ grades_of (FlowLine.componentGrades src).

(** CASE 1: the object written over an output stream [dst], from the feed
    [src]. *)
Definition copy_forward (src dst : FlowLine.t) : FlowLine.t :=
  {| FlowLine.id := FlowLine.id dst;
     FlowLine.fromEquipment := FlowLine.fromEquipment dst;
     FlowLine.toEquipment := FlowLine.toEquipment dst;
     FlowLine.flowRate := or_else (FlowLine.flowRate dst) (FlowLine.flowRate src);
     FlowLine.solidPercent := or_else (FlowLine.solidPercent dst) (FlowLine.solidPercent src);
     FlowLine.density := or_else (FlowLine.density dst) (FlowLine.density src);
     FlowLine.particleSize := opt_or_opt (FlowLine.particleSize dst) (FlowLine.particleSize src);
     FlowLine.components := Some (components_or dst src);
     FlowLine.componentGrades := Some (merged_grades dst src) |}.

(** CASE 2: the object written over an input stream [dst], from the product
    [src]; the particle size is doubled. *)
Definition copy_backward (src dst : FlowLine.t) : FlowLine.t :=
  {| FlowLine.id := FlowLine.id dst;
     FlowLine.fromEquipment := FlowLine.fromEquipment dst;
     FlowLine.toEquipment := FlowLine.toEquipment dst;
     FlowLine.flowRate := or_else (FlowLine.flowRate dst) (FlowLine.flowRate src);
     FlowLine.solidPercent := or_else (FlowLine.solidPercent dst) (FlowLine.solidPercent src);
     FlowLine.density := or_else (FlowLine.density dst) (FlowLine.density src);
     FlowLine.particleSize :=
       Some (opt_or (FlowLine.particleSize dst)
                    (opt_or (FlowLine.particleSize src) 150 * 2));
     FlowLine.components := Some (components_or dst src);
     FlowLine.componentGrades := Some (merged_grades dst src) |}.

(** The streams CASE 1 overwrites for the feed [src]: the outputs of the
    equipment it enters that pass the filter and the inner test. *)
Definition forward_target (src fl : FlowLine.t) : bool :=
  same_id (FlowLine.fromEquipment fl) (FlowLine.toEquipment src)
  && lacks_data fl && needs_copy fl.

Definition backward_target (src fl : FlowLine.t) : bool :=
  same_id (FlowLine.toEquipment fl) (FlowLine.fromEquipment src)
  && lacks_data fl && needs_copy fl.

(** The filter, the loop over its result and the writes through [indexOf]:
    every stream is written at most once, from its value at filter time. *)
Definition overwrite (target : FlowLine.t -> bool) (copy : FlowLine.t -> FlowLine.t)
    (fls : list FlowLine.t) : list FlowLine.t :=
  (fun fl => if target fl then copy fl else fl) <$> fls.

Definition count_targets (target : FlowLine.t -> bool) (fls : list FlowLine.t) : nat :=
  length (filter (fun fl => target fl = true) fls).

(** CASE 3: default grades of the active components, normalised to 100. *)
Definition default_grades (active : list MineralComponent.t) : gmap string Q :=
  let raw :=
    foldl (fun m c => <[MineralComponent.id c := or_else (MineralComponent.defaultGrade c) 0]> m)
          ∅ active in
  let totalGrade := Qsum (snd <$> map_to_list raw) in
  if Qltb 0 totalGrade
  then (fun g => g * (100 / totalGrade)) <$> raw
  else raw.

Definition no_components (fl : FlowLine.t) : bool :=
  match FlowLine.components fl with
  | None => true
  | Some c => Nat.eqb (length c) 0
  end
  && match FlowLine.componentGrades fl with
     | None => true
     | Some g => Nat.eqb (size g) 0
     end.

Definition with_defaults (active : list MineralComponent.t) (fl : FlowLine.t) : FlowLine.t :=
  {| FlowLine.id := FlowLine.id fl;
     FlowLine.fromEquipment := FlowLine.fromEquipment fl;
     FlowLine.toEquipment := FlowLine.toEquipment fl;
     FlowLine.flowRate := FlowLine.flowRate fl;
     FlowLine.solidPercent := FlowLine.solidPercent fl;
     FlowLine.density := FlowLine.density fl;
     FlowLine.particleSize := FlowLine.particleSize fl;
     FlowLine.components := Some (MineralComponent.id <$> active);
     FlowLine.componentGrades := Some (default_grades active) |}.

(** CASE 4: the estimate of a missing flow rate. *)
Definition estimated_flow (fls : list FlowLine.t) (fl : FlowLine.t) : Q :=
  if has_id (FlowLine.fromEquipment fl) then
    let siblingInputs :=
      filter (fun s => same_id (FlowLine.toEquipment s) (FlowLine.fromEquipment fl)
                       && Qltb 0 (FlowLine.flowRate s) = true) fls in
    match siblingInputs with
    | [] => 1000
    | _ => Qsum (FlowLine.flowRate <$> siblingInputs)
    end
  else 1000.

Definition with_flow (est : Q) (fl : FlowLine.t) : FlowLine.t :=
  {| FlowLine.id := FlowLine.id fl;
     FlowLine.fromEquipment := FlowLine.fromEquipment fl;
     FlowLine.toEquipment := FlowLine.toEquipment fl;
     FlowLine.flowRate := est;
     FlowLine.solidPercent := or_else (FlowLine.solidPercent fl) 70;
     FlowLine.density := or_else (FlowLine.density fl) 2.8;
     FlowLine.particleSize := FlowLine.particleSize fl;
     FlowLine.components := FlowLine.components fl;
     FlowLine.componentGrades := FlowLine.componentGrades fl |}.

(** The body of the inner loop at index [i]: the state is the array and the
    number of changes of the pass.  [flowLine] is read once, at the top;
    CASE 4 spreads that first reading, and so drops what CASE 3 wrote. *)
Definition propagate_at (active : list MineralComponent.t) (i : nat)
    (st : list FlowLine.t * nat) : list FlowLine.t * nat :=
  let '(fls, changes) := st in
  match fls !! i with
  | None => st
  | Some flowLine =>
    let '(fls, changes) :=
      if negb (has_id (FlowLine.fromEquipment flowLine)) && has_id (FlowLine.toEquipment flowLine)
      then (overwrite (forward_target flowLine) (copy_forward flowLine) fls,
            (changes + count_targets (forward_target flowLine) fls)%nat)
      else (fls, changes) in
    let '(fls, changes) :=
      if has_id (FlowLine.fromEquipment flowLine) && negb (has_id (FlowLine.toEquipment flowLine))
      then (overwrite (backward_target flowLine) (copy_backward flowLine) fls,
            (changes + count_targets (backward_target flowLine) fls)%nat)
      else (fls, changes) in
    let '(fls, changes) :=
      if no_components flowLine
      then (<[i := with_defaults active flowLine]> fls, S changes)
      else (fls, changes) in
    if Qeq_bool (FlowLine.flowRate flowLine) 0
    then (<[i := with_flow (estimated_flow fls flowLine) flowLine]> fls, S changes)
    else (fls, changes)
  end.

(** One pass over the array. *)
Definition propagate_pass (active : list MineralComponent.t) (fls : list FlowLine.t)
    : list FlowLine.t * nat :=
  foldl (fun st i => propagate_at active i st) (fls, 0%nat) (seq 0 (length fls)).

(** The outer loop: at most [passes] passes, stopping after one that
    changed nothing. *)
Fixpoint propagate_loop (passes : nat) (active : list MineralComponent.t)
    (fls : list FlowLine.t) : list FlowLine.t :=
  match passes with
  | O => fls
  | S k =>
    let '(fls', changes) := propagate_pass active fls in
    if Nat.eqb changes 0 then fls' else propagate_loop k active fls'
  end.

Definition active_components (mineralComponents : list MineralComponent.t)
    : list MineralComponent.t :=
  filter (fun c => MineralComponent.isActive c = true) mineralComponents.

Definition propagateStreamData (flowLines : list FlowLine.t)
    (mineralComponents : list MineralComponent.t) : list FlowLine.t :=
  propagate_loop 10 (active_components mineralComponents) flowLines.


(** ** Conversion of a flow line to a detailed stream *)

(** A number as an array length or a divisor. *)
Definition Qnat (n : nat) : Q := inject_Z (Z.of_nat n).

(** The dictionary [{ [c.id]: f c }] filled by a loop over the active
    components. *)
Definition by_component (activeComponents : list MineralComponent.t)
    (f : MineralComponent.t -> Q) : gmap string Q :=
  foldl (fun m c => <[MineralComponent.id c := f c]> m) ∅ activeComponents.

Definition convertToDetailedStream (flowLine : FlowLine.t)
    (activeComponents : list MineralComponent.t) : DetailedStream.t :=
  let solidFlow := FlowLine.flowRate flowLine * (FlowLine.solidPercent flowLine / 100) in
  let waterFlow := FlowLine.flowRate flowLine - solidFlow in
  let volumetricFlow :=
    add (jsdiv solidFlow (or_else (FlowLine.density flowLine) 2.8)) (jsdiv waterFlow 1) in
  let mass (comp : MineralComponent.t) :=
    let grade := get0 (grades_of (FlowLine.componentGrades flowLine)) (MineralComponent.id comp) in
    solidFlow * (grade / 100) in
  {| DetailedStream.flowRate := FlowLine.flowRate flowLine;
     DetailedStream.solidPercent := FlowLine.solidPercent flowLine;
     DetailedStream.density := or_else (FlowLine.density flowLine) 2.8;
     DetailedStream.particleSize := opt_or (FlowLine.particleSize flowLine) 150;
     (* [flowLine.mineralContent || {}]: a flow line carries no such property *)
     DetailedStream.mineralContent := ∅;
     DetailedStream.volumetricFlow := volumetricFlow;
     DetailedStream.componentMass := by_component activeComponents mass;
     DetailedStream.componentPercentages :=
       by_component activeComponents (fun comp =>
         if Qltb 0 (FlowLine.flowRate flowLine)
         then mass comp / FlowLine.flowRate flowLine * 100
         else 0);
     DetailedStream.waterFlow := waterFlow;
     DetailedStream.solidFlow := solidFlow |}.

(** ** Circuit boundary: input-class and output-class streams *)

Definition indices_where (p : FlowLine.t -> bool) (flowLines : list FlowLine.t) : list nat :=
  filter (fun idx => match flowLines !! idx with Some fl => p fl | None => false end = true)
         (seq 0 (length flowLines)).

(** Streams with no [fromEquipment]. *)
Definition inputIndices (flowLines : list FlowLine.t) : list nat :=
  indices_where (fun fl => negb (has_id (FlowLine.fromEquipment fl))) flowLines.

(** Streams with no [toEquipment]. *)
Definition outputIndices (flowLines : list FlowLine.t) : list nat :=
  indices_where (fun fl => negb (has_id (FlowLine.toEquipment fl))) flowLines.

(** [indices.reduce((sum, idx) => sum + (streams[idx]?.f || 0), 0)] *)
Definition total_over (f : DetailedStream.t -> Q) (streams : list DetailedStream.t)
    (indices : list nat) : Q :=
  Qsum ((fun idx => match streams !! idx with
                    | Some s => or_else (f s) 0
                    | None => 0
                    end) <$> indices).

Definition mass_of (id : string) (s : DetailedStream.t) : Q :=
  get0 (DetailedStream.componentMass s) id.

(** [indices.filter(idx => streams[idx])] *)
Definition present (streams : list DetailedStream.t) (indices : list nat) : list nat :=
  filter (fun idx => is_Some (streams !! idx)) indices.

(** Write the mass of component [id] and recompute its percentage from the
    stream's solid flow. *)
Definition set_mass (id : string) (m : Q) (s : DetailedStream.t) : DetailedStream.t :=
  let solidFlow := or_else (DetailedStream.solidFlow s) 0 in
  {| DetailedStream.flowRate := DetailedStream.flowRate s;
     DetailedStream.solidPercent := DetailedStream.solidPercent s;
     DetailedStream.density := DetailedStream.density s;
     DetailedStream.particleSize := DetailedStream.particleSize s;
     DetailedStream.mineralContent := DetailedStream.mineralContent s;
     DetailedStream.volumetricFlow := DetailedStream.volumetricFlow s;
     DetailedStream.componentMass := <[id := m]> (DetailedStream.componentMass s);
     DetailedStream.componentPercentages :=
       <[id := if Qltb 0 solidFlow then m / solidFlow * 100 else 0]>
         (DetailedStream.componentPercentages s);
     DetailedStream.waterFlow := DetailedStream.waterFlow s;
     DetailedStream.solidFlow := DetailedStream.solidFlow s |}.

(** Multiply the mass of component [id] by [factor]. *)
Definition scale_mass (id : string) (factor : Q) (s : DetailedStream.t) : DetailedStream.t :=
  set_mass id (mass_of id s * factor) s.

(** Apply [f] to the streams at [indices], in order. *)
Definition update_at (f : DetailedStream.t -> DetailedStream.t) (indices : list nat)
    (streams : list DetailedStream.t) : list DetailedStream.t :=
  foldl (fun strs idx => alter f idx strs) streams indices.

(** ** Mass-balance closure (first closure of an iteration) *)

(** The object written over an output stream by the bulk-flow rule: only
    [flowRate], [solidFlow] and [solidPercent] are replaced. *)
Definition with_bulk (flowPerOutput solidsPerOutput : Q) (s : DetailedStream.t)
    : DetailedStream.t :=
  {| DetailedStream.flowRate := flowPerOutput;
     DetailedStream.solidPercent :=
       if Qltb 0 flowPerOutput then solidsPerOutput / flowPerOutput * 100 else 0;
     DetailedStream.density := DetailedStream.density s;
     DetailedStream.particleSize := DetailedStream.particleSize s;
     DetailedStream.mineralContent := DetailedStream.mineralContent s;
     DetailedStream.volumetricFlow := DetailedStream.volumetricFlow s;
     DetailedStream.componentMass := DetailedStream.componentMass s;
     DetailedStream.componentPercentages := DetailedStream.componentPercentages s;
     DetailedStream.waterFlow := DetailedStream.waterFlow s;
     DetailedStream.solidFlow := solidsPerOutput |}.

(** The component part of the closure, for one component. *)
Definition close_component (inputs outputs : list nat)
    (closedStreams : list DetailedStream.t) (comp : MineralComponent.t)
    : list DetailedStream.t :=
  let id := MineralComponent.id comp in
  let totalInputComponentMass := total_over (mass_of id) closedStreams inputs in
  let totalOutputComponentMass := total_over (mass_of id) closedStreams outputs in
  let closedStreams :=
    if Qltb 0 totalInputComponentMass
       && Qltb 0.001 (Qabs (totalInputComponentMass - totalOutputComponentMass))
    then
      let correctionFactor := totalInputComponentMass / or_else totalOutputComponentMass 1 in
      update_at (scale_mass id correctionFactor) outputs closedStreams
    else closedStreams in
  if Qeq_bool totalInputComponentMass 0 && Qltb 0 totalOutputComponentMass
  then
    let activeInputs := present closedStreams inputs in
    if Nat.ltb 0 (length activeInputs)
    then
      let componentMassPerInput := totalOutputComponentMass / Qnat (length activeInputs) in
      update_at (set_mass id componentMassPerInput) activeInputs closedStreams
    else closedStreams
  else closedStreams.

Definition applyMassBalanceClosure (streams : list DetailedStream.t)
    (flowLines : list FlowLine.t) (activeComponents : list MineralComponent.t)
    : list DetailedStream.t :=
  let inputs := inputIndices flowLines in
  let outputs := outputIndices flowLines in
  if Nat.eqb (length inputs) 0 || Nat.eqb (length outputs) 0 then streams
  else
    let totalInputFlow := total_over DetailedStream.flowRate streams inputs in
    let totalInputSolids := total_over DetailedStream.solidFlow streams inputs in
    let totalOutputFlow := total_over DetailedStream.flowRate streams outputs in
    let closedStreams :=
      if Qeq_bool totalOutputFlow 0
         || gtb (jsdiv (Qabs (totalInputFlow - totalOutputFlow)) totalInputFlow) (Fin 0.1)
      then
        let activeOutputs := present streams outputs in
        if Nat.ltb 0 (length activeOutputs)
        then
          let flowPerOutput := totalInputFlow / Qnat (length activeOutputs) in
          let solidsPerOutput := totalInputSolids / Qnat (length activeOutputs) in
          update_at (with_bulk flowPerOutput solidsPerOutput) activeOutputs streams
        else streams
      else streams in
    foldl (close_component inputs outputs) closedStreams activeComponents.

(** ** Global closure (second closure of an iteration) *)

Definition global_component (inputs outputs : list nat)
    (correctedStreams : list DetailedStream.t) (comp : MineralComponent.t)
    : list DetailedStream.t :=
  let id := MineralComponent.id comp in
  let totalInputMass := total_over (mass_of id) correctedStreams inputs in
  let totalOutputMass := total_over (mass_of id) correctedStreams outputs in
  if Qltb 0 totalInputMass then
    let correctionFactor := totalInputMass / or_else totalOutputMass 0.001 in
    if Qeq_bool totalOutputMass 0 || Qltb 0.01 (Qabs (correctionFactor - 1))
    then
      let activeOutputs := present correctedStreams outputs in
      if Nat.ltb 0 (length activeOutputs)
      then
        let massPerOutput := totalInputMass / Qnat (length activeOutputs) in
        update_at (set_mass id massPerOutput) activeOutputs correctedStreams
      else correctedStreams
    else correctedStreams
  else if Qltb 0 totalOutputMass then
    let activeInputs := present correctedStreams inputs in
    if Nat.ltb 0 (length activeInputs)
    then
      let massPerInput := totalOutputMass / Qnat (length activeInputs) in
      update_at (set_mass id massPerInput) activeInputs correctedStreams
    else correctedStreams
  else correctedStreams.

(** The bulk-flow write of the global closure: the flow is replaced, and
    solid, water and volumetric flows recomputed from the solids percent. *)
Definition with_flow_rate (flow : Q) (s : DetailedStream.t) : DetailedStream.t :=
  let solidPercent := DetailedStream.solidPercent s in
  let solidFlow := flow * (solidPercent / 100) in
  let waterFlow := flow * (1 - solidPercent / 100) in
  {| DetailedStream.flowRate := flow;
     DetailedStream.solidPercent := solidPercent;
     DetailedStream.density := DetailedStream.density s;
     DetailedStream.particleSize := DetailedStream.particleSize s;
     DetailedStream.mineralContent := DetailedStream.mineralContent s;
     DetailedStream.volumetricFlow :=
       add (jsdiv solidFlow (DetailedStream.density s)) (jsdiv waterFlow 1);
     DetailedStream.componentMass := DetailedStream.componentMass s;
     DetailedStream.componentPercentages := DetailedStream.componentPercentages s;
     DetailedStream.waterFlow := waterFlow;
     DetailedStream.solidFlow := solidFlow |}.

Definition applyGlobalMassBalanceWithClosure (streams : list DetailedStream.t)
    (flowLines : list FlowLine.t) (activeComponents : list MineralComponent.t)
    : list DetailedStream.t :=
  let inputs := inputIndices flowLines in
  let outputs := outputIndices flowLines in
  if Nat.eqb (length inputs) 0 || Nat.eqb (length outputs) 0 then streams
  else
    let correctedStreams := foldl (global_component inputs outputs) streams activeComponents in
    let totalInputFlow := total_over DetailedStream.flowRate correctedStreams inputs in
    let totalOutputFlow := total_over DetailedStream.flowRate correctedStreams outputs in
    if Qltb 0 totalInputFlow
       && (Qeq_bool totalOutputFlow 0 || Qltb 0.01 (Qabs (totalInputFlow - totalOutputFlow)))
    then
      let activeOutputs := present correctedStreams outputs in
      if Nat.ltb 0 (length activeOutputs)
      then update_at (with_flow_rate (totalInputFlow / Qnat (length activeOutputs)))
                     activeOutputs correctedStreams
      else correctedStreams
    else if Qltb 0 totalOutputFlow && Qeq_bool totalInputFlow 0
    then
      let activeInputs := present correctedStreams inputs in
      if Nat.ltb 0 (length activeInputs)
      then update_at (with_flow_rate (totalOutputFlow / Qnat (length activeInputs)))
                     activeInputs correctedStreams
      else correctedStreams
    else correctedStreams.


(** ** Equipment transfer functions *)

(** [Array(n)] accepts a non-negative integer below 2^32 and throws a
    [RangeError] for any other number. *)
Definition valid_array_length (n : Q) : bool :=
  Qeq_bool n (inject_Z (Qfloor n)) && Qle_bool 0 n && Qltb n 4294967296.

(** The number of rounds of [for (let i = 0; i < n; i++)]. *)
Definition loop_count (n : Q) : nat := Z.to_nat (Qceiling n).

(** [parameters.splits || Array(numOutputs).fill(100 / numOutputs)] *)
Definition mixer_splits (parameters : EquipmentParameters.t) (numOutputs : Q)
    : outcome (list Q) :=
  match EquipmentParameters.splits parameters with
  | Some splits => Returns splits
  | None =>
    if valid_array_length numOutputs
    then Returns (replicate (Z.to_nat (Qfloor numOutputs)) (100 / numOutputs))
    else Throws (RangeError "Invalid array length")
  end.

(** [inputStreams.reduce((sum, s) => sum + (s.componentMass[id] || 0), 0)] *)
Definition totalInputComponentMass (inputStreams : list DetailedStream.t) (id : string) : Q :=
  Qsum (mass_of id <$> inputStreams).

Definition mixer_output (totalInputFlow totalInputSolids : Q)
    (inputStreams : list DetailedStream.t) (activeComponents : list MineralComponent.t)
    (splits : list Q) (numOutputs : Q) (i : nat) : DetailedStream.t :=
  let splitFraction := opt_or (splits !! i) (100 / numOutputs) / 100 in
  let outputFlow := totalInputFlow * splitFraction in
  let outputSolids := totalInputSolids * splitFraction in
  let outputMass (comp : MineralComponent.t) :=
    totalInputComponentMass inputStreams (MineralComponent.id comp) * splitFraction in
  {| DetailedStream.flowRate := outputFlow;
     DetailedStream.solidPercent :=
       if Qltb 0 outputFlow then outputSolids / outputFlow * 100 else 0;
     DetailedStream.density := 2.8;
     DetailedStream.particleSize := 150;
     DetailedStream.mineralContent := ∅;
     DetailedStream.volumetricFlow :=
       add (jsdiv outputSolids 2.8) (jsdiv (outputFlow - outputSolids) 1);
     DetailedStream.componentMass := by_component activeComponents outputMass;
     DetailedStream.componentPercentages :=
       by_component activeComponents (fun comp =>
         if Qltb 0 outputSolids then outputMass comp / outputSolids * 100 else 0);
     DetailedStream.waterFlow := outputFlow - outputSolids;
     DetailedStream.solidFlow := outputSolids |}.

(** [parameters.components?.[id]?.recovery || recovery] *)
Definition componentRecovery (parameters : EquipmentParameters.t) (recovery : Q)
    (id : string) : Q :=
  opt_or (ComponentParameters.recovery <$>
            (EquipmentParameters.components parameters ≫= fun cs => cs !! id))
         recovery.

(** A product of a flotation cell: [solidPercent] is the stream-class
    solids percent (65 or 35), [mass] gives the component masses. *)
Definition flotation_product (input : DetailedStream.t)
    (activeComponents : list MineralComponent.t) (flow solidPercent solids : Q)
    (mass : MineralComponent.t -> Q) : DetailedStream.t :=
  {| DetailedStream.flowRate := flow;
     DetailedStream.solidPercent := solidPercent;
     DetailedStream.density := DetailedStream.density input;
     DetailedStream.particleSize := DetailedStream.particleSize input;
     DetailedStream.mineralContent := ∅;
     DetailedStream.volumetricFlow :=
       add (jsdiv solids (DetailedStream.density input)) (jsdiv (flow - solids) 1);
     DetailedStream.componentMass := by_component activeComponents mass;
     DetailedStream.componentPercentages :=
       by_component activeComponents (fun comp =>
         if Qltb 0 solids then mass comp / solids * 100 else 0);
     DetailedStream.waterFlow := flow - solids;
     DetailedStream.solidFlow := solids |}.

Definition flotation (parameters : EquipmentParameters.t) (input : DetailedStream.t)
    (inputStreams : list DetailedStream.t) (activeComponents : list MineralComponent.t)
    (totalInputFlow : Q) : list DetailedStream.t :=
  let recovery := opt_or (EquipmentParameters.recovery parameters) 85 in
  let concentrateMass (comp : MineralComponent.t) :=
    let inputMass := or_else (totalInputComponentMass inputStreams (MineralComponent.id comp)) 0 in
    inputMass * (componentRecovery parameters recovery (MineralComponent.id comp) / 100) in
  let tailingMass (comp : MineralComponent.t) :=
    let inputMass := or_else (totalInputComponentMass inputStreams (MineralComponent.id comp)) 0 in
    inputMass - concentrateMass comp in
  let concentrateFlow := totalInputFlow * 0.3 in
  let tailingFlow := totalInputFlow - concentrateFlow in
  let concentrateSolids := concentrateFlow * 0.65 in
  let tailingSolids := tailingFlow * 0.35 in
  [ flotation_product input activeComponents concentrateFlow 65 concentrateSolids concentrateMass;
    flotation_product input activeComponents tailingFlow 35 tailingSolids tailingMass ].

(** The default case: every input passes through, with a new particle
    size and copies of its two component dictionaries. *)
Definition pass_through (parameters : EquipmentParameters.t) (stream : DetailedStream.t)
    : DetailedStream.t :=
  {| DetailedStream.flowRate := DetailedStream.flowRate stream;
     DetailedStream.solidPercent := DetailedStream.solidPercent stream;
     DetailedStream.density := DetailedStream.density stream;
     DetailedStream.particleSize :=
       opt_or (EquipmentParameters.targetSize parameters)
              (DetailedStream.particleSize stream * 0.5);
     DetailedStream.mineralContent := DetailedStream.mineralContent stream;
     DetailedStream.volumetricFlow := DetailedStream.volumetricFlow stream;
     DetailedStream.componentMass := DetailedStream.componentMass stream;
     DetailedStream.componentPercentages := DetailedStream.componentPercentages stream;
     DetailedStream.waterFlow := DetailedStream.waterFlow stream;
     DetailedStream.solidFlow := DetailedStream.solidFlow stream |}.

Definition calculateEquipmentBalanceWithClosure (equipment : Equipment.t)
    (inputStreams : list DetailedStream.t) (activeComponents : list MineralComponent.t)
    : outcome (list DetailedStream.t) :=
  match inputStreams with
  | [] => Returns []
  | input :: _ =>
    let parameters := Equipment.parameters equipment in
    let totalInputFlow := Qsum (DetailedStream.flowRate <$> inputStreams) in
    let totalInputSolids :=
      Qsum ((fun s => or_else (DetailedStream.solidFlow s) 0) <$> inputStreams) in
    match Equipment.type equipment with
    | mixer =>
      let numOutputs := opt_or (EquipmentParameters.numberOfOutputs parameters) 1 in
      bind (mixer_splits parameters numOutputs) (fun splits =>
        Returns (mixer_output totalInputFlow totalInputSolids inputStreams
                              activeComponents splits numOutputs
                   <$> seq 0 (loop_count numOutputs)))
    | rougher | cleaner | recleaner =>
      Returns (flotation parameters input inputStreams activeComponents totalInputFlow)
    | moinho | britador =>
      Returns (pass_through parameters <$> inputStreams)
    end
  end.

(** ** Normalisation, errors and the convergence test *)

Definition totalPercentage (activeComponents : list MineralComponent.t)
    (stream : DetailedStream.t) : Q :=
  Qsum ((fun comp => get0 (DetailedStream.componentPercentages stream) (MineralComponent.id comp))
          <$> activeComponents).

Definition normalizeStream (activeComponents : list MineralComponent.t)
    (stream : DetailedStream.t) : DetailedStream.t :=
  let total := totalPercentage activeComponents stream in
  if Qltb 0 total && Qltb 0.01 (Qabs (total - 100))
  then
    let normalizationFactor := 100 / total in
    let normalized (comp : MineralComponent.t) :=
      get0 (DetailedStream.componentPercentages stream) (MineralComponent.id comp)
      * normalizationFactor in
    {| DetailedStream.flowRate := DetailedStream.flowRate stream;
       DetailedStream.solidPercent := DetailedStream.solidPercent stream;
       DetailedStream.density := DetailedStream.density stream;
       DetailedStream.particleSize := DetailedStream.particleSize stream;
       DetailedStream.mineralContent := DetailedStream.mineralContent stream;
       DetailedStream.volumetricFlow := DetailedStream.volumetricFlow stream;
       DetailedStream.componentMass :=
         by_component activeComponents (fun comp =>
           or_else (DetailedStream.solidFlow stream) 0 * (normalized comp / 100));
       DetailedStream.componentPercentages := by_component activeComponents normalized;
       DetailedStream.waterFlow := DetailedStream.waterFlow stream;
       DetailedStream.solidFlow := DetailedStream.solidFlow stream |}
  else stream.

Definition normalizeStreamCompositions (streams : list DetailedStream.t)
    (activeComponents : list MineralComponent.t) : list DetailedStream.t :=
  normalizeStream activeComponents <$> streams.

(** [totalInput > 0 ? Math.abs(totalInput - totalOutput) / totalInput * 100 : 0] *)
Definition relative_error (totalInput totalOutput : Q) : Q :=
  if Qltb 0 totalInput
  then Qabs (totalInput - totalOutput) / totalInput * 100
  else 0.

Definition calculateComponentErrors (streams : list DetailedStream.t)
    (flowLines : list FlowLine.t) (activeComponents : list MineralComponent.t)
    : gmap string Q :=
  let inputs := inputIndices flowLines in
  let outputs := outputIndices flowLines in
  by_component activeComponents (fun comp =>
    let id := MineralComponent.id comp in
    relative_error (total_over (mass_of id) streams inputs)
                   (total_over (mass_of id) streams outputs)).

(** [Object.values(m)] *)
Definition values (m : gmap string Q) : list Q := snd <$> map_to_list m.

Definition checkConvergence (streams : list DetailedStream.t)
    (flowLines : list FlowLine.t) (activeComponents : list MineralComponent.t)
    (tolerance : Q) : bool * num :=
  let errors := calculateComponentErrors streams flowLines activeComponents in
  let maxError := math_max (values errors ++ [0]) in
  (ltb maxError (Fin tolerance), maxError).

Definition calculateGlobalError (streams : list DetailedStream.t)
    (flowLines : list FlowLine.t) : Q :=
  relative_error (total_over DetailedStream.flowRate streams (inputIndices flowLines))
                 (total_over DetailedStream.flowRate streams (outputIndices flowLines)).


(** ** Coherence report *)

(** A line of the report.  The source renders each as a string that starts
    with [ERROR:] or [WARNING:], or is the success marker; the rendering of
    the numbers ([toFixed]) is not modelled. *)
Inductive Finding : Type :=
| NegativeGrade (stream : nat) (symbol : string) (percentage : Q)
| ImpossibleGrade (stream : nat) (symbol : string) (percentage : Q)
| TotalComposition (stream : nat) (total : Q)
| ImpossibleSolidPercent (stream : nat) (solidPercent : Q)
| InvalidDensity (stream : nat) (density : Q)
| AllCoherent.

(** [r.includes('ERROR') || r.includes('WARNING')] *)
Definition is_issue (r : Finding) : bool :=
  match r with
  | AllCoherent => false
  | _ => true
  end.

Definition stream_findings (activeComponents : list MineralComponent.t)
    (index : nat) (stream : DetailedStream.t) : list Finding :=
  let grade_findings :=
    mbind (fun comp =>
        let percentage :=
          get0 (DetailedStream.componentPercentages stream) (MineralComponent.id comp) in
        (if Qltb percentage 0
         then [NegativeGrade (index + 1) (MineralComponent.symbol comp) percentage] else [])
        ++ (if Qltb 100 percentage
            then [ImpossibleGrade (index + 1) (MineralComponent.symbol comp) percentage] else []))
      activeComponents in
  let total := totalPercentage activeComponents stream in
  grade_findings
  ++ (if Qltb 0.1 (Qabs (total - 100)) then [TotalComposition (index + 1) total] else [])
  ++ (if Qltb (DetailedStream.solidPercent stream) 0
         || Qltb 100 (DetailedStream.solidPercent stream)
      then [ImpossibleSolidPercent (index + 1) (DetailedStream.solidPercent stream)] else [])
  ++ (if Qle_bool (DetailedStream.density stream) 0
      then [InvalidDensity (index + 1) (DetailedStream.density stream)] else []).

Definition evaluateCoherence (streams : list DetailedStream.t)
    (activeComponents : list MineralComponent.t) : list Finding :=
  let report := mjoin (imap (stream_findings activeComponents) streams) in
  match report with
  | [] => [AllCoherent]
  | _ => report
  end.

(** ** The iterative solver *)

Module IterativeResult.
Record t : Type := mk {
  converged : bool;
  iterations : nat;
  globalError : Q;
  componentErrors : gmap string Q;
  maxError : num;
  coherenceIssues : list Finding
}.
End IterativeResult.

Module Solution.
Record t : Type := mk {
  streams : list DetailedStream.t;
  iterativeResult : IterativeResult.t;
  coherenceReport : list Finding;
  propagatedFlowLines : list FlowLine.t
}.
End Solution.

(** [flowLines.findIndex(fl => fl.id === id)] *)
Definition findIndex (id : string) (flowLines : list FlowLine.t) : option nat :=
  fst <$> list_find (fun fl => FlowLine.id fl = id) flowLines.

(** The streams behind a list of flow-line ids, each through the first
    flow line that carries the id. *)
Definition streams_of (ids : list string) (flowLines : list FlowLine.t)
    (streams : list DetailedStream.t) : list DetailedStream.t :=
  omap (fun id => findIndex id flowLines ≫= fun flIndex => streams !! flIndex) ids.

(** [outputStreamIds.forEach((streamId, index) => ...)]: the products of the
    transfer function are written back by position. *)
Definition write_outputs (outputStreamIds : list string) (outputStreams : list DetailedStream.t)
    (flowLines : list FlowLine.t) (streams : list DetailedStream.t)
    : list DetailedStream.t :=
  foldl (fun strs '(index, streamId) =>
           match outputStreams !! index, findIndex streamId flowLines with
           | Some out, Some streamIndex => <[streamIndex := out]> strs
           | _, _ => strs
           end)
        streams (imap pair outputStreamIds).

(** Step 3 of an iteration, for one equipment. *)
Definition process_equipment (flowLines : list FlowLine.t)
    (activeComponents : list MineralComponent.t) (streams : list DetailedStream.t)
    (equipment : Equipment.t) : outcome (list DetailedStream.t) :=
  let inputStreamIds :=
    FlowLine.id <$> filter (fun fl => FlowLine.toEquipment fl = Some (Equipment.id equipment))
                           flowLines in
  let inputStreams := streams_of inputStreamIds flowLines streams in
  match inputStreams with
  | [] => Returns streams
  | _ =>
    bind (calculateEquipmentBalanceWithClosure equipment inputStreams activeComponents)
      (fun outputStreams =>
         let outputStreamIds :=
           FlowLine.id <$> filter (fun fl => FlowLine.fromEquipment fl = Some (Equipment.id equipment))
                                  flowLines in
         Returns (write_outputs outputStreamIds outputStreams flowLines streams))
  end.

Definition process_equipments (equipments : list Equipment.t) (flowLines : list FlowLine.t)
    (activeComponents : list MineralComponent.t) (streams : list DetailedStream.t)
    : outcome (list DetailedStream.t) :=
  foldl (fun acc equipment =>
           bind acc (fun strs => process_equipment flowLines activeComponents strs equipment))
        (Returns streams) equipments.

(** The body of the [while] loop, up to the convergence test. *)
Definition iteration_body (equipments : list Equipment.t) (flowLines : list FlowLine.t)
    (activeComponents : list MineralComponent.t) (streams : list DetailedStream.t)
    : outcome (list DetailedStream.t) :=
  let streams := applyMassBalanceClosure streams flowLines activeComponents in
  bind (process_equipments equipments flowLines activeComponents streams) (fun streams =>
    let streams := applyGlobalMassBalanceWithClosure streams flowLines activeComponents in
    Returns (normalizeStreamCompositions streams activeComponents)).

(** [while (!converged && iteration < maxIterations)]: [remaining] is
    [maxIterations - iteration].  The result is the final [converged],
    [iteration] and [streams]. *)
Fixpoint solver_loop (remaining : nat) (equipments : list Equipment.t)
    (flowLines : list FlowLine.t) (activeComponents : list MineralComponent.t)
    (tolerance : Q) (iteration : nat) (streams : list DetailedStream.t)
    : outcome (bool * nat * list DetailedStream.t) :=
  match remaining with
  | O => Returns (false, iteration, streams)
  | S k =>
    let iteration := S iteration in
    bind (iteration_body equipments flowLines activeComponents streams) (fun streams =>
      if fst (checkConvergence streams flowLines activeComponents tolerance)
      then Returns (true, iteration, streams)
      else solver_loop k equipments flowLines activeComponents tolerance iteration streams)
  end.

Definition solveIterativeMassBalance (equipments : list Equipment.t)
    (flowLines : list FlowLine.t) (mineralComponents : list MineralComponent.t)
    (maxIterations : nat) (tolerance : Q) : outcome Solution.t :=
  let activeComponents := active_components mineralComponents in
  let propagatedFlowLines := propagateStreamData flowLines mineralComponents in
  let streams := (fun fl => convertToDetailedStream fl activeComponents) <$> propagatedFlowLines in
  bind (solver_loop maxIterations equipments propagatedFlowLines activeComponents
                    tolerance 0%nat streams)
    (fun '(converged, iteration, streams) =>
       let coherenceReport := evaluateCoherence streams activeComponents in
       let componentErrors :=
         calculateComponentErrors streams propagatedFlowLines activeComponents in
       Returns
         {| Solution.streams := streams;
            Solution.iterativeResult :=
              {| IterativeResult.converged := converged;
                 IterativeResult.iterations := iteration;
                 IterativeResult.globalError :=
                   if Nat.ltb 0 (length streams)
                   then calculateGlobalError streams propagatedFlowLines else 0;
                 IterativeResult.componentErrors := componentErrors;
                 IterativeResult.maxError := math_max (values componentErrors);
                 IterativeResult.coherenceIssues := filter (fun r => is_issue r = true) coherenceReport |};
            Solution.coherenceReport := coherenceReport;
            Solution.propagatedFlowLines := propagatedFlowLines |}).

(** The default arguments of the solver. *)
Definition defaultMaxIterations : nat := 50.
Definition defaultTolerance : Q := 0.001.


(** ** The stand-alone mixer *)

(** [MaterialStream], as the calculators of the module take it: its numbers
    are arbitrary JavaScript numbers. *)
Module MaterialStream.
Record t : Type := mk {
  flowRate : num;
  solidPercent : num;
  density : num;
  particleSize : num;
  mineralContent : gmap string num;
  waterFlow : option num;
  solidFlow : option num;
  components : option (gmap string num)
}.
End MaterialStream.

(** [l.reduce((sum, x) => sum + f(x), 0)] on extended numbers. *)
Definition sum_by {A : Type} (f : A -> num) (l : list A) : num :=
  foldl (fun sum x => add sum (f x)) (Fin 0) l.

(** [m[k] || 0] and [o || 0] on extended numbers. *)
Definition num_get0 (m : gmap string num) (k : string) : num :=
  match m !! k with Some x => num_or x (Fin 0) | None => Fin 0 end.

Definition num_opt0 (o : option num) : num :=
  match o with Some x => num_or x (Fin 0) | None => Fin 0 end.

(** The keys collected in the [Set]s [allMinerals] and [allComponents]. *)
Definition all_keys (f : MaterialStream.t -> gmap string num)
    (streams : list MaterialStream.t) : gset string :=
  foldl (fun acc s => acc ∪ dom (f s)) ∅ streams.

Definition mixStreams (streams : list MaterialStream.t) (efficiency : num)
    : outcome MaterialStream.t :=
  match streams with
  | [] => Throws (Error "No streams to mix")
  | [stream] => Returns stream
  | _ =>
    let fraction := div efficiency (Fin 100) in
    let totalFlow := sum_by MaterialStream.flowRate streams in
    let outputTotalFlow := mul totalFlow fraction in
    let totalSolidFlow :=
      sum_by (fun s => div (mul (MaterialStream.flowRate s) (MaterialStream.solidPercent s))
                           (Fin 100)) streams in
    let outputSolidFlow := mul totalSolidFlow fraction in
    let mixedSolidPercent :=
      if gtb outputTotalFlow (Fin 0)
      then mul (div outputSolidFlow outputTotalFlow) (Fin 100) else Fin 0 in
    let totalVolume :=
      sum_by (fun s => div (MaterialStream.flowRate s) (MaterialStream.density s)) streams in
    let mixedDensity := div totalFlow totalVolume in
    let totalSurfaceArea :=
      sum_by (fun s => div (MaterialStream.flowRate s) (MaterialStream.particleSize s)) streams in
    let mixedParticleSize := div totalFlow totalSurfaceArea in
    let mixedMineralContent : gmap string num :=
      set_to_map (fun mineral =>
          let weightedSum :=
            sum_by (fun s => div (mul (MaterialStream.flowRate s)
                                      (num_get0 (MaterialStream.mineralContent s) mineral))
                                 (Fin 100)) streams in
          (mineral, mul (div weightedSum totalFlow) (Fin 100)))
        (all_keys MaterialStream.mineralContent streams) in
    let mixedComponents : gmap string num :=
      set_to_map (fun component =>
          let componentMass :=
            sum_by (fun s =>
                let grade := num_get0 (default ∅ (MaterialStream.components s)) component in
                let solidFlow :=
                  mul (MaterialStream.flowRate s) (div (MaterialStream.solidPercent s) (Fin 100)) in
                div (mul solidFlow grade) (Fin 100)) streams in
          (component,
           if gtb outputSolidFlow (Fin 0)
           then mul (div componentMass outputSolidFlow) (Fin 100) else Fin 0))
        (all_keys (fun s => default ∅ (MaterialStream.components s)) streams) in
    Returns
      {| MaterialStream.flowRate := outputTotalFlow;
         MaterialStream.solidPercent := mixedSolidPercent;
         MaterialStream.density := mixedDensity;
         MaterialStream.particleSize := mixedParticleSize;
         MaterialStream.mineralContent := mixedMineralContent;
         MaterialStream.waterFlow :=
           Some (mul (sum_by (fun s => num_opt0 (MaterialStream.waterFlow s)) streams) fraction);
         MaterialStream.solidFlow := Some outputSolidFlow;
         MaterialStream.components := Some mixedComponents |}
  end.

(** The default efficiency of [mixStreams]. *)
Definition defaultEfficiency : num := Fin 99.


(** ** Properties of a run, as the specification words them *)

(** Sum of the mass of component [id] over the input-class streams (no
    [fromEquipment]) and over the output-class streams (no [toEquipment]). *)
Definition input_mass (streams : list DetailedStream.t) (flowLines : list FlowLine.t)
    (id : string) : Q :=
  total_over (mass_of id) streams (inputIndices flowLines).

Definition output_mass (streams : list DetailedStream.t) (flowLines : list FlowLine.t)
    (id : string) : Q :=
  total_over (mass_of id) streams (outputIndices flowLines).

(** The closure error of the specification,
    [|Σ in − Σ out| / Σ in × 100], computed as JavaScript would: the
    division is not guarded. *)
Definition closure_error (streams : list DetailedStream.t) (flowLines : list FlowLine.t)
    (id : string) : num :=
  mul (jsdiv (Qabs (input_mass streams flowLines id - output_mass streams flowLines id))
             (input_mass streams flowLines id))
      (Fin 100).

(** The closure invariant of a converged run. *)
Definition closure_invariant (equipments : list Equipment.t) (flowLines : list FlowLine.t)
    (mineralComponents : list MineralComponent.t) (maxIterations : nat) (tolerance : Q)
    : Prop :=
  forall sol comp,
    solveIterativeMassBalance equipments flowLines mineralComponents maxIterations tolerance
      = Returns sol ->
    IterativeResult.converged (Solution.iterativeResult sol) = true ->
    comp ∈ active_components mineralComponents ->
    ltb (closure_error (Solution.streams sol) flowLines (MineralComponent.id comp))
        (Fin tolerance) = true.

(** A mixer whose [Array(numOutputs)] is accepted, or never evaluated. *)
Definition well_configured (equipment : Equipment.t) : Prop :=
  Equipment.type equipment = mixer ->
  EquipmentParameters.splits (Equipment.parameters equipment) = None ->
  valid_array_length
    (opt_or (EquipmentParameters.numberOfOutputs (Equipment.parameters equipment)) 1) = true.



Definition is_flotation (type : EquipmentType) : bool :=
  match type with
  | rougher | cleaner | recleaner => true
  | _ => false
  end.

(** The stream invariant of the data model. *)
Definition flows_consistent (s : DetailedStream.t) : Prop :=
  DetailedStream.solidFlow s
    == DetailedStream.flowRate s * (DetailedStream.solidPercent s / 100)
  /\ DetailedStream.waterFlow s
    == DetailedStream.flowRate s - DetailedStream.solidFlow s.

(** A grade on the basis of the stream's solids. *)
Definition grade_of_solids (id : string) (s : DetailedStream.t) : Q :=
  mass_of id s / DetailedStream.solidFlow s * 100.

(** Composition normalisation, as the specification words it: the
    percentages of the active components sum to 100 within 0.1, except on
    a stream with no solids, where they are all zero. *)
Definition composition_normalized (activeComponents : list MineralComponent.t)
    (s : DetailedStream.t) : Prop :=
  Qabs (totalPercentage activeComponents s - 100) <= 0.1
  \/ (DetailedStream.solidFlow s == 0
      /\ forall comp, comp ∈ activeComponents ->
           get0 (DetailedStream.componentPercentages s) (MineralComponent.id comp) == 0).

(** One pass of propagation iterated. *)
Definition propagate_passes (n : nat) (active : list MineralComponent.t)
    (fls : list FlowLine.t) : list FlowLine.t :=
  Nat.iter n (fun l => fst (propagate_pass active l)) fls.

(** ** Example flowsheets *)

Module Examples.
Open Scope string_scope.

Definition fe : MineralComponent.t := MineralComponent.mk "fe" "Fe" 35 true.
Definition si : MineralComponent.t := MineralComponent.mk "si" "SiO2" 65 true.
Definition inactive_fe : MineralComponent.t := MineralComponent.mk "fe" "Fe" 35 false.

Definition no_parameters : EquipmentParameters.t :=
  EquipmentParameters.mk None None None None None.

Definition mill : Equipment.t := Equipment.mk "E" moinho no_parameters.

(** A feed of 1000 t/h at 70 % solids carrying 35 % of [fe]. *)
Definition feed : FlowLine.t :=
  FlowLine.mk "feed" None (Some "E") 1000 70 2.8 None (Some ["fe"])
              (Some {["fe" := 35]}).

(** A product with no data. *)
Definition empty_product : FlowLine.t :=
  FlowLine.mk "product" (Some "E") None 0 0 0 None None None.

(** A feed and a product with full assays and conflicting totals. *)
Definition assayed_feed : FlowLine.t :=
  FlowLine.mk "feed" None (Some "E") 1000 70 2.8 None (Some ["fe"; "si"])
              (Some (<["fe" := 35]> {["si" := 65]})).

Definition assayed_product : FlowLine.t :=
  FlowLine.mk "product" (Some "E") None 500 70 2.8 None (Some ["fe"; "si"])
              (Some (<["fe" := 35]> {["si" := 65]})).

(** A feed and a product that carry no [fe] at all. *)
Definition barren_feed : FlowLine.t :=
  FlowLine.mk "feed" None (Some "E") 1000 70 2.8 None (Some ["fe"])
              (Some {["fe" := 0]}).

Definition barren_product : FlowLine.t :=
  FlowLine.mk "product" (Some "E") None 1000 70 2.8 None (Some ["fe"])
              (Some {["fe" := 0]}).

(** A mixer the property form can produce: its number of outputs is typed
    into a numeric field and stored as [Number(value)]. *)
Definition odd_mixer : Equipment.t :=
  Equipment.mk "E" mixer (EquipmentParameters.mk None (Some 2.5) None None None).


Definition rougher_cell : Equipment.t :=
  Equipment.mk "E" rougher
    (EquipmentParameters.mk (Some 90) None None None
       (Some {["fe" := ComponentParameters.mk 35 60 10 80]})).

(** A circuit with one feed and two products of unequal size, all dry and
    all pure [fe]: 1000 t/h in, 100 t/h and 400 t/h out. *)
Definition pure_feed : FlowLine.t :=
  FlowLine.mk "feed" None (Some "E") 1000 100 2.8 None (Some ["fe"])
              (Some {["fe" := 100]}).

Definition small_product : FlowLine.t :=
  FlowLine.mk "small" (Some "E") None 100 100 2.8 None (Some ["fe"])
              (Some {["fe" := 100]}).

Definition large_product : FlowLine.t :=
  FlowLine.mk "large" (Some "E") None 400 100 2.8 None (Some ["fe"])
              (Some {["fe" := 100]}).

Definition unequal_circuit : list FlowLine.t :=
  [pure_feed; small_product; large_product].

Definition stream_of (fl : FlowLine.t) (active : list MineralComponent.t) : DetailedStream.t :=
  convertToDetailedStream fl active.

End Examples.


(** ** Vocabulary of the proofs *)

(** What propagation never changes in a flow line. *)
Definition ends_of (fl : FlowLine.t) : string * option string * option string :=
  (FlowLine.id fl, FlowLine.fromEquipment fl, FlowLine.toEquipment fl).

(** A feed enters the circuit; a product leaves it. *)
Definition is_feed (fl : FlowLine.t) : bool :=
  negb (has_id (FlowLine.fromEquipment fl)) && has_id (FlowLine.toEquipment fl).

Definition is_product (fl : FlowLine.t) : bool :=
  has_id (FlowLine.fromEquipment fl) && negb (has_id (FlowLine.toEquipment fl)).

(** The four cases of the loop body, each as a function of the array;
    [flowLine] is the element read at the top of the body. *)
Definition case1 (flowLine : FlowLine.t) (fls : list FlowLine.t) : list FlowLine.t :=
  if is_feed flowLine
  then overwrite (forward_target flowLine) (copy_forward flowLine) fls
  else fls.

Definition case2 (flowLine : FlowLine.t) (fls : list FlowLine.t) : list FlowLine.t :=
  if is_product flowLine
  then overwrite (backward_target flowLine) (copy_backward flowLine) fls
  else fls.

Definition case3 (active : list MineralComponent.t) (i : nat) (flowLine : FlowLine.t)
    (fls : list FlowLine.t) : list FlowLine.t :=
  if no_components flowLine then <[i := with_defaults active flowLine]> fls else fls.

Definition case4 (i : nat) (flowLine : FlowLine.t) (fls : list FlowLine.t)
    : list FlowLine.t :=
  if Qeq_bool (FlowLine.flowRate flowLine) 0
  then <[i := with_flow (estimated_flow fls flowLine) flowLine]> fls
  else fls.

Definition nonzero_flow (fl : FlowLine.t) : Prop :=
  Qeq_bool (FlowLine.flowRate fl) 0 = false.

Definition has_grades (fl : FlowLine.t) : Prop :=
  is_Some (FlowLine.componentGrades fl).

(** Every flow rate is set. *)
Definition flows_set (fls : list FlowLine.t) : Prop :=
  forall j x, fls !! j = Some x -> nonzero_flow x.

(** Around every boundary stream, the streams on the other side of its
    equipment have a grade dictionary. *)
Definition neighbours_graded (fls : list FlowLine.t) : Prop :=
  forall i f j o, fls !! i = Some f -> fls !! j = Some o ->
    (is_feed f = true -> FlowLine.fromEquipment o = FlowLine.toEquipment f -> has_grades o)
    /\ (is_product f = true -> FlowLine.toEquipment o = FlowLine.fromEquipment f -> has_grades o).

(** CASE 3 rewrites the stream with what it already holds. *)
Definition defaults_settled (active : list MineralComponent.t) (fl : FlowLine.t) : Prop :=
  no_components fl = true -> with_defaults active fl = fl.

(** A pass leaves the array as it is. *)
Definition settled (active : list MineralComponent.t) (fls : list FlowLine.t) : Prop :=
  fst (propagate_pass active fls) = fls.


(** Composition normalisation of a converged run, as the specification
    words it. *)
Definition compositions_normalized (equipments : list Equipment.t)
    (flowLines : list FlowLine.t) (mineralComponents : list MineralComponent.t)
    (maxIterations : nat) (tolerance : Q) : Prop :=
  forall sol s,
    solveIterativeMassBalance equipments flowLines mineralComponents maxIterations tolerance
      = Returns sol ->
    IterativeResult.converged (Solution.iterativeResult sol) = true ->
    s ∈ Solution.streams sol ->
    composition_normalized (active_components mineralComponents) s.

(** The scenario of conflicting totals, as the specification words it, for
    a closure function and a quantity of a stream: the inputs total 1000,
    the outputs 500, every output stream is there and holds some; after the
    closure the outputs total 1000 and each is twice what it was. *)
Definition rescaled_by_two
    (closure : list DetailedStream.t -> list FlowLine.t -> list MineralComponent.t ->
               list DetailedStream.t)
    (quantity : DetailedStream.t -> Q)
    (streams : list DetailedStream.t) (flowLines : list FlowLine.t)
    (activeComponents : list MineralComponent.t) : Prop :=
  total_over quantity streams (inputIndices flowLines) == 1000 ->
  total_over quantity streams (outputIndices flowLines) == 500 ->
  (forall idx, idx ∈ outputIndices flowLines ->
     exists s, streams !! idx = Some s /\ ~ quantity s == 0) ->
  total_over quantity (closure streams flowLines activeComponents) (outputIndices flowLines)
    == 1000
  /\ forall idx s s',
       idx ∈ outputIndices flowLines ->
       streams !! idx = Some s ->
       closure streams flowLines activeComponents !! idx = Some s' ->
       quantity s' == 2 * quantity s.



(** ** Balance validation of a set of streams *)

(** [StreamBalance]: a stream as the validation functions take it. *)
Module StreamBalance.
Record t : Type := mk {
  streamId : string;
  streamName : string;
  massFlow : Q;
  solidFlow : Q;
  componentMass : gmap string Q;
  componentGrades : gmap string Q
}.
End StreamBalance.

(** The verdict of a validation.  The [details] string of the source, which
    renders the numbers with [toFixed], is not modelled. *)
Module Validation.
Record t : Type := mk {
  isValid : bool;
  error : Q
}.
End Validation.

Definition validateGlobalMassBalance (inputStreams outputStreams : list StreamBalance.t)
    : Validation.t :=
  let totalMassIn := Qsum (StreamBalance.massFlow <$> inputStreams) in
  let totalMassOut := Qsum (StreamBalance.massFlow <$> outputStreams) in
  let totalSolidsIn := Qsum (StreamBalance.solidFlow <$> inputStreams) in
  let totalSolidsOut := Qsum (StreamBalance.solidFlow <$> outputStreams) in
  let massErrorPercent := relative_error totalMassIn totalMassOut in
  let solidsErrorPercent := relative_error totalSolidsIn totalSolidsOut in
  let overallError := Qmax massErrorPercent solidsErrorPercent in
  {| Validation.isValid := Qltb overallError 0.1;
     Validation.error := overallError |}.

(** [streams.reduce((sum, stream) => sum + (stream.componentMass[component] || 0), 0)] *)
Definition component_total (component : string) (streams : list StreamBalance.t) : Q :=
  Qsum ((fun stream => get0 (StreamBalance.componentMass stream) component) <$> streams).

Definition validateComponentBalance (inputStreams outputStreams : list StreamBalance.t)
    (components : list string) : gmap string Validation.t :=
  foldl (fun results component =>
           let totalComponentIn := component_total component inputStreams in
           let totalComponentOut := component_total component outputStreams in
           let componentErrorPercent := relative_error totalComponentIn totalComponentOut in
           <[component := {| Validation.isValid := Qltb componentErrorPercent 0.1;
                             Validation.error := componentErrorPercent |}]> results)
        ∅ components.

Module Recovery.
Record t : Type := mk {
  recovery : Q;
  enrichmentRatio : Q;
  concentrationRatio : Q
}.
End Recovery.

(** The tailing streams are a parameter the source never reads. *)
Definition calculateMetallurgicalRecovery
    (feedStreams concentrateStreams tailingStreams : list StreamBalance.t)
    (components : list string) : gmap string Recovery.t :=
  foldl (fun results component =>
           let feedComponentMass := component_total component feedStreams in
           let concentrateComponentMass := component_total component concentrateStreams in
           let totalFeedSolids := Qsum (StreamBalance.solidFlow <$> feedStreams) in
           let totalConcSolids := Qsum (StreamBalance.solidFlow <$> concentrateStreams) in
           let feedGrade :=
             if Qltb 0 totalFeedSolids then feedComponentMass / totalFeedSolids * 100 else 0 in
           let concentrateGrade :=
             if Qltb 0 totalConcSolids
             then concentrateComponentMass / totalConcSolids * 100 else 0 in
           let recovery :=
             if Qltb 0 feedComponentMass
             then concentrateComponentMass / feedComponentMass * 100 else 0 in
           let enrichmentRatio :=
             if Qltb 0 feedGrade then concentrateGrade / feedGrade else 0 in
           let totalFeedMass := Qsum (StreamBalance.massFlow <$> feedStreams) in
           let totalConcMass := Qsum (StreamBalance.massFlow <$> concentrateStreams) in
           let concentrationRatio :=
             if Qltb 0 totalConcMass then totalFeedMass / totalConcMass else 0 in
           <[component := {| Recovery.recovery := recovery;
                             Recovery.enrichmentRatio := enrichmentRatio;
                             Recovery.concentrationRatio := concentrationRatio |}]> results)
        ∅ components.

(** ** Stream objects in a store *)

(** [correctStreamImbalances] writes into the objects it is given, so here
    the streams are what the source has: the array holds references to
    stream objects, a stream object holds a reference to its
    [componentMass] dictionary, and objects and dictionaries live in a
    store.  An object listed twice in the array is one object; two objects
    may share one dictionary.  ([componentGrades] is never written and is
    kept by value.) *)
Module StreamObject.
Record t : Type := mk {
  streamId : string;
  streamName : string;
  massFlow : Q;
  solidFlow : Q;
  componentMass : nat;
  componentGrades : gmap string Q
}.
End StreamObject.

Module Store.
Record t : Type := mk {
  objects : gmap nat StreamObject.t;
  dictionaries : gmap nat (gmap string Q)
}.
End Store.

(** [stream.massFlow] through a reference of the array.  An array holds
    objects, so a reference with no object behind it does not arise; it
    counts for nothing. *)
Definition mass_flow_at (store : Store.t) (ref : nat) : Q :=
  match Store.objects store !! ref with
  | Some stream => StreamObject.massFlow stream
  | None => 0
  end.

(** The writes of the loop body: two on the object, one on every entry of
    its dictionary. *)
Definition scaled (massCorrectionFactor : Q) (stream : StreamObject.t) : StreamObject.t :=
  {| StreamObject.streamId := StreamObject.streamId stream;
     StreamObject.streamName := StreamObject.streamName stream;
     StreamObject.massFlow := StreamObject.massFlow stream * massCorrectionFactor;
     StreamObject.solidFlow := StreamObject.solidFlow stream * massCorrectionFactor;
     StreamObject.componentMass := StreamObject.componentMass stream;
     StreamObject.componentGrades := StreamObject.componentGrades stream |}.

Definition scaled_masses (massCorrectionFactor : Q) (masses : gmap string Q)
    : gmap string Q :=
  (fun mass => mass * massCorrectionFactor) <$> masses.

(** The body of the loop over the streams, in place. *)
Definition scale_in_place (massCorrectionFactor : Q) (store : Store.t) (ref : nat)
    : Store.t :=
  match Store.objects store !! ref with
  | None => store
  | Some stream =>
    {| Store.objects := <[ref := scaled massCorrectionFactor stream]> (Store.objects store);
       Store.dictionaries :=
         alter (scaled_masses massCorrectionFactor) (StreamObject.componentMass stream)
               (Store.dictionaries store) |}
  end.

(** The result is the new array, which holds the references of the old
    one, and the store after the writes.  [targetComponents] is a parameter
    the source never reads. *)
Definition correctStreamImbalances (store : Store.t) (streams : list nat)
    (targetTotalMass : Q) (targetComponents : gmap string Q) : list nat * Store.t :=
  let currentTotalMass := Qsum (mass_flow_at store <$> streams) in
  if Qeq_bool currentTotalMass 0 then (streams, store)
  else
    let massCorrectionFactor := targetTotalMass / currentTotalMass in
    (streams, foldl (scale_in_place massCorrectionFactor) store streams).

(** ** Stand-alone calculators on arbitrary numbers *)

(** [-x], [x - y] and [Math.abs(x)] on extended numbers. *)
Definition num_neg (x : num) : num :=
  match x with
  | Fin q => Fin (- q)
  | PInf => NInf
  | NInf => PInf
  | NaN => NaN
  end.

Definition num_sub (x y : num) : num := add x (num_neg y).

Definition num_abs (x : num) : num :=
  match x with
  | Fin q => Fin (Qabs q)
  | PInf | NInf => PInf
  | NaN => NaN
  end.

(** The verdict of [validateMassBalance]; its [message] string is not
    modelled. *)
Module MassBalance.
Record t : Type := mk {
  isValid : bool;
  error : num
}.
End MassBalance.

Definition validateMassBalance (inputs outputs : list MaterialStream.t) : MassBalance.t :=
  let totalIn := sum_by MaterialStream.flowRate inputs in
  let totalOut := sum_by MaterialStream.flowRate outputs in
  let error := num_abs (num_sub totalIn totalOut) in
  let errorPercent := mul (div error totalIn) (Fin 100) in
  {| MassBalance.isValid := ltb errorPercent (Fin 1);
     MassBalance.error := errorPercent |}.

(** [{...stream, waterFlow, solidFlow}]: the stream's flow rate is taken as
    its flow of solids. *)
Definition calculateWaterBalance (stream : MaterialStream.t) : MaterialStream.t :=
  let solidFlow := MaterialStream.flowRate stream in
  let solidPercent := div (MaterialStream.solidPercent stream) (Fin 100) in
  let totalMass := div solidFlow solidPercent in
  let waterMass := num_sub totalMass solidFlow in
  let waterFlow := waterMass in
  {| MaterialStream.flowRate := MaterialStream.flowRate stream;
     MaterialStream.solidPercent := MaterialStream.solidPercent stream;
     MaterialStream.density := MaterialStream.density stream;
     MaterialStream.particleSize := MaterialStream.particleSize stream;
     MaterialStream.mineralContent := MaterialStream.mineralContent stream;
     MaterialStream.waterFlow := Some waterFlow;
     MaterialStream.solidFlow := Some solidFlow;
     MaterialStream.components := MaterialStream.components stream |}.

(** ** A calculator on binary64 numbers *)

(** [calculateFlotationRecovery] is embedded on the numbers JavaScript
    computes with, the binary64 floating-point numbers of IEEE 754 with
    their rounding, overflow, underflow, infinities and NaN: what it
    returns at the edges of the arithmetic is what there is to say about
    it. *)

(** [Math.max(0, x)] and [Math.min(100, x)]. *)
Definition max_zero (x : float) : float :=
  if PrimFloat.is_nan x then PrimFloat.nan
  else if PrimFloat.ltb 0%float x then x else 0%float.

Definition min_hundred (x : float) : float :=
  if PrimFloat.is_nan x then PrimFloat.nan
  else if PrimFloat.ltb x 100%float then x else 100%float.

Definition calculateFlotationRecovery (gradeIn gradeConcentrate gradeTailing : float)
    : float :=
  if PrimFloat.leb gradeConcentrate gradeTailing then 0%float
  else
    let recovery :=
      PrimFloat.mul
        (PrimFloat.div
           (PrimFloat.mul (PrimFloat.sub gradeConcentrate gradeTailing) gradeIn)
           (PrimFloat.add
              (PrimFloat.mul (PrimFloat.sub gradeConcentrate gradeTailing) gradeIn)
              (PrimFloat.mul (PrimFloat.sub gradeIn gradeTailing) gradeTailing)))
        100%float in
    min_hundred (max_zero recovery).

(** ** Further vocabulary *)

(** Agreement up to rounding.  The source computes in binary floating
    point: where the exact arithmetic of this embedding makes two
    quantities equal (the sum of n shares of a total and the total, a
    product taken in another order), the numbers of the program agree in
    all but their last digits.  A statement about such quantities is made
    with [agrees]: to one part in 10^9 of the value, or to 10^-9 where the
    value is below 1. *)
Definition rounding : Q := 1 # 1000000000.

Definition agrees (x y : Q) : Prop :=
  Qabs (x - y) <= rounding * Qmax 1 (Qabs y).

(** The dictionaries of the objects an array lists, in the order of the
    array. *)
Definition dictionaries_of (store : Store.t) (streams : list nat) : list nat :=
  omap (fun ref => StreamObject.componentMass <$> Store.objects store !! ref) streams.

(** What propagation keeps of a flow line [x] in the line [y] that takes
    its place: every number that is set (not zero), every grade entry, and
    a component list that is not empty. *)
Definition keeps_data (x y : FlowLine.t) : Prop :=
  (~ FlowLine.flowRate x == 0 -> FlowLine.flowRate y = FlowLine.flowRate x)
  /\ (~ FlowLine.solidPercent x == 0 -> FlowLine.solidPercent y = FlowLine.solidPercent x)
  /\ (~ FlowLine.density x == 0 -> FlowLine.density y = FlowLine.density x)
  /\ (forall p, FlowLine.particleSize x = Some p -> ~ p == 0 ->
        FlowLine.particleSize y = Some p)
  /\ (forall c, FlowLine.components x = Some c -> c <> [] -> FlowLine.components y = Some c)
  /\ (forall k v, grades_of (FlowLine.componentGrades x) !! k = Some v ->
        grades_of (FlowLine.componentGrades y) !! k = Some v).

(** The bulk flow entering and leaving the circuit: the totals the closures
    and [calculateGlobalError] compare. *)
Definition input_flow (streams : list DetailedStream.t) (flowLines : list FlowLine.t) : Q :=
  total_over DetailedStream.flowRate streams (inputIndices flowLines).

Definition output_flow (streams : list DetailedStream.t) (flowLines : list FlowLine.t) : Q :=
  total_over DetailedStream.flowRate streams (outputIndices flowLines).

(** No flow line is drawn with both ends free: a stream is of the input
    class, of the output class or between two equipments. *)
Definition every_line_attached (flowLines : list FlowLine.t) : Prop :=
  forall fl, fl ∈ flowLines ->
    has_id (FlowLine.fromEquipment fl) || has_id (FlowLine.toEquipment fl) = true.

(** ** Further example flowsheets *)

Module Flowsheets.
Open Scope string_scope.

(** A mixer with two outputs and no splits configured. *)
Definition two_way_mixer : Equipment.t :=
  Equipment.mk "E" mixer (EquipmentParameters.mk None (Some 2) None None None).

(** Two empty products of the equipment [E]. *)
Definition first_product : FlowLine.t :=
  FlowLine.mk "first" (Some "E") None 0 0 0 None None None.

Definition second_product : FlowLine.t :=
  FlowLine.mk "second" (Some "E") None 0 0 0 None None None.

(** A flow line between two equipments. *)
Definition middle_line : FlowLine.t :=
  FlowLine.mk "middle" (Some "E") (Some "F") 800 70 2.8 None (Some ["fe"])
              (Some {["fe" := 35]}).

(** Two streams for the validation functions: 1000 t/h at 70 % solids with
    245 t/h of [fe], and 500 t/h with half of each. *)
Definition full_balance : StreamBalance.t :=
  StreamBalance.mk "s1" "feed" 1000 700 {["fe" := 245]} {["fe" := 35]}.

Definition half_balance : StreamBalance.t :=
  StreamBalance.mk "s2" "concentrate" 500 350 {["fe" := 122.5]} {["fe" := 35]}.

(** The same two streams as objects of a store, each with a dictionary of
    its own. *)
Definition two_objects : Store.t :=
  Store.mk
    (<[0%nat := StreamObject.mk "s1" "feed" 1000 700 10 {["fe" := 35]}]>
       {[1%nat := StreamObject.mk "s2" "concentrate" 500 350 11 {["fe" := 35]}]})
    (<[10%nat := {["fe" := 245]}]> {[11%nat := {["fe" := 122.5]}]}).

End Flowsheets.


(** Case analysis on every test of the goal. *)
Ltac case_tests :=
  repeat match goal with
         | |- context [if ?b then _ else _] => destruct b
         end.

(** * Arithmetic *)

Lemma Qltb_lt (x y : Q) : Qltb x y = true <-> x < y.
Proof.
  unfold Qltb. rewrite negb_true_iff, <- not_true_iff_false, Qle_bool_iff.
  split; [apply Qnot_le_lt | apply Qlt_not_le].
Qed.

Lemma Qltb_ge (x y : Q) : Qltb x y = false <-> y <= x.
Proof.
  unfold Qltb. rewrite negb_false_iff, Qle_bool_iff. reflexivity.
Qed.

Lemma Qeq_bool_false (x y : Q) : Qeq_bool x y = false <-> ~ x == y.
Proof.
  rewrite <- not_true_iff_false, Qeq_bool_iff. reflexivity.
Qed.

Lemma or_else_eq (x : Q) : or_else x 0 == x.
Proof.
  unfold or_else. destruct (Qeq_bool x 0) eqn:E; [|reflexivity].
  apply Qeq_bool_iff in E. symmetry. exact E.
Qed.

Lemma or_else_nonzero (x d : Q) : ~ d == 0 -> ~ or_else x d == 0.
Proof.
  unfold or_else. destruct (Qeq_bool x 0) eqn:E; [tauto|].
  intros _. now apply Qeq_bool_false.
Qed.

(** Quantities that are equal agree; agreement respects equality. *)
Lemma agrees_of_eq (x y : Q) : x == y -> agrees x y.
Proof.
  intros H. unfold agrees. rewrite H.
  assert (Hz : y - y == 0) by ring. rewrite Hz. cbn [Qabs Z.abs Qnum Qden].
  apply Qmult_le_0_compat; [discriminate|].
  eapply Qle_trans; [|apply Q.le_max_l]. discriminate.
Qed.

Lemma agrees_proper (x x' y y' : Q) : x == x' -> y == y' -> agrees x y -> agrees x' y'.
Proof.
  unfold agrees. intros Hx Hy H.
  assert (H1 : Qabs (x' - y') == Qabs (x - y)) by (rewrite Hx, Hy; reflexivity).
  assert (H2 : Qmax 1 (Qabs y') == Qmax 1 (Qabs y)) by (rewrite Hy; reflexivity).
  rewrite H1, H2. exact H.
Qed.

(** * [Math.max] *)

Lemma math_max_lt (l : list Q) (t : Q) :
  ltb (math_max l) (Fin t) = true -> forall q, q ∈ l -> q < t.
Proof.
  induction l as [|a l IH]; intros H q Hq.
  - inversion Hq.
  - simpl in H. destruct (math_max l) as [m| | |] eqn:E; simpl in H; try discriminate.
    + apply Qltb_lt in H. apply Q.max_lub_lt_iff in H as [Ha Hm].
      apply elem_of_cons in Hq as [->|Hq]; [exact Ha|].
      apply IH; [|exact Hq]. simpl. now apply Qltb_lt.
    + apply Qltb_lt in H.
      apply elem_of_cons in Hq as [->|Hq]; [exact H|].
      destruct l as [|b l]; [inversion Hq|].
      simpl in E. destruct (math_max l); discriminate.
Qed.

(** * Dictionaries filled by a loop over the components *)

Lemma by_component_fold_lookup (f : MineralComponent.t -> Q) (h : string -> Q)
    (l : list MineralComponent.t) (m : gmap string Q) (k : string) :
  (forall c, f c = h (MineralComponent.id c)) ->
  foldl (fun m c => <[MineralComponent.id c := f c]> m) m l !! k
  = if decide (k ∈ MineralComponent.id <$> l) then Some (h k) else m !! k.
Proof.
  intros Hf. revert m. induction l as [|c l IH]; intros m.
  - reflexivity.
  - cbn [foldl]. rewrite IH, fmap_cons. case_decide as H1; case_decide as H2; try reflexivity.
    + exfalso. apply H2. now right.
    + apply elem_of_cons in H2 as [->|?]; [|contradiction].
      rewrite lookup_insert_eq. now rewrite Hf.
    + apply not_elem_of_cons in H2 as [??].
      rewrite lookup_insert_ne; congruence.
Qed.

Lemma by_component_lookup (f : MineralComponent.t -> Q) (h : string -> Q)
    (l : list MineralComponent.t) (c : MineralComponent.t) :
  (forall c, f c = h (MineralComponent.id c)) ->
  c ∈ l ->
  by_component l f !! MineralComponent.id c = Some (h (MineralComponent.id c)).
Proof.
  intros Hf Hc. unfold by_component.
  rewrite (by_component_fold_lookup f h) by exact Hf.
  rewrite decide_True; [reflexivity|].
  now apply list_elem_of_fmap_2.
Qed.

Lemma by_component_nil (f : MineralComponent.t -> Q) : by_component [] f = ∅.
Proof. reflexivity. Qed.

Lemma elem_of_values (m : gmap string Q) (k : string) (x : Q) :
  m !! k = Some x -> x ∈ values m.
Proof.
  intros H. unfold values. apply list_elem_of_fmap. exists (k, x). split; [reflexivity|].
  now apply elem_of_map_to_list.
Qed.

Lemma values_empty : values ∅ = [].
Proof. unfold values. now rewrite map_to_list_empty. Qed.

(** * The convergence test *)

Lemma checkConvergence_sound (streams : list DetailedStream.t) (flowLines : list FlowLine.t)
    (activeComponents : list MineralComponent.t) (tolerance : Q) (comp : MineralComponent.t) :
  fst (checkConvergence streams flowLines activeComponents tolerance) = true ->
  comp ∈ activeComponents ->
  relative_error (input_mass streams flowLines (MineralComponent.id comp))
                 (output_mass streams flowLines (MineralComponent.id comp)) < tolerance.
Proof.
  unfold checkConvergence. simpl. intros H Hc.
  eapply math_max_lt; [exact H|].
  apply elem_of_app. left.
  apply (elem_of_values _ (MineralComponent.id comp)).
  unfold calculateComponentErrors.
  apply (by_component_lookup _ (fun id =>
    relative_error (input_mass streams flowLines id) (output_mass streams flowLines id)));
    [reflexivity | exact Hc].
Qed.

(** * The solver loop *)

Lemma solver_loop_converged (n : nat) equipments flowLines activeComponents tolerance
    (iteration : nat) (streams : list DetailedStream.t) iteration' streams' :
  solver_loop n equipments flowLines activeComponents tolerance iteration streams
    = Returns (true, iteration', streams') ->
  fst (checkConvergence streams' flowLines activeComponents tolerance) = true.
Proof.
  revert iteration streams. induction n as [|n IH]; intros iteration streams;
    cbn [solver_loop].
  - discriminate.
  - destruct (iteration_body _ _ _ _) as [s|e]; cbn [bind]; [|discriminate].
    destruct (fst (checkConvergence s flowLines activeComponents tolerance)) eqn:E.
    + intros [= <- <-]. exact E.
    + apply IH.
Qed.

Lemma solver_loop_iterations (n : nat) equipments flowLines activeComponents tolerance
    (iteration : nat) (streams : list DetailedStream.t) converged iteration' streams' :
  solver_loop n equipments flowLines activeComponents tolerance iteration streams
    = Returns (converged, iteration', streams') ->
  (iteration <= iteration' <= iteration + n)%nat
  /\ (converged = false -> iteration' = (iteration + n)%nat).
Proof.
  revert iteration streams. induction n as [|n IH]; intros iteration streams;
    cbn [solver_loop].
  - intros [= <- <- <-]. lia.
  - destruct (iteration_body _ _ _ _) as [s|e]; cbn [bind]; [|discriminate].
    destruct (fst (checkConvergence s flowLines activeComponents tolerance)) eqn:E.
    + intros [= <- <- <-]. split; [lia|discriminate].
    + intros H. apply IH in H as [H1 H2]. split; [lia|].
      intros Hc. rewrite (H2 Hc). lia.
Qed.

(** * Propagation: the loop body, case by case *)

Lemma propagate_at_cases (active : list MineralComponent.t) (i : nat)
    (fls : list FlowLine.t) (c : nat) (f : FlowLine.t) :
  fls !! i = Some f ->
  fst (propagate_at active i (fls, c))
  = case4 i f (case3 active i f (case2 f (case1 f fls))).
Proof.
  intros Hi. unfold propagate_at, case1, case2, case3, case4, is_feed, is_product.
  rewrite Hi.
  destruct (negb (has_id (FlowLine.fromEquipment f)) && has_id (FlowLine.toEquipment f));
  destruct (has_id (FlowLine.fromEquipment f) && negb (has_id (FlowLine.toEquipment f)));
  destruct (no_components f); destruct (Qeq_bool (FlowLine.flowRate f) 0); reflexivity.
Qed.

Lemma propagate_at_out_of_range (active : list MineralComponent.t) (i : nat)
    (st : list FlowLine.t * nat) :
  fst st !! i = None -> propagate_at active i st = st.
Proof.
  destruct st as [fls c]. simpl. intros H. unfold propagate_at. now rewrite H.
Qed.

Lemma overwrite_lookup (t : FlowLine.t -> bool) (cp : FlowLine.t -> FlowLine.t)
    (fls : list FlowLine.t) (j : nat) :
  overwrite t cp fls !! j = (fun fl => if t fl then cp fl else fl) <$> fls !! j.
Proof. unfold overwrite. apply list_lookup_fmap. Qed.

Lemma overwrite_none (t : FlowLine.t -> bool) (cp : FlowLine.t -> FlowLine.t)
    (fls : list FlowLine.t) :
  (forall j x, fls !! j = Some x -> t x = false) -> overwrite t cp fls = fls.
Proof.
  intros H. apply list_eq. intros j. rewrite overwrite_lookup.
  destruct (fls !! j) as [x|] eqn:E; [|reflexivity]. simpl. now rewrite (H j x E).
Qed.

Lemma count_targets_zero (t : FlowLine.t -> bool) (fls : list FlowLine.t) :
  count_targets t fls = 0%nat -> forall j x, fls !! j = Some x -> t x = false.
Proof.
  unfold count_targets. intros H j x Hx.
  destruct (t x) eqn:E; [|reflexivity]. exfalso.
  assert (Hin : x ∈ filter (fun fl => t fl = true) fls).
  { apply list_elem_of_filter. split; [exact E|]. eapply list_elem_of_lookup_2; eauto. }
  apply length_zero_iff_nil in H. rewrite H in Hin. now apply elem_of_nil in Hin.
Qed.

Lemma case1_lookup (f : FlowLine.t) (fls : list FlowLine.t) (j : nat) :
  case1 f fls !! j
  = (fun o => if is_feed f && forward_target f o then copy_forward f o else o) <$> fls !! j.
Proof.
  unfold case1. destruct (is_feed f); simpl.
  - apply overwrite_lookup.
  - now destruct (fls !! j).
Qed.

Lemma case2_lookup (f : FlowLine.t) (fls : list FlowLine.t) (j : nat) :
  case2 f fls !! j
  = (fun o => if is_product f && backward_target f o then copy_backward f o else o) <$> fls !! j.
Proof.
  unfold case2. destruct (is_product f); simpl.
  - apply overwrite_lookup.
  - now destruct (fls !! j).
Qed.

Lemma case3_lookup (active : list MineralComponent.t) (i : nat) (f : FlowLine.t)
    (fls : list FlowLine.t) (j : nat) :
  case3 active i f fls !! j
  = if decide (i = j /\ no_components f = true /\ (j < length fls)%nat)
    then Some (with_defaults active f) else fls !! j.
Proof.
  unfold case3. destruct (no_components f).
  - rewrite list_lookup_insert. repeat case_decide; try reflexivity; intuition lia.
  - case_decide as H; [|reflexivity]. destruct H as (_ & ? & _). discriminate.
Qed.

Lemma case4_lookup (i : nat) (f : FlowLine.t) (fls : list FlowLine.t) (j : nat) :
  case4 i f fls !! j
  = if decide (i = j /\ Qeq_bool (FlowLine.flowRate f) 0 = true /\ (j < length fls)%nat)
    then Some (with_flow (estimated_flow fls f) f) else fls !! j.
Proof.
  unfold case4. destruct (Qeq_bool (FlowLine.flowRate f) 0).
  - rewrite list_lookup_insert. repeat case_decide; try reflexivity; intuition lia.
  - case_decide as H; [|reflexivity]. destruct H as (_ & ? & _). discriminate.
Qed.

Lemma case1_length f fls : length (case1 f fls) = length fls.
Proof. unfold case1, overwrite. destruct (is_feed f); [apply length_fmap|reflexivity]. Qed.

Lemma case2_length f fls : length (case2 f fls) = length fls.
Proof. unfold case2, overwrite. destruct (is_product f); [apply length_fmap|reflexivity]. Qed.

Lemma case3_length active i f fls : length (case3 active i f fls) = length fls.
Proof. unfold case3. destruct (no_components f); [apply length_insert|reflexivity]. Qed.

Lemma case4_length i f fls : length (case4 i f fls) = length fls.
Proof.
  unfold case4. destruct (Qeq_bool (FlowLine.flowRate f) 0); [apply length_insert|reflexivity].
Qed.

Lemma propagate_at_length (active : list MineralComponent.t) (i : nat)
    (fls : list FlowLine.t) (c : nat) :
  length (fst (propagate_at active i (fls, c))) = length fls.
Proof.
  destruct (fls !! i) as [f|] eqn:E.
  - rewrite (propagate_at_cases _ _ _ _ f E).
    now rewrite case4_length, case3_length, case2_length, case1_length.
  - now rewrite propagate_at_out_of_range.
Qed.

(** A boundary stream is never a target of its own copy. *)
Lemma feed_not_own_target (f : FlowLine.t) :
  is_feed f = true -> forward_target f f = false.
Proof.
  unfold is_feed, forward_target, same_id, has_id. intros H.
  apply andb_true_iff in H as [H1 H2].
  rewrite bool_decide_eq_false_2; [reflexivity|].
  intros Heq. rewrite Heq in H1.
  destruct (FlowLine.toEquipment f); [|discriminate].
  rewrite H2 in H1. discriminate.
Qed.

Lemma product_not_own_target (f : FlowLine.t) :
  is_product f = true -> backward_target f f = false.
Proof.
  unfold is_product, backward_target, same_id, has_id. intros H.
  apply andb_true_iff in H as [H1 H2].
  rewrite bool_decide_eq_false_2; [reflexivity|].
  intros Heq. rewrite Heq in H2.
  destruct (FlowLine.fromEquipment f); [|discriminate].
  rewrite H1 in H2. discriminate.
Qed.

(** The element read at the top of the body is still there after the two
    copying cases. *)
Lemma case12_self (f : FlowLine.t) (fls : list FlowLine.t) (i : nat) :
  fls !! i = Some f -> case2 f (case1 f fls) !! i = Some f.
Proof.
  intros Hi. rewrite case2_lookup, case1_lookup, Hi. simpl.
  destruct (is_feed f) eqn:E1; simpl.
  - rewrite (feed_not_own_target f E1).
    destruct (is_product f) eqn:E2; simpl; [|reflexivity].
    now rewrite (product_not_own_target f E2).
  - destruct (is_product f) eqn:E2; simpl; [|reflexivity].
    now rewrite (product_not_own_target f E2).
Qed.

(** * Propagation: what a step does to each element *)

(** Every element after the body is related to the one it replaces, for any
    relation the four writes respect. *)
Lemma propagate_at_pointwise (R : FlowLine.t -> FlowLine.t -> Prop)
    (active : list MineralComponent.t) :
  (forall x, R x x) ->
  (forall f x, R x (copy_forward f x)) ->
  (forall f x, R x (copy_backward f x)) ->
  (forall x, R x (with_defaults active x)) ->
  (forall x est, Qeq_bool (FlowLine.flowRate x) 0 = true -> R x (with_flow est x)) ->
  forall i fls c j x',
    fst (propagate_at active i (fls, c)) !! j = Some x' ->
    exists x, fls !! j = Some x /\ R x x'.
Proof.
  intros Hrefl Hfwd Hbwd Hdef Hflow i fls c j x' H.
  destruct (fls !! i) as [f|] eqn:Hi.
  2:{ rewrite propagate_at_out_of_range in H by exact Hi. simpl in H. eauto. }
  rewrite (propagate_at_cases _ _ _ _ f Hi) in H.
  rewrite case4_lookup in H. case_decide as H4.
  - destruct H4 as (<- & Hz & _). injection H as <-.
    exists f. split; [exact Hi|]. now apply Hflow.
  - rewrite case3_lookup in H. case_decide as H3.
    + destruct H3 as (<- & _ & _). injection H as <-.
      exists f. split; [exact Hi|]. apply Hdef.
    + destruct (decide (i = j)) as [<-|Hne].
      * rewrite (case12_self f fls i Hi) in H. injection H as <-. eauto.
      * rewrite case2_lookup, case1_lookup in H.
        destruct (fls !! j) as [x|] eqn:Hj; [|discriminate]. simpl in H.
        exists x. split; [reflexivity|]. injection H as <-.
        destruct (is_feed f) eqn:E1; destruct (is_product f) eqn:E2; simpl.
        -- unfold is_feed, is_product in *.
           destruct (has_id (FlowLine.fromEquipment f)); simpl in *; discriminate.
        -- destruct (forward_target f x); [apply Hfwd | apply Hrefl].
        -- destruct (backward_target f x); [apply Hbwd | apply Hrefl].
        -- apply Hrefl.
Qed.

Lemma propagate_at_ends (active : list MineralComponent.t) i fls c j x' :
  fst (propagate_at active i (fls, c)) !! j = Some x' ->
  exists x, fls !! j = Some x /\ ends_of x = ends_of x'.
Proof.
  apply (propagate_at_pointwise (fun x y => ends_of x = ends_of y)); reflexivity.
Qed.

Lemma or_else_keeps (x d : Q) : Qeq_bool x 0 = false -> or_else x d = x.
Proof. unfold or_else. now intros ->. Qed.

Lemma propagate_at_nonzero (active : list MineralComponent.t) i fls c j x' :
  fst (propagate_at active i (fls, c)) !! j = Some x' ->
  exists x, fls !! j = Some x /\ (nonzero_flow x -> nonzero_flow x').
Proof.
  apply (propagate_at_pointwise (fun x y => nonzero_flow x -> nonzero_flow y));
    unfold nonzero_flow; simpl; intros; try assumption.
  - now rewrite or_else_keeps.
  - now rewrite or_else_keeps.
  - congruence.
Qed.

Lemma propagate_at_grades (active : list MineralComponent.t) i fls c j x' :
  fst (propagate_at active i (fls, c)) !! j = Some x' ->
  exists x, fls !! j = Some x /\ (nonzero_flow x -> has_grades x -> has_grades x').
Proof.
  apply (propagate_at_pointwise
           (fun x y => nonzero_flow x -> has_grades x -> has_grades y));
    unfold nonzero_flow, has_grades; simpl; intros;
    try assumption; try (eexists; reflexivity); congruence.
Qed.

(** * The estimated flow is never zero *)

Lemma foldl_Qplus_pos (l : list Q) (a : Q) :
  0 <= a -> Forall (fun q => 0 < q) l -> l <> [] -> 0 < foldl Qplus a l.
Proof.
  revert a. induction l as [|q l IH]; intros a Ha Hl Hne; [congruence|].
  apply Forall_cons in Hl as [Hq Hl]. simpl.
  destruct l as [|q' l].
  - simpl. lra.
  - apply IH; [lra | exact Hl | discriminate].
Qed.

Lemma estimated_flow_positive (fls : list FlowLine.t) (f : FlowLine.t) :
  0 < estimated_flow fls f.
Proof.
  unfold estimated_flow. destruct (has_id (FlowLine.fromEquipment f)); [|reflexivity].
  match goal with |- context [filter ?P fls] => set (sib := filter P fls) end.
  assert (Hall : Forall (fun s => 0 < FlowLine.flowRate s) sib).
  { apply Forall_forall. intros s Hs. apply list_elem_of_filter in Hs as [Hs _].
    apply andb_true_iff in Hs as [_ Hs]. now apply Qltb_lt. }
  destruct sib as [|s sib']; [reflexivity|].
  apply foldl_Qplus_pos; [lra | | discriminate].
  apply Forall_fmap. exact Hall.
Qed.

Lemma with_flow_nonzero (fls : list FlowLine.t) (f : FlowLine.t) :
  nonzero_flow (with_flow (estimated_flow fls f) f).
Proof.
  unfold nonzero_flow. simpl. apply Qeq_bool_false.
  pose proof (estimated_flow_positive fls f). lra.
Qed.

(** After the body at index [i], the stream at [i] has a flow rate. *)
Lemma propagate_at_sets_flow (active : list MineralComponent.t) i fls c x' :
  fst (propagate_at active i (fls, c)) !! i = Some x' -> nonzero_flow x'.
Proof.
  intros H. destruct (fls !! i) as [f|] eqn:Hi.
  2:{ rewrite propagate_at_out_of_range in H by exact Hi. simpl in H. congruence. }
  rewrite (propagate_at_cases _ _ _ _ f Hi) in H.
  rewrite case4_lookup in H. case_decide as H4.
  - injection H as <-. apply with_flow_nonzero.
  - assert (Hnz : nonzero_flow f).
    { unfold nonzero_flow. destruct (Qeq_bool (FlowLine.flowRate f) 0) eqn:E; [|reflexivity].
      exfalso. apply H4. split; [reflexivity|]. split; [reflexivity|].
      rewrite case3_length, case2_length, case1_length.
      apply lookup_lt_Some in Hi. exact Hi. }
    rewrite case3_lookup in H. case_decide as H3.
    + injection H as <-. exact Hnz.
    + rewrite (case12_self f fls i Hi) in H. injection H as <-. exact Hnz.
Qed.

(** * A pass as a fold: proof by invariant *)

Lemma propagate_fold_length (active : list MineralComponent.t) (l : list nat)
    (fls : list FlowLine.t) (c : nat) :
  length (fst (foldl (fun st i => propagate_at active i st) (fls, c) l)) = length fls.
Proof.
  revert fls c. induction l as [|i l IH]; intros fls c; [reflexivity|].
  cbn [foldl]. destruct (propagate_at active i (fls, c)) as [fls' c'] eqn:E.
  rewrite IH. change fls' with (fst (fls', c')). rewrite <- E. apply propagate_at_length.
Qed.

Lemma propagate_pass_length (active : list MineralComponent.t) (fls : list FlowLine.t) :
  length (fst (propagate_pass active fls)) = length fls.
Proof. apply propagate_fold_length. Qed.

Lemma propagate_pass_invariant (Inv : nat -> list FlowLine.t -> Prop)
    (active : list MineralComponent.t) (fls : list FlowLine.t) :
  Inv 0%nat fls ->
  (forall i l c, length l = length fls -> (i < length fls)%nat ->
     Inv i l -> Inv (S i) (fst (propagate_at active i (l, c)))) ->
  Inv (length fls) (fst (propagate_pass active fls)).
Proof.
  intros H0 Hstep. unfold propagate_pass.
  assert (G : forall n start l c,
             length l = length fls -> (start + n = length fls)%nat -> Inv start l ->
             Inv (start + n)%nat
                 (fst (foldl (fun st i => propagate_at active i st) (l, c) (seq start n)))).
  { induction n as [|n IH]; intros start l c Hl Hn HI.
    - rewrite Nat.add_0_r. exact HI.
    - cbn [seq foldl].
      destruct (propagate_at active start (l, c)) as [l' c'] eqn:E.
      replace (start + S n)%nat with (S start + n)%nat by lia.
      assert (El : l' = fst (propagate_at active start (l, c))) by now rewrite E.
      apply IH; [| lia |].
      + rewrite El, propagate_at_length. exact Hl.
      + rewrite El. apply Hstep; [exact Hl | lia | exact HI]. }
  apply (G (length fls) 0%nat fls 0%nat); [reflexivity | lia | exact H0].
Qed.

(** * First pass: every flow rate gets set *)

Lemma propagate_at_flows_set (active : list MineralComponent.t) i fls c :
  flows_set fls -> flows_set (fst (propagate_at active i (fls, c))).
Proof.
  intros H j x' Hx'. apply propagate_at_nonzero in Hx' as (x & Hx & Hnz).
  apply Hnz. eapply H. exact Hx.
Qed.

Lemma propagate_pass_flows_kept (active : list MineralComponent.t) (fls : list FlowLine.t) :
  flows_set fls -> flows_set (fst (propagate_pass active fls)).
Proof.
  intros H.
  apply (propagate_pass_invariant (fun _ l => flows_set l) active fls H).
  intros i l c _ _. apply propagate_at_flows_set.
Qed.

Lemma propagate_pass_sets_flows (active : list MineralComponent.t) (fls : list FlowLine.t) :
  flows_set (fst (propagate_pass active fls)).
Proof.
  pose (Inv := fun (k : nat) (l : list FlowLine.t) =>
                 forall j x, (j < k)%nat -> l !! j = Some x -> nonzero_flow x).
  assert (H : Inv (length fls) (fst (propagate_pass active fls))).
  { apply propagate_pass_invariant.
    - intros j x Hj. lia.
    - intros i l c Hl Hi HI j x' Hj Hx'.
      destruct (decide (j = i)) as [->|Hne].
      + eapply propagate_at_sets_flow. exact Hx'.
      + apply propagate_at_nonzero in Hx' as (x & Hx & Hnz).
        apply Hnz. apply (HI j x); [lia | exact Hx]. }
  intros j x Hx. apply (H j x); [|exact Hx].
  apply lookup_lt_Some in Hx. now rewrite propagate_pass_length in Hx.
Qed.

(** * Second pass: the neighbours of the boundary streams get grades *)

Lemma ends_of_eq (x y : FlowLine.t) :
  ends_of x = ends_of y ->
  FlowLine.fromEquipment x = FlowLine.fromEquipment y
  /\ FlowLine.toEquipment x = FlowLine.toEquipment y
  /\ is_feed x = is_feed y /\ is_product x = is_product y.
Proof.
  unfold ends_of, is_feed, is_product. intros [= _ -> ->]. auto.
Qed.

(** What the body at [i] guarantees around the stream it read there. *)
Lemma propagate_at_grades_around (active : list MineralComponent.t) i fls c f j o' :
  flows_set fls ->
  fls !! i = Some f ->
  fst (propagate_at active i (fls, c)) !! j = Some o' ->
  (is_feed f = true -> FlowLine.fromEquipment o' = FlowLine.toEquipment f -> has_grades o')
  /\ (is_product f = true -> FlowLine.toEquipment o' = FlowLine.fromEquipment f -> has_grades o').
Proof.
  intros Hset Hi Ho'.
  assert (Hnzf : Qeq_bool (FlowLine.flowRate f) 0 = false) by (eapply Hset; exact Hi).
  rewrite (propagate_at_cases _ _ _ _ f Hi) in Ho'.
  rewrite case4_lookup in Ho'. rewrite decide_False in Ho' by (rewrite Hnzf; intuition discriminate).
  rewrite case3_lookup in Ho'. case_decide as H3.
  { injection Ho' as <-. split; intros _ _; eexists; reflexivity. }
  rewrite case2_lookup, case1_lookup in Ho'.
  destruct (fls !! j) as [o|] eqn:Hj; [|discriminate]. simpl in Ho'.
  assert (Hnzo : Qeq_bool (FlowLine.flowRate o) 0 = false) by (eapply Hset; exact Hj).
  assert (Hcopy : lacks_data o && needs_copy o = needs_copy o).
  { unfold lacks_data, needs_copy. rewrite Hnzo. simpl.
    destruct (FlowLine.componentGrades o); [|reflexivity]. apply andb_false_r. }
  assert (Hgr : needs_copy o = false -> has_grades o).
  { unfold needs_copy, has_grades. rewrite Hnzo. simpl.
    destruct (FlowLine.componentGrades o); [eauto | discriminate]. }
  split; intros Hf Hends.
  - rewrite Hf in Ho'. simpl in Ho'.
    assert (Hp : is_product f = false).
    { unfold is_feed, is_product in *. destruct (has_id (FlowLine.fromEquipment f)); [discriminate|reflexivity]. }
    rewrite Hp in Ho'. simpl in Ho'.
    destruct (forward_target f o) eqn:Et.
    + injection Ho' as <-. eexists; reflexivity.
    + injection Ho' as <-. apply Hgr.
      unfold forward_target in Et. rewrite <- andb_assoc, Hcopy in Et.
      apply andb_false_iff in Et as [Et|Et]; [|exact Et].
      unfold same_id in Et. apply bool_decide_eq_false in Et. contradiction.
  - rewrite Hf in Ho'.
    assert (Hp : is_feed f = false).
    { unfold is_feed, is_product in *. destruct (has_id (FlowLine.fromEquipment f)); [reflexivity|discriminate]. }
    rewrite Hp in Ho'. simpl in Ho'.
    destruct (backward_target f o) eqn:Et.
    + injection Ho' as <-. eexists; reflexivity.
    + injection Ho' as <-. apply Hgr.
      unfold backward_target in Et. rewrite <- andb_assoc, Hcopy in Et.
      apply andb_false_iff in Et as [Et|Et]; [|exact Et].
      unfold same_id in Et. apply bool_decide_eq_false in Et. contradiction.
Qed.

(** The guarantee, once obtained around the stream at [i], survives the
    later steps. *)
Lemma propagate_at_keeps_graded (active : list MineralComponent.t) i fls c
    (i0 j : nat) (f' o' : FlowLine.t) :
  flows_set fls ->
  (forall f o, fls !! i0 = Some f -> fls !! j = Some o ->
     (is_feed f = true -> FlowLine.fromEquipment o = FlowLine.toEquipment f -> has_grades o)
     /\ (is_product f = true -> FlowLine.toEquipment o = FlowLine.fromEquipment f -> has_grades o)) ->
  fst (propagate_at active i (fls, c)) !! i0 = Some f' ->
  fst (propagate_at active i (fls, c)) !! j = Some o' ->
  (is_feed f' = true -> FlowLine.fromEquipment o' = FlowLine.toEquipment f' -> has_grades o')
  /\ (is_product f' = true -> FlowLine.toEquipment o' = FlowLine.fromEquipment f' -> has_grades o').
Proof.
  intros Hset H Hf' Ho'.
  apply propagate_at_ends in Hf' as (f & Hf & Ef).
  pose proof Ho' as Ho''.
  apply propagate_at_ends in Ho' as (o & Ho & Eo).
  apply propagate_at_grades in Ho'' as (o2 & Ho2 & Hg).
  rewrite Ho in Ho2. injection Ho2 as <-.
  apply ends_of_eq in Ef as (Ef1 & Ef2 & Ef3 & Ef4).
  apply ends_of_eq in Eo as (Eo1 & Eo2 & _ & _).
  destruct (H f o Hf Ho) as [Ha Hb].
  rewrite <- Ef3, <- Ef4, <- Ef1, <- Ef2, <- Eo1, <- Eo2.
  split; intros; apply Hg; auto; eapply Hset; exact Ho.
Qed.

Lemma propagate_pass_grades_neighbours (active : list MineralComponent.t)
    (fls : list FlowLine.t) :
  flows_set fls -> neighbours_graded (fst (propagate_pass active fls)).
Proof.
  intros Hset.
  pose (Inv := fun (k : nat) (l : list FlowLine.t) =>
    flows_set l /\
    forall i f j o, (i < k)%nat -> l !! i = Some f -> l !! j = Some o ->
      (is_feed f = true -> FlowLine.fromEquipment o = FlowLine.toEquipment f -> has_grades o)
      /\ (is_product f = true -> FlowLine.toEquipment o = FlowLine.fromEquipment f -> has_grades o)).
  assert (H : Inv (length fls) (fst (propagate_pass active fls))).
  { apply propagate_pass_invariant.
    - split; [exact Hset|]. intros; lia.
    - intros i l c Hl Hi [HS HI]. split; [now apply propagate_at_flows_set|].
      intros i0 f' j o' Hi0 Hf' Ho'.
      destruct (decide (i0 = i)) as [->|Hne].
      + destruct (l !! i) as [f|] eqn:Hli.
        2:{ apply lookup_ge_None in Hli. lia. }
        pose proof Hf' as Hf''.
        apply propagate_at_ends in Hf'' as (f0 & Hf0 & Ef).
        rewrite Hli in Hf0. injection Hf0 as <-.
        apply ends_of_eq in Ef as (Ef1 & Ef2 & Ef3 & Ef4).
        rewrite <- Ef3, <- Ef4, <- Ef1, <- Ef2.
        eapply propagate_at_grades_around; eauto.
      + eapply propagate_at_keeps_graded; eauto.
        intros f o Hf Ho. apply (HI i0 f j o); [lia | exact Hf | exact Ho]. }
  destruct H as [_ H]. intros i f j o Hf Ho. apply (H i f j o); [|exact Hf|exact Ho].
  apply lookup_lt_Some in Hf. now rewrite propagate_pass_length in Hf.
Qed.

Lemma propagate_at_neighbours_kept (active : list MineralComponent.t) i fls c :
  flows_set fls -> neighbours_graded fls ->
  neighbours_graded (fst (propagate_at active i (fls, c))).
Proof.
  intros Hset Hg i0 f' j o' Hf' Ho'.
  eapply propagate_at_keeps_graded; eauto.
Qed.

(** * Third pass: only the defaults are left to write *)

Lemma no_forward_targets (f : FlowLine.t) (fls : list FlowLine.t) (i : nat) :
  flows_set fls -> neighbours_graded fls -> fls !! i = Some f -> is_feed f = true ->
  forall j x, fls !! j = Some x -> forward_target f x = false.
Proof.
  intros Hset Hg Hi Hf j x Hx.
  destruct (forward_target f x) eqn:Et; [|reflexivity]. exfalso.
  unfold forward_target in Et.
  apply andb_true_iff in Et as [Et Hn]. apply andb_true_iff in Et as [Hs _].
  unfold same_id in Hs. apply bool_decide_eq_true in Hs.
  destruct (Hg i f j x Hi Hx) as [Ha _]. specialize (Ha Hf Hs).
  unfold needs_copy in Hn. rewrite (Hset j x Hx) in Hn. simpl in Hn.
  destruct Ha as [g Hgr]. rewrite Hgr in Hn. discriminate.
Qed.

Lemma no_backward_targets (f : FlowLine.t) (fls : list FlowLine.t) (i : nat) :
  flows_set fls -> neighbours_graded fls -> fls !! i = Some f -> is_product f = true ->
  forall j x, fls !! j = Some x -> backward_target f x = false.
Proof.
  intros Hset Hg Hi Hf j x Hx.
  destruct (backward_target f x) eqn:Et; [|reflexivity]. exfalso.
  unfold backward_target in Et.
  apply andb_true_iff in Et as [Et Hn]. apply andb_true_iff in Et as [Hs _].
  unfold same_id in Hs. apply bool_decide_eq_true in Hs.
  destruct (Hg i f j x Hi Hx) as [_ Hb]. specialize (Hb Hf Hs).
  unfold needs_copy in Hn. rewrite (Hset j x Hx) in Hn. simpl in Hn.
  destruct Hb as [g Hgr]. rewrite Hgr in Hn. discriminate.
Qed.

(** With the flows set and the neighbours graded, the body only writes the
    defaults. *)
Lemma propagate_at_quiet (active : list MineralComponent.t) i fls c f :
  flows_set fls -> neighbours_graded fls -> fls !! i = Some f ->
  fst (propagate_at active i (fls, c)) = case3 active i f fls.
Proof.
  intros Hset Hg Hi. rewrite (propagate_at_cases _ _ _ _ f Hi).
  assert (H1 : case1 f fls = fls).
  { unfold case1. destruct (is_feed f) eqn:Ef; [|reflexivity].
    apply overwrite_none. eapply no_forward_targets; eauto. }
  assert (H2 : case2 f fls = fls).
  { unfold case2. destruct (is_product f) eqn:Ef; [|reflexivity].
    apply overwrite_none. eapply no_backward_targets; eauto. }
  rewrite H1, H2. unfold case4. now rewrite (Hset i f Hi).
Qed.

Lemma with_defaults_settled (active : list MineralComponent.t) (f : FlowLine.t) :
  defaults_settled active (with_defaults active f).
Proof. intros _. reflexivity. Qed.

Lemma propagate_pass_settles_defaults (active : list MineralComponent.t)
    (fls : list FlowLine.t) :
  flows_set fls -> neighbours_graded fls ->
  forall j x, fst (propagate_pass active fls) !! j = Some x -> defaults_settled active x.
Proof.
  intros Hset Hg.
  pose (Inv := fun (k : nat) (l : list FlowLine.t) =>
    flows_set l /\ neighbours_graded l /\
    forall j x, (j < k)%nat -> l !! j = Some x -> defaults_settled active x).
  assert (H : Inv (length fls) (fst (propagate_pass active fls))).
  { apply propagate_pass_invariant.
    - split; [exact Hset|]. split; [exact Hg|]. intros j x Hj. lia.
    - intros i l c Hl Hi (HS & HG & HD).
      split; [now apply propagate_at_flows_set|].
      split; [now apply propagate_at_neighbours_kept|].
      intros j x Hj Hx.
      destruct (l !! i) as [f|] eqn:Hli.
      2:{ apply lookup_ge_None in Hli. lia. }
      rewrite (propagate_at_quiet active i l c f HS HG Hli) in Hx.
      rewrite case3_lookup in Hx. case_decide as H3.
      + injection Hx as <-. apply with_defaults_settled.
      + destruct (decide (j = i)) as [->|Hne].
        * rewrite Hli in Hx. injection Hx as <-.
          intros Hn. exfalso. apply H3. repeat split; [exact Hn | lia].
        * apply (HD j x); [lia | exact Hx]. }
  destruct H as (_ & _ & H). intros j x Hx. apply (H j x); [|exact Hx].
  apply lookup_lt_Some in Hx. now rewrite propagate_pass_length in Hx.
Qed.

Lemma propagate_pass_neighbours_kept (active : list MineralComponent.t)
    (fls : list FlowLine.t) :
  flows_set fls -> neighbours_graded fls ->
  neighbours_graded (fst (propagate_pass active fls)).
Proof.
  intros Hset Hg.
  apply (propagate_pass_invariant (fun _ l => flows_set l /\ neighbours_graded l) active fls).
  - now split.
  - intros i l c _ _ [HS HG]. split.
    + now apply propagate_at_flows_set.
    + now apply propagate_at_neighbours_kept.
Qed.

(** * Fourth pass: nothing is left to write *)

Lemma propagate_pass_fixed (active : list MineralComponent.t) (fls : list FlowLine.t) :
  flows_set fls -> neighbours_graded fls ->
  (forall j x, fls !! j = Some x -> defaults_settled active x) ->
  settled active fls.
Proof.
  intros Hset Hg Hd. unfold settled.
  apply (propagate_pass_invariant (fun _ l => l = fls) active fls); [reflexivity|].
  intros i l c _ Hi ->.
  destruct (fls !! i) as [f|] eqn:Hli.
  2:{ apply lookup_ge_None in Hli. lia. }
  rewrite (propagate_at_quiet active i fls c f Hset Hg Hli).
  unfold case3. destruct (no_components f) eqn:En; [|reflexivity].
  rewrite (Hd i f Hli En). now apply list_insert_id.
Qed.

(** Three passes reach a fixed point of the pass, whatever the input. *)
Lemma three_passes_settle (active : list MineralComponent.t) (fls : list FlowLine.t) :
  settled active (propagate_passes 3 active fls).
Proof.
  unfold propagate_passes. cbn [Nat.iter].
  set (p1 := fst (propagate_pass active fls)).
  set (p2 := fst (propagate_pass active p1)).
  assert (H1 : flows_set p1) by apply propagate_pass_sets_flows.
  assert (H2 : flows_set p2) by now apply propagate_pass_flows_kept.
  assert (G2 : neighbours_graded p2) by now apply propagate_pass_grades_neighbours.
  apply propagate_pass_fixed.
  - now apply propagate_pass_flows_kept.
  - now apply propagate_pass_neighbours_kept.
  - now apply propagate_pass_settles_defaults.
Qed.

Lemma settled_passes (active : list MineralComponent.t) (fls : list FlowLine.t) (n : nat) :
  settled active fls -> propagate_passes n active fls = fls.
Proof.
  intros H. induction n as [|n IH]; [reflexivity|].
  change (propagate_passes (S n) active fls)
    with (fst (propagate_pass active (propagate_passes n active fls))).
  rewrite IH. exact H.
Qed.

Lemma propagate_passes_add (active : list MineralComponent.t) (fls : list FlowLine.t)
    (n m : nat) :
  propagate_passes (n + m) active fls
  = propagate_passes n active (propagate_passes m active fls).
Proof. unfold propagate_passes. apply Nat.iter_add. Qed.

Lemma passes_settle (active : list MineralComponent.t) (fls : list FlowLine.t) (n : nat) :
  (3 <= n)%nat -> settled active (propagate_passes n active fls).
Proof.
  intros Hn. replace n with ((n - 3) + 3)%nat by lia.
  rewrite propagate_passes_add.
  rewrite settled_passes; apply three_passes_settle.
Qed.

(** * The outer loop *)

Lemma propagate_at_changes (active : list MineralComponent.t) i fls c :
  (c <= snd (propagate_at active i (fls, c)))%nat
  /\ (snd (propagate_at active i (fls, c)) = c -> fst (propagate_at active i (fls, c)) = fls).
Proof.
  unfold propagate_at. destruct (fls !! i) as [f|]; [|simpl; auto].
  destruct (negb (has_id (FlowLine.fromEquipment f)) && has_id (FlowLine.toEquipment f));
  destruct (has_id (FlowLine.fromEquipment f) && negb (has_id (FlowLine.toEquipment f)));
  destruct (no_components f); destruct (Qeq_bool (FlowLine.flowRate f) 0); simpl;
    (split; [lia|]); intros H; try lia; try reflexivity.
  - assert (H1 : count_targets (forward_target f) fls = 0%nat) by lia.
    assert (E1 : overwrite (forward_target f) (copy_forward f) fls = fls).
    { apply overwrite_none. now apply count_targets_zero. }
    rewrite E1 in *.
    assert (H2 : count_targets (backward_target f) fls = 0%nat) by lia.
    apply overwrite_none. now apply count_targets_zero.
  - assert (H1 : count_targets (forward_target f) fls = 0%nat) by lia.
    apply overwrite_none. now apply count_targets_zero.
  - assert (H2 : count_targets (backward_target f) fls = 0%nat) by lia.
    apply overwrite_none. now apply count_targets_zero.
Qed.

Lemma propagate_fold_changes (active : list MineralComponent.t) (l : list nat)
    (fls : list FlowLine.t) (c : nat) :
  let st := foldl (fun st i => propagate_at active i st) (fls, c) l in
  (c <= snd st)%nat /\ (snd st = c -> fst st = fls).
Proof.
  revert fls c. induction l as [|i l IH]; intros fls c; cbn [foldl]; [simpl; auto|].
  pose proof (propagate_at_changes active i fls c) as [H1 H2].
  destruct (propagate_at active i (fls, c)) as [fls' c'] eqn:E. simpl in H1, H2.
  specialize (IH fls' c'). cbv zeta in IH. destruct IH as [H3 H4].
  split; [lia|]. intros H.
  assert (c' = c) by lia. subst c'. rewrite (H4 H). now apply H2.
Qed.

(** A pass that counts no change returns its argument. *)
Lemma propagate_pass_no_change (active : list MineralComponent.t) (fls : list FlowLine.t) :
  snd (propagate_pass active fls) = 0%nat -> fst (propagate_pass active fls) = fls.
Proof. apply (propagate_fold_changes active (seq 0 (length fls)) fls 0%nat). Qed.

Lemma propagate_loop_settled (active : list MineralComponent.t) (fls : list FlowLine.t)
    (n : nat) :
  settled active fls -> propagate_loop n active fls = fls.
Proof.
  intros H. induction n as [|n IH]; [reflexivity|].
  cbn [propagate_loop]. unfold settled in H.
  destruct (propagate_pass active fls) as [fls' c]. simpl in H. subst fls'.
  destruct (Nat.eqb c 0); [reflexivity | exact IH].
Qed.

(** The loop stops on a fixed point of the pass, or has run all its
    passes. *)
Lemma propagate_loop_result (active : list MineralComponent.t) (n : nat)
    (fls : list FlowLine.t) :
  settled active (propagate_loop n active fls)
  \/ propagate_loop n active fls = propagate_passes n active fls.
Proof.
  revert fls. induction n as [|n IH]; intros fls; [right; reflexivity|].
  cbn [propagate_loop].
  destruct (propagate_pass active fls) as [fls' c] eqn:E.
  destruct (Nat.eqb c 0) eqn:Ec.
  - left. apply Nat.eqb_eq in Ec. subst c.
    assert (fls' = fls).
    { pose proof (propagate_pass_no_change active fls) as H. rewrite E in H. now apply H. }
    subst fls'. unfold settled. now rewrite E.
  - destruct (IH fls') as [H|H]; [left; exact H|]. right.
    rewrite H. unfold propagate_passes.
    rewrite Nat.iter_succ_r. now rewrite E.
Qed.

Lemma propagate_loop_settles (active : list MineralComponent.t) (n : nat)
    (fls : list FlowLine.t) :
  (3 <= n)%nat -> settled active (propagate_loop n active fls).
Proof.
  intros Hn. destruct (propagate_loop_result active n fls) as [H|H]; [exact H|].
  rewrite H. now apply passes_settle.
Qed.

(** C4. Propagation is idempotent: run on its own output, it returns that
    output unchanged. *)
Theorem propagateStreamData_idempotent (flowLines : list FlowLine.t)
    (mineralComponents : list MineralComponent.t) :
  propagateStreamData (propagateStreamData flowLines mineralComponents) mineralComponents
  = propagateStreamData flowLines mineralComponents.
Proof.
  unfold propagateStreamData.
  apply propagate_loop_settled, propagate_loop_settles. lia.
Qed.

(** * Propagation keeps the topology *)

Lemma propagate_at_ends_list (active : list MineralComponent.t) i fls c :
  ends_of <$> fst (propagate_at active i (fls, c)) = ends_of <$> fls.
Proof.
  apply list_eq. intros j. rewrite !list_lookup_fmap.
  destruct (fst (propagate_at active i (fls, c)) !! j) as [x'|] eqn:E.
  - apply propagate_at_ends in E as (x & -> & Hx). simpl. now rewrite Hx.
  - apply lookup_ge_None in E. rewrite propagate_at_length in E.
    apply lookup_ge_None in E. now rewrite E.
Qed.

Lemma propagate_pass_ends (active : list MineralComponent.t) (fls : list FlowLine.t) :
  ends_of <$> fst (propagate_pass active fls) = ends_of <$> fls.
Proof.
  apply (propagate_pass_invariant (fun _ l => ends_of <$> l = ends_of <$> fls));
    [reflexivity|].
  intros i l c _ _ <-. apply propagate_at_ends_list.
Qed.

Lemma propagate_loop_ends (active : list MineralComponent.t) (n : nat)
    (fls : list FlowLine.t) :
  ends_of <$> propagate_loop n active fls = ends_of <$> fls.
Proof.
  revert fls. induction n as [|n IH]; intros fls; [reflexivity|].
  cbn [propagate_loop].
  pose proof (propagate_pass_ends active fls) as H.
  destruct (propagate_pass active fls) as [fls' c]. simpl in H.
  destruct (Nat.eqb c 0); [exact H|]. now rewrite IH.
Qed.

Lemma propagateStreamData_ends (flowLines : list FlowLine.t)
    (mineralComponents : list MineralComponent.t) :
  ends_of <$> propagateStreamData flowLines mineralComponents = ends_of <$> flowLines.
Proof. apply propagate_loop_ends. Qed.

Lemma indices_where_ends (q : string * option string * option string -> bool)
    (fls fls' : list FlowLine.t) :
  ends_of <$> fls = ends_of <$> fls' ->
  indices_where (fun fl => q (ends_of fl)) fls = indices_where (fun fl => q (ends_of fl)) fls'.
Proof.
  intros H. unfold indices_where.
  assert (Hlen : length fls = length fls').
  { rewrite <- (length_fmap ends_of fls), H. apply length_fmap. }
  rewrite Hlen. apply list_filter_iff. intros idx.
  assert (Hl : ends_of <$> fls !! idx = ends_of <$> fls' !! idx)
    by now rewrite <- !list_lookup_fmap, H.
  destruct (fls !! idx) as [a|], (fls' !! idx) as [b|]; simpl in Hl; try discriminate;
    [|reflexivity].
  assert (He : ends_of a = ends_of b) by congruence. now rewrite He.
Qed.

Lemma inputIndices_ends (fls fls' : list FlowLine.t) :
  ends_of <$> fls = ends_of <$> fls' -> inputIndices fls = inputIndices fls'.
Proof. apply (indices_where_ends (fun e => negb (has_id (snd (fst e))))). Qed.

Lemma outputIndices_ends (fls fls' : list FlowLine.t) :
  ends_of <$> fls = ends_of <$> fls' -> outputIndices fls = outputIndices fls'.
Proof. apply (indices_where_ends (fun e => negb (has_id (snd e)))). Qed.

(** * What a run returns *)

(** A result of the solver is a result of its loop. *)
Lemma solve_inv equipments flowLines mineralComponents maxIterations tolerance sol :
  solveIterativeMassBalance equipments flowLines mineralComponents maxIterations tolerance
    = Returns sol ->
  let activeComponents := active_components mineralComponents in
  let propagated := propagateStreamData flowLines mineralComponents in
  solver_loop maxIterations equipments propagated activeComponents tolerance 0%nat
              ((fun fl => convertToDetailedStream fl activeComponents) <$> propagated)
  = Returns (IterativeResult.converged (Solution.iterativeResult sol),
             IterativeResult.iterations (Solution.iterativeResult sol),
             Solution.streams sol)
  /\ Solution.propagatedFlowLines sol = propagated
  /\ IterativeResult.componentErrors (Solution.iterativeResult sol)
     = calculateComponentErrors (Solution.streams sol) propagated activeComponents
  /\ IterativeResult.maxError (Solution.iterativeResult sol)
     = math_max (values (calculateComponentErrors (Solution.streams sol) propagated
                                                  activeComponents)).
Proof.
  unfold solveIterativeMassBalance. intros H. cbv zeta.
  destruct (solver_loop _ _ _ _ _ _ _) as [[[cv it] strs]|e]; cbn [bind] in H; [|discriminate].
  injection H as <-. simpl. auto.
Qed.

(** C1 (as amended). In a converged result, every active component whose
    input-class mass is positive closes within the tolerance: the error
    [|Σ in − Σ out| / Σ in × 100] of the specification is below it. *)
Theorem converged_closure_below_tolerance
    equipments flowLines mineralComponents maxIterations tolerance sol comp :
  solveIterativeMassBalance equipments flowLines mineralComponents maxIterations tolerance
    = Returns sol ->
  IterativeResult.converged (Solution.iterativeResult sol) = true ->
  comp ∈ active_components mineralComponents ->
  0 < input_mass (Solution.streams sol) flowLines (MineralComponent.id comp) ->
  ltb (closure_error (Solution.streams sol) flowLines (MineralComponent.id comp))
      (Fin tolerance) = true.
Proof.
  intros Hsol Hconv Hcomp Hpos.
  apply solve_inv in Hsol as (Hloop & _). rewrite Hconv in Hloop.
  apply solver_loop_converged in Hloop.
  pose proof (checkConvergence_sound _ _ _ _ comp Hloop Hcomp) as Herr.
  pose proof (propagateStreamData_ends flowLines mineralComponents) as Hends.
  unfold input_mass, output_mass in Herr.
  rewrite (inputIndices_ends _ _ Hends), (outputIndices_ends _ _ Hends) in Herr.
  fold (input_mass (Solution.streams sol) flowLines (MineralComponent.id comp)) in Herr.
  fold (output_mass (Solution.streams sol) flowLines (MineralComponent.id comp)) in Herr.
  unfold closure_error, jsdiv.
  set (tin := input_mass _ _ _) in *. set (tout := output_mass _ _ _) in *.
  assert (Hnz : Qeq_bool tin 0 = false) by (apply Qeq_bool_false; lra).
  rewrite Hnz. simpl. apply Qltb_lt.
  unfold relative_error in Herr.
  assert (Hlt : Qltb 0 tin = true) by now apply Qltb_lt.
  rewrite Hlt in Herr. exact Herr.
Qed.

Import Examples.


Lemma converged_closure_below_tolerance_witness :
  exists sol,
    solveIterativeMassBalance [mill] [feed; empty_product] [fe] defaultMaxIterations
                              defaultTolerance = Returns sol
    /\ IterativeResult.converged (Solution.iterativeResult sol) = true
    /\ 0 < input_mass (Solution.streams sol) [feed; empty_product] (MineralComponent.id fe)
    /\ ltb (closure_error (Solution.streams sol) [feed; empty_product] (MineralComponent.id fe))
           (Fin defaultTolerance) = true.
Proof.
  destruct (solveIterativeMassBalance [mill] [feed; empty_product] [fe] defaultMaxIterations
                                      defaultTolerance) as [sol|e] eqn:E.
  2:{ exfalso. vm_compute in E. discriminate. }
  pose proof E as E'. vm_compute in E'. injection E' as Esol.
  exists sol. split; [reflexivity|].
  assert (Hc : IterativeResult.converged (Solution.iterativeResult sol) = true)
    by (subst sol; reflexivity).
  assert (Hp : 0 < input_mass (Solution.streams sol) [feed; empty_product]
                              (MineralComponent.id fe))
    by (subst sol; vm_compute; reflexivity).
  split; [exact Hc|]. split; [exact Hp|].
  apply (converged_closure_below_tolerance [mill] [feed; empty_product] [fe]
           defaultMaxIterations defaultTolerance sol fe E Hc); [|exact Hp].
  apply list_elem_of_filter. split; [reflexivity | left].
Defined.

(** C1 (as stated) fails on a component the feed does not carry: its
    input-class mass is zero, the run converges, and the unguarded error
    [0 / 0 × 100] is NaN, which is below no tolerance. *)
Lemma closure_invariant_counterexample :
  ~ closure_invariant [mill] [feed; empty_product] [fe; si] defaultMaxIterations
                      defaultTolerance.
Proof.
  intros H.
  destruct (solveIterativeMassBalance [mill] [feed; empty_product] [fe; si] defaultMaxIterations
                                      defaultTolerance) as [sol|e] eqn:E.
  2:{ vm_compute in E. discriminate. }
  pose proof E as E'. vm_compute in E'. injection E' as Esol.
  assert (Hc : IterativeResult.converged (Solution.iterativeResult sol) = true)
    by (subst sol; reflexivity).
  assert (Hin : si ∈ active_components [fe; si]).
  { apply list_elem_of_filter. split; [reflexivity | right; left]. }
  specialize (H sol si E Hc Hin).
  subst sol. vm_compute in H. discriminate.
Qed.

(** * When a run returns *)

Lemma calculateEquipmentBalanceWithClosure_returns (equipment : Equipment.t)
    (inputStreams : list DetailedStream.t) (activeComponents : list MineralComponent.t) :
  well_configured equipment ->
  exists outputStreams,
    calculateEquipmentBalanceWithClosure equipment inputStreams activeComponents
    = Returns outputStreams.
Proof.
  intros Hw. unfold calculateEquipmentBalanceWithClosure.
  destruct inputStreams as [|input rest]; [eauto|].
  destruct (Equipment.type equipment) eqn:Et; eauto.
  unfold mixer_splits.
  destruct (EquipmentParameters.splits (Equipment.parameters equipment)) eqn:Es;
    cbn [bind]; [eauto|].
  rewrite (Hw Et Es). cbn [bind]. eauto.
Qed.

Lemma process_equipment_returns (flowLines : list FlowLine.t)
    (activeComponents : list MineralComponent.t) (streams : list DetailedStream.t)
    (equipment : Equipment.t) :
  well_configured equipment ->
  exists streams',
    process_equipment flowLines activeComponents streams equipment = Returns streams'.
Proof.
  intros Hw. unfold process_equipment.
  destruct (streams_of _ flowLines streams) as [|s l] eqn:E; [eauto|].
  destruct (calculateEquipmentBalanceWithClosure_returns equipment (s :: l)
              activeComponents Hw) as [outs ->].
  cbn [bind]. eauto.
Qed.

Lemma process_equipments_returns (equipments : list Equipment.t)
    (flowLines : list FlowLine.t) (activeComponents : list MineralComponent.t)
    (streams : list DetailedStream.t) :
  Forall well_configured equipments ->
  exists streams',
    process_equipments equipments flowLines activeComponents streams = Returns streams'.
Proof.
  unfold process_equipments. intros Hw. revert streams.
  induction Hw as [|equipment equipments Hw _ IH]; intros streams; cbn [foldl]; [eauto|].
  cbn [bind].
  destruct (process_equipment_returns flowLines activeComponents streams equipment Hw)
    as [streams' ->].
  apply IH.
Qed.

Lemma iteration_body_returns (equipments : list Equipment.t)
    (flowLines : list FlowLine.t) (activeComponents : list MineralComponent.t)
    (streams : list DetailedStream.t) :
  Forall well_configured equipments ->
  exists streams',
    iteration_body equipments flowLines activeComponents streams = Returns streams'.
Proof.
  intros Hw. unfold iteration_body.
  destruct (process_equipments_returns equipments flowLines activeComponents
              (applyMassBalanceClosure streams flowLines activeComponents) Hw) as [s ->].
  cbn [bind]. eauto.
Qed.

Lemma solver_loop_returns (n : nat) equipments flowLines activeComponents tolerance
    (iteration : nat) (streams : list DetailedStream.t) :
  Forall well_configured equipments ->
  exists r,
    solver_loop n equipments flowLines activeComponents tolerance iteration streams
    = Returns r.
Proof.
  intros Hw. revert iteration streams.
  induction n as [|n IH]; intros iteration streams; cbn [solver_loop]; [eauto|].
  destruct (iteration_body_returns equipments flowLines activeComponents streams Hw)
    as [s ->].
  cbn [bind].
  destruct (fst (checkConvergence s flowLines activeComponents tolerance)); [eauto|].
  apply IH.
Qed.

(** With every mixer well configured the solver returns: it runs its loop to
    one of the two terminal states and raises nothing. *)
Lemma solveIterativeMassBalance_returns
    equipments flowLines mineralComponents maxIterations tolerance :
  Forall well_configured equipments ->
  exists sol,
    solveIterativeMassBalance equipments flowLines mineralComponents maxIterations tolerance
    = Returns sol.
Proof.
  intros Hw. unfold solveIterativeMassBalance.
  destruct (solver_loop_returns maxIterations equipments
              (propagateStreamData flowLines mineralComponents)
              (active_components mineralComponents) tolerance 0%nat
              ((fun fl => convertToDetailedStream fl (active_components mineralComponents))
                 <$> propagateStreamData flowLines mineralComponents) Hw)
    as [[[cv it] strs] ->].
  cbn [bind]. eauto.
Qed.

(** The loop runs at most [maxIterations] times; [converged] tells which
    terminal state was reached and is the verdict of the convergence test
    on the streams returned. *)
Lemma solveIterativeMassBalance_terminal
    equipments flowLines mineralComponents maxIterations tolerance sol :
  solveIterativeMassBalance equipments flowLines mineralComponents maxIterations tolerance
    = Returns sol ->
  let result := Solution.iterativeResult sol in
  (IterativeResult.iterations result <= maxIterations)%nat
  /\ (IterativeResult.converged result = false ->
      IterativeResult.iterations result = maxIterations)
  /\ (IterativeResult.converged result = true ->
      fst (checkConvergence (Solution.streams sol) (Solution.propagatedFlowLines sol)
                            (active_components mineralComponents) tolerance) = true).
Proof.
  intros Hsol. apply solve_inv in Hsol as (Hloop & -> & _). cbv zeta.
  pose proof (solver_loop_iterations _ _ _ _ _ _ _ _ _ _ Hloop) as [H1 H2].
  split; [lia|]. split; [exact H2|].
  intros Hc. rewrite Hc in Hloop. eapply solver_loop_converged. exact Hloop.
Qed.

(** * No active component *)

Lemma checkConvergence_no_component (streams : list DetailedStream.t)
    (flowLines : list FlowLine.t) (tolerance : Q) :
  fst (checkConvergence streams flowLines [] tolerance) = Qltb 0 tolerance.
Proof.
  unfold checkConvergence, calculateComponentErrors. rewrite by_component_nil, values_empty.
  reflexivity.
Qed.

(** C9 (as amended). With no active component, at least one iteration
    allowed and a positive tolerance, a run that returns does so after
    exactly one iteration, converged, with no component error and a maximum
    error of minus infinity; and the run returns when every mixer is well
    configured. *)
Theorem no_active_component_converges_at_once
    equipments flowLines mineralComponents maxIterations tolerance :
  active_components mineralComponents = [] ->
  (1 <= maxIterations)%nat ->
  0 < tolerance ->
  (Forall well_configured equipments ->
   exists sol,
     solveIterativeMassBalance equipments flowLines mineralComponents maxIterations tolerance
     = Returns sol)
  /\ forall sol,
       solveIterativeMassBalance equipments flowLines mineralComponents maxIterations tolerance
       = Returns sol ->
       IterativeResult.iterations (Solution.iterativeResult sol) = 1%nat
       /\ IterativeResult.converged (Solution.iterativeResult sol) = true
       /\ IterativeResult.componentErrors (Solution.iterativeResult sol) = ∅
       /\ IterativeResult.maxError (Solution.iterativeResult sol) = NInf.
Proof.
  intros Hact Hmax Htol. split; [apply solveIterativeMassBalance_returns|].
  intros sol Hsol. apply solve_inv in Hsol as (Hloop & _ & Herr & Hmaxerr).
  rewrite Hact in *.
  rewrite Herr in *. unfold calculateComponentErrors in *.
  rewrite by_component_nil in *. rewrite values_empty in Hmaxerr.
  destruct maxIterations as [|n]; [lia|]. cbn [solver_loop] in Hloop.
  destruct (iteration_body _ _ _ _) as [s|e]; cbn [bind] in Hloop; [|discriminate].
  rewrite checkConvergence_no_component in Hloop.
  assert (Hlt : Qltb 0 tolerance = true) by now apply Qltb_lt.
  rewrite Hlt in Hloop. injection Hloop as <- <- _.
  auto.
Qed.

Lemma no_active_component_converges_at_once_witness :
  exists sol,
    solveIterativeMassBalance [mill] [assayed_feed; assayed_product] [inactive_fe]
                              defaultMaxIterations defaultTolerance = Returns sol
    /\ IterativeResult.iterations (Solution.iterativeResult sol) = 1%nat
    /\ IterativeResult.converged (Solution.iterativeResult sol) = true
    /\ IterativeResult.componentErrors (Solution.iterativeResult sol) = ∅
    /\ IterativeResult.maxError (Solution.iterativeResult sol) = NInf.
Proof.
  assert (Hact : active_components [inactive_fe] = []) by reflexivity.
  assert (Hmax : (1 <= defaultMaxIterations)%nat) by (unfold defaultMaxIterations; lia).
  assert (Htol : 0 < defaultTolerance) by reflexivity.
  destruct (no_active_component_converges_at_once [mill] [assayed_feed; assayed_product]
              [inactive_fe] defaultMaxIterations defaultTolerance Hact Hmax Htol)
    as [Hret Hres].
  assert (Hw : Forall well_configured [mill]).
  { constructor; [intros Hm; discriminate Hm | constructor]. }
  destruct (Hret Hw) as [sol Hsol].
  exists sol. split; [exact Hsol|]. apply Hres. exact Hsol.
Defined.

(** C9 (as stated) fails for a tolerance of zero: the maximum of the empty
    error set and 0 is 0, which is not below 0, so the loop runs to the cap
    and reports no convergence. *)
Lemma no_active_component_counterexample :
  exists sol,
    active_components [inactive_fe] = []
    /\ solveIterativeMassBalance [mill] [assayed_feed; assayed_product] [inactive_fe] 3 0
       = Returns sol
    /\ IterativeResult.converged (Solution.iterativeResult sol) = false
    /\ IterativeResult.iterations (Solution.iterativeResult sol) = 3%nat.
Proof.
  destruct (solveIterativeMassBalance [mill] [assayed_feed; assayed_product] [inactive_fe] 3 0)
    as [sol|e] eqn:E.
  2:{ vm_compute in E. discriminate. }
  exists sol. split; [reflexivity|]. split; [reflexivity|].
  vm_compute in E. injection E as <-. split; reflexivity.
Qed.

(** C5. A mixer whose number of outputs is not a valid array length makes
    the solver raise: [Array(2.5)] throws a [RangeError] in the first
    iteration, and no result is returned. *)
Theorem solver_raises_on_odd_mixer :
  solveIterativeMassBalance [odd_mixer] [feed; empty_product] [fe]
                            defaultMaxIterations defaultTolerance
  = Throws (RangeError "Invalid array length").
Proof. vm_compute. reflexivity. Qed.

(** * Flotation *)






(** * The stream invariant *)

(** The conversion builds the solid and water flows as the invariant
    demands. *)
Lemma convertToDetailedStream_consistent (flowLine : FlowLine.t)
    (activeComponents : list MineralComponent.t) :
  flows_consistent (convertToDetailedStream flowLine activeComponents).
Proof. split; reflexivity. Qed.

(** So does the bulk-flow write of the global closure. *)
Lemma with_flow_rate_consistent (flow : Q) (s : DetailedStream.t) :
  flows_consistent (with_flow_rate flow s).
Proof. split; simpl; [reflexivity | ring]. Qed.

(** The bulk-flow write of the first closure keeps the water flow it
    found. *)
Lemma with_bulk_water_flow (flowPerOutput solidsPerOutput : Q) (s : DetailedStream.t) :
  DetailedStream.waterFlow (with_bulk flowPerOutput solidsPerOutput s)
  = DetailedStream.waterFlow s.
Proof. reflexivity. Qed.

(** C6. The invariant does not survive the first closure: on a feed of
    1000 t/h and a product of 500 t/h, both at 70 % solids, the closure
    raises the product to 1000 t/h of flow and 700 t/h of solids and leaves
    its water flow at the 150 t/h of before, and the run returns the stream
    so. *)
Theorem closure_leaves_water_flow_stale :
  exists sol product,
    solveIterativeMassBalance [] [assayed_feed; assayed_product] [fe; si]
                              defaultMaxIterations defaultTolerance = Returns sol
    /\ Solution.streams sol !! 1%nat = Some product
    /\ DetailedStream.flowRate product == 1000
    /\ DetailedStream.solidFlow product == 700
    /\ DetailedStream.waterFlow product == 150
    /\ ~ flows_consistent product.
Proof.
  destruct (solveIterativeMassBalance [] [assayed_feed; assayed_product] [fe; si]
                                      defaultMaxIterations defaultTolerance)
    as [sol|e] eqn:E.
  2:{ vm_compute in E. discriminate. }
  vm_compute in E. injection E as <-.
  eexists. eexists. split; [reflexivity|]. split; [reflexivity|].
  repeat split.
  intros [_ H]. vm_compute in H. discriminate.
Qed.

(** * Grades *)

(** The conversion computes a percentage as the component's mass over the
    flow rate of the stream, solids and water together. *)
Lemma convertToDetailedStream_percentage (flowLine : FlowLine.t)
    (activeComponents : list MineralComponent.t) (comp : MineralComponent.t) :
  comp ∈ activeComponents ->
  0 < FlowLine.flowRate flowLine ->
  let s := convertToDetailedStream flowLine activeComponents in
  exists mass percentage,
    DetailedStream.componentMass s !! MineralComponent.id comp = Some mass
    /\ DetailedStream.componentPercentages s !! MineralComponent.id comp = Some percentage
    /\ percentage == mass / DetailedStream.flowRate s * 100.
Proof.
  intros Hcomp Hpos. cbv zeta.
  set (mass := fun id =>
         FlowLine.flowRate flowLine * (FlowLine.solidPercent flowLine / 100)
         * (get0 (grades_of (FlowLine.componentGrades flowLine)) id / 100)).
  exists (mass (MineralComponent.id comp)),
         (mass (MineralComponent.id comp) / FlowLine.flowRate flowLine * 100).
  split; [now apply (by_component_lookup _ mass)|].
  split; [|reflexivity]. simpl.
  apply Qltb_lt in Hpos. rewrite Hpos.
  now apply (by_component_lookup _ (fun id => mass id / FlowLine.flowRate flowLine * 100)).
Qed.

(** C8. The initial conversion does not put grades on the basis of the
    solids: for a feed of 1000 t/h at 70 % solids assayed at 35 % of [fe],
    the stream has 700 t/h of solids and 245 t/h of [fe], and its percentage
    of [fe] is 24.5, the mass over the whole flow, where the mass over the
    solids is 35. *)
Theorem conversion_grades_on_whole_flow :
  let s := convertToDetailedStream assayed_feed [fe; si] in
  exists percentage,
    0 < DetailedStream.solidFlow s
    /\ DetailedStream.componentPercentages s !! MineralComponent.id fe = Some percentage
    /\ percentage == 24.5
    /\ grade_of_solids (MineralComponent.id fe) s == 35
    /\ ~ percentage == grade_of_solids (MineralComponent.id fe) s.
Proof.
  eexists. split; [reflexivity|]. split; [vm_compute; reflexivity|].
  split; [reflexivity|]. split; [reflexivity|]. intros H. vm_compute in H. discriminate.
Qed.

(** * The stand-alone mixer *)

Lemma mixStreams_returns (streams : list MaterialStream.t) (efficiency : num) :
  streams <> [] -> exists mixed, mixStreams streams efficiency = Returns mixed.
Proof.
  intros H. destruct streams as [|s [|s' l]]; [congruence | |]; eexists; reflexivity.
Qed.

Lemma mixStreams_empty (efficiency : num) :
  mixStreams [] efficiency = Throws (Error "No streams to mix").
Proof. reflexivity. Qed.




(** * Sums *)

Lemma foldl_Qplus_acc (l : list Q) (a : Q) : foldl Qplus a l == a + Qsum l.
Proof.
  unfold Qsum. revert a. induction l as [|x l IH]; intros a; simpl.
  - ring.
  - rewrite (IH (a + x)), (IH (0 + x)). ring.
Qed.

Lemma Qsum_nil : Qsum [] = 0.
Proof. reflexivity. Qed.

Lemma Qsum_cons (x : Q) (l : list Q) : Qsum (x :: l) == x + Qsum l.
Proof. unfold Qsum at 1. simpl. rewrite foldl_Qplus_acc. ring. Qed.

Lemma Qsum_fmap_ext {A : Type} (f g : A -> Q) (l : list A) :
  (forall x, x ∈ l -> f x == g x) -> Qsum (f <$> l) == Qsum (g <$> l).
Proof.
  induction l as [|x l IH]; intros H; [reflexivity|].
  rewrite !fmap_cons, !Qsum_cons. rewrite IH.
  - rewrite (H x); [reflexivity | left].
  - intros y Hy. apply H. now right.
Qed.

Lemma Qsum_fmap_scale {A : Type} (f : A -> Q) (k : Q) (l : list A) :
  Qsum ((fun x => f x * k) <$> l) == Qsum (f <$> l) * k.
Proof.
  induction l as [|x l IH]; [reflexivity|].
  rewrite !fmap_cons, !Qsum_cons, IH. ring.
Qed.

Lemma Qsum_fmap_const {A : Type} (k : Q) (l : list A) :
  Qsum ((fun _ => k) <$> l) == Qnat (length l) * k.
Proof.
  induction l as [|x l IH]; [reflexivity|].
  rewrite fmap_cons, Qsum_cons, IH. unfold Qnat.
  cbn [length]. rewrite Nat2Z.inj_succ. unfold Z.succ. rewrite inject_Z_plus. ring.
Qed.

(** * Normalisation *)

Lemma get0_eq (m : gmap string Q) (k : string) (x : Q) :
  m !! k = Some x -> get0 m k == x.
Proof. unfold get0. intros ->. apply or_else_eq. Qed.

(** After normalisation the percentages either sum to 100, or summed to
    within 0.01 of it already, or did not sum to a positive number. *)
Lemma normalizeStream_total (activeComponents : list MineralComponent.t)
    (stream : DetailedStream.t) :
  let total := totalPercentage activeComponents (normalizeStream activeComponents stream) in
  total <= 0 \/ Qabs (total - 100) <= 0.01.
Proof.
  cbv zeta. unfold normalizeStream.
  set (total := totalPercentage activeComponents stream).
  destruct (Qltb 0 total) eqn:Epos; cbn [andb].
  2:{ left. apply (proj1 (Qltb_ge _ _)). exact Epos. }
  destruct (Qltb 0.01 (Qabs (total - 100))) eqn:Eoff.
  2:{ right. apply (proj1 (Qltb_ge _ _)). exact Eoff. }
  right. apply Qltb_lt in Epos.
  set (normalized := fun id =>
         get0 (DetailedStream.componentPercentages stream) id * (100 / total)).
  assert (Hsum : totalPercentage activeComponents
                   {| DetailedStream.flowRate := DetailedStream.flowRate stream;
                      DetailedStream.solidPercent := DetailedStream.solidPercent stream;
                      DetailedStream.density := DetailedStream.density stream;
                      DetailedStream.particleSize := DetailedStream.particleSize stream;
                      DetailedStream.mineralContent := DetailedStream.mineralContent stream;
                      DetailedStream.volumetricFlow := DetailedStream.volumetricFlow stream;
                      DetailedStream.componentMass :=
                        by_component activeComponents (fun comp =>
                          or_else (DetailedStream.solidFlow stream) 0
                          * (normalized (MineralComponent.id comp) / 100));
                      DetailedStream.componentPercentages :=
                        by_component activeComponents
                          (fun comp => normalized (MineralComponent.id comp));
                      DetailedStream.waterFlow := DetailedStream.waterFlow stream;
                      DetailedStream.solidFlow := DetailedStream.solidFlow stream |}
                 == 100).
  { unfold totalPercentage at 1. cbn [DetailedStream.componentPercentages].
    rewrite (Qsum_fmap_ext _ (fun comp =>
               get0 (DetailedStream.componentPercentages stream) (MineralComponent.id comp)
               * (100 / total))).
    - rewrite Qsum_fmap_scale. fold (totalPercentage activeComponents stream). fold total.
      field. lra.
    - intros comp Hcomp. apply get0_eq.
      now apply (by_component_lookup _ normalized). }
  fold total. unfold normalized in Hsum. rewrite Hsum.
  apply Qabs_Qle_condition. lra.
Qed.

Lemma iteration_body_normalized (equipments : list Equipment.t)
    (flowLines : list FlowLine.t) (activeComponents : list MineralComponent.t)
    (streams streams' : list DetailedStream.t) :
  iteration_body equipments flowLines activeComponents streams = Returns streams' ->
  exists pre, streams' = normalizeStreamCompositions pre activeComponents.
Proof.
  unfold iteration_body.
  destruct (process_equipments _ _ _ _) as [s|e]; cbn [bind]; [|discriminate].
  intros [= <-]. eauto.
Qed.

Lemma solver_loop_normalized (n : nat) equipments flowLines activeComponents tolerance
    (iteration : nat) (streams : list DetailedStream.t) iteration' streams' :
  solver_loop n equipments flowLines activeComponents tolerance iteration streams
    = Returns (true, iteration', streams') ->
  exists pre, streams' = normalizeStreamCompositions pre activeComponents.
Proof.
  revert iteration streams. induction n as [|n IH]; intros iteration streams;
    cbn [solver_loop].
  - discriminate.
  - destruct (iteration_body equipments flowLines activeComponents streams) as [s|e] eqn:Eb;
      cbn [bind]; [|discriminate].
    destruct (fst (checkConvergence s flowLines activeComponents tolerance)) eqn:E.
    + intros [= <- <-]. eapply iteration_body_normalized. exact Eb.
    + apply IH.
Qed.

(** C7 (as amended). In a converged result the percentages of the active
    components of every stream sum to within 0.1 of 100, unless they sum to
    zero or less: normalisation leaves such a stream as it is, whatever its
    solid flow. *)
Theorem converged_compositions_sum
    equipments flowLines mineralComponents maxIterations tolerance sol s :
  solveIterativeMassBalance equipments flowLines mineralComponents maxIterations tolerance
    = Returns sol ->
  IterativeResult.converged (Solution.iterativeResult sol) = true ->
  s ∈ Solution.streams sol ->
  let total := totalPercentage (active_components mineralComponents) s in
  total <= 0 \/ Qabs (total - 100) <= 0.1.
Proof.
  intros Hsol Hconv Hs.
  apply solve_inv in Hsol as (Hloop & _). rewrite Hconv in Hloop.
  apply solver_loop_normalized in Hloop as [pre Hpre].
  rewrite Hpre in Hs. unfold normalizeStreamCompositions in Hs.
  apply list_elem_of_fmap in Hs as (s0 & -> & _).
  destruct (normalizeStream_total (active_components mineralComponents) s0) as [H|H];
    [left; exact H | right].
  eapply Qle_trans; [exact H|]. discriminate.
Qed.

Lemma converged_compositions_sum_witness :
  exists sol s,
    solveIterativeMassBalance [mill] [feed; empty_product] [fe; si] defaultMaxIterations
                              defaultTolerance = Returns sol
    /\ IterativeResult.converged (Solution.iterativeResult sol) = true
    /\ Solution.streams sol !! 0%nat = Some s
    /\ (totalPercentage [fe; si] s <= 0 \/ Qabs (totalPercentage [fe; si] s - 100) <= 0.1).
Proof.
  destruct (solveIterativeMassBalance [mill] [feed; empty_product] [fe; si] defaultMaxIterations
                                      defaultTolerance) as [sol|e] eqn:E.
  2:{ exfalso. vm_compute in E. discriminate. }
  pose proof E as E'. vm_compute in E'. injection E' as Esol.
  assert (Hc : IterativeResult.converged (Solution.iterativeResult sol) = true)
    by (subst sol; reflexivity).
  destruct (Solution.streams sol !! 0%nat) as [s|] eqn:Es.
  2:{ exfalso. subst sol. vm_compute in Es. discriminate. }
  exists sol, s. split; [reflexivity|]. split; [exact Hc|]. split; [exact Es|].
  apply (converged_compositions_sum [mill] [feed; empty_product] [fe; si]
           defaultMaxIterations defaultTolerance sol s E Hc).
  eapply list_elem_of_lookup_2. exact Es.
Defined.

(** C7 (as stated) fails on a circuit that carries none of its one active
    component: the run converges, every stream has 700 t/h of solids, and
    its percentages sum to 0. *)
Lemma compositions_normalized_counterexample :
  ~ compositions_normalized [mill] [barren_feed; barren_product] [fe] defaultMaxIterations
                            defaultTolerance.
Proof.
  intros H.
  destruct (solveIterativeMassBalance [mill] [barren_feed; barren_product] [fe]
                                      defaultMaxIterations defaultTolerance)
    as [sol|e] eqn:E.
  2:{ vm_compute in E. discriminate. }
  pose proof E as E'. vm_compute in E'. injection E' as Esol.
  assert (Hc : IterativeResult.converged (Solution.iterativeResult sol) = true)
    by (subst sol; reflexivity).
  destruct (Solution.streams sol !! 0%nat) as [s|] eqn:Es.
  2:{ subst sol. vm_compute in Es. discriminate. }
  assert (Hin : s ∈ Solution.streams sol) by (eapply list_elem_of_lookup_2; exact Es).
  specialize (H sol s E Hc Hin).
  subst sol. vm_compute in Es. injection Es as <-.
  destruct H as [H|[H _]]; vm_compute in H.
  - apply H. reflexivity.
  - discriminate H.
Qed.

(** * Writes at a list of indices *)

Lemma update_at_length (f : DetailedStream.t -> DetailedStream.t) (indices : list nat)
    (streams : list DetailedStream.t) :
  length (update_at f indices streams) = length streams.
Proof.
  unfold update_at. revert streams.
  induction indices as [|i l IH]; intros streams; [reflexivity|].
  cbn [foldl]. rewrite IH. apply length_alter.
Qed.

Lemma update_at_lookup (f : DetailedStream.t -> DetailedStream.t) (indices : list nat)
    (streams : list DetailedStream.t) (j : nat) :
  NoDup indices ->
  update_at f indices streams !! j
  = if decide (j ∈ indices) then f <$> streams !! j else streams !! j.
Proof.
  unfold update_at. intros Hnd. revert streams.
  induction Hnd as [|i l Hi Hnd IH]; intros streams.
  - reflexivity.
  - cbn [foldl]. rewrite IH.
    case_decide as H1; case_decide as H2.
    + rewrite list_lookup_alter_ne; [reflexivity|]. intros ->. contradiction.
    + exfalso. apply H2. now right.
    + apply elem_of_cons in H2 as [->|H2]; [|contradiction].
      apply list_lookup_alter_eq.
    + rewrite list_lookup_alter_ne; [reflexivity|]. intros ->. apply H2. now left.
Qed.

(** A write that keeps a view of every stream keeps the view of the
    array. *)
Lemma update_at_view {A : Type} (view : DetailedStream.t -> A)
    (f : DetailedStream.t -> DetailedStream.t) (indices : list nat)
    (streams : list DetailedStream.t) :
  (forall s, view (f s) = view s) ->
  view <$> update_at f indices streams = view <$> streams.
Proof.
  intros Hf. unfold update_at. revert streams.
  induction indices as [|i l IH]; intros streams; [reflexivity|].
  cbn [foldl]. rewrite IH. apply list_eq. intros j.
  rewrite !list_lookup_fmap, list_lookup_alter.
  case_decide; [|reflexivity]. subst.
  destruct (streams !! j); simpl; [now rewrite Hf | reflexivity].
Qed.

(** * Totals over the boundary *)

Lemma total_over_view (q : DetailedStream.t -> Q) (streams streams' : list DetailedStream.t)
    (indices : list nat) :
  q <$> streams = q <$> streams' ->
  total_over q streams indices = total_over q streams' indices.
Proof.
  intros H. unfold total_over. f_equal. apply list_fmap_ext. intros _ idx _.
  assert (Hl : q <$> streams !! idx = q <$> streams' !! idx)
    by now rewrite <- !list_lookup_fmap, H.
  destruct (streams !! idx), (streams' !! idx); simpl in Hl; try discriminate;
    [|reflexivity].
  now injection Hl as ->.
Qed.

Lemma indices_where_NoDup (p : FlowLine.t -> bool) (flowLines : list FlowLine.t) :
  NoDup (indices_where p flowLines).
Proof. unfold indices_where. apply NoDup_filter, NoDup_seq. Qed.

Lemma indices_where_lt (p : FlowLine.t -> bool) (flowLines : list FlowLine.t) (idx : nat) :
  idx ∈ indices_where p flowLines -> (idx < length flowLines)%nat.
Proof.
  unfold indices_where. intros H. apply list_elem_of_filter in H as [_ H].
  apply elem_of_seq in H. lia.
Qed.

Lemma present_all (streams : list DetailedStream.t) (indices : list nat) :
  (forall idx, idx ∈ indices -> (idx < length streams)%nat) ->
  present streams indices = indices.
Proof.
  intros H. unfold present. induction indices as [|i l IH]; [reflexivity|].
  rewrite filter_cons. rewrite decide_True.
  - f_equal. apply IH. intros idx Hidx. apply H. now right.
  - apply lookup_lt_is_Some. apply H. now left.
Qed.

Lemma total_over_nil (q : DetailedStream.t -> Q) (streams : list DetailedStream.t) :
  total_over q streams [] = 0.
Proof. reflexivity. Qed.

(** The total after a write at every index of the sum. *)
Lemma total_over_update (q : DetailedStream.t -> Q) (f : DetailedStream.t -> DetailedStream.t)
    (g : Q -> Q) (streams : list DetailedStream.t) (indices : list nat) :
  NoDup indices ->
  (forall s, q (f s) == g (or_else (q s) 0)) ->
  g 0 == 0 ->
  total_over q (update_at f indices streams) indices
  == Qsum ((fun idx => g (match streams !! idx with
                          | Some s => or_else (q s) 0
                          | None => 0
                          end)) <$> indices).
Proof.
  intros Hnd Hf Hg. unfold total_over. apply Qsum_fmap_ext. intros idx Hidx.
  rewrite update_at_lookup by exact Hnd. rewrite decide_True by exact Hidx.
  destruct (streams !! idx) as [s|]; simpl.
  - rewrite or_else_eq. apply Hf.
  - symmetry. exact Hg.
Qed.

Lemma total_over_update_const (q : DetailedStream.t -> Q)
    (f : DetailedStream.t -> DetailedStream.t) (m : Q)
    (streams : list DetailedStream.t) (indices : list nat) :
  NoDup indices ->
  (forall idx, idx ∈ indices -> (idx < length streams)%nat) ->
  (forall s, q (f s) == m) ->
  total_over q (update_at f indices streams) indices == Qnat (length indices) * m.
Proof.
  intros Hnd Hlt Hf. unfold total_over.
  rewrite <- Qsum_fmap_const. apply Qsum_fmap_ext. intros idx Hidx.
  rewrite update_at_lookup by exact Hnd. rewrite decide_True by exact Hidx.
  destruct (streams !! idx) as [s|] eqn:E; simpl.
  - rewrite or_else_eq. apply Hf.
  - apply lookup_ge_None in E. specialize (Hlt idx Hidx). lia.
Qed.

(** * The component masses under the writes of the closures *)

Lemma mass_of_set_mass_same (id : string) (m : Q) (s : DetailedStream.t) :
  mass_of id (set_mass id m s) == m.
Proof.
  unfold mass_of, set_mass; simpl. apply get0_eq. apply lookup_insert_eq.
Qed.

Lemma mass_of_set_mass_other (id id' : string) (m : Q) (s : DetailedStream.t) :
  id' <> id -> mass_of id (set_mass id' m s) = mass_of id s.
Proof.
  intros H. unfold mass_of, set_mass, get0; simpl. now rewrite lookup_insert_ne.
Qed.

Lemma mass_of_scale_mass_same (id : string) (k : Q) (s : DetailedStream.t) :
  mass_of id (scale_mass id k s) == mass_of id s * k.
Proof. unfold scale_mass. apply mass_of_set_mass_same. Qed.

Lemma mass_of_scale_mass_other (id id' : string) (k : Q) (s : DetailedStream.t) :
  id' <> id -> mass_of id (scale_mass id' k s) = mass_of id s.
Proof. unfold scale_mass. apply mass_of_set_mass_other. Qed.

Lemma close_component_other (id : string) (inputs outputs : list nat)
    (streams : list DetailedStream.t) (comp : MineralComponent.t) :
  MineralComponent.id comp <> id ->
  mass_of id <$> close_component inputs outputs streams comp = mass_of id <$> streams.
Proof.
  intros Hne. unfold close_component.
  case_tests;
    rewrite ?update_at_view; try reflexivity; intros s;
    (apply mass_of_set_mass_other || apply mass_of_scale_mass_other); exact Hne.
Qed.

Lemma global_component_other (id : string) (inputs outputs : list nat)
    (streams : list DetailedStream.t) (comp : MineralComponent.t) :
  MineralComponent.id comp <> id ->
  mass_of id <$> global_component inputs outputs streams comp = mass_of id <$> streams.
Proof.
  intros Hne. unfold global_component.
  case_tests;
    rewrite ?update_at_view; try reflexivity; intros s;
    apply mass_of_set_mass_other; exact Hne.
Qed.

(** In a loop over components with distinct ids, the masses of one
    component are touched by its own round only. *)
Lemma component_loop_view (id : string)
    (step : list DetailedStream.t -> MineralComponent.t -> list DetailedStream.t)
    (activeComponents : list MineralComponent.t) (comp : MineralComponent.t)
    (streams : list DetailedStream.t) :
  (forall strs c, MineralComponent.id c <> id -> mass_of id <$> step strs c = mass_of id <$> strs) ->
  NoDup (MineralComponent.id <$> activeComponents) ->
  comp ∈ activeComponents ->
  MineralComponent.id comp = id ->
  exists pre,
    mass_of id <$> pre = mass_of id <$> streams
    /\ length pre = length streams
    /\ mass_of id <$> foldl step streams activeComponents = mass_of id <$> step pre comp.
Proof.
  intros Hother Hnd Hin Hid.
  assert (Hrest : forall l strs,
             (forall c, c ∈ l -> MineralComponent.id c <> id) ->
             mass_of id <$> foldl step strs l = mass_of id <$> strs).
  { induction l as [|c l IH]; intros strs Hl; [reflexivity|].
    cbn [foldl]. rewrite IH.
    - apply Hother. apply Hl. now left.
    - intros c' Hc'. apply Hl. now right. }
  revert streams. induction activeComponents as [|c l IH]; intros streams.
  - now apply elem_of_nil in Hin.
  - rewrite fmap_cons in Hnd. apply NoDup_cons in Hnd as [Hc Hnd].
    apply elem_of_cons in Hin as [->|Hin].
    + exists streams. split; [reflexivity|]. split; [reflexivity|].
      cbn [foldl]. apply Hrest. intros c' Hc' Heq. apply Hc.
      rewrite Hid, <- Heq. now apply list_elem_of_fmap_2.
    + assert (Hne : MineralComponent.id c <> id).
      { intros Heq. apply Hc. rewrite Heq, <- Hid. now apply list_elem_of_fmap_2. }
      destruct (IH Hnd Hin (step streams c)) as (pre & Hpre & Hlen & Hfin).
      exists pre. split; [rewrite Hpre; now apply Hother|].
      split; [|exact Hfin].
      rewrite Hlen. rewrite <- (length_fmap (mass_of id) (step streams c)).
      rewrite (Hother streams c Hne). apply length_fmap.
Qed.

Lemma view_lookup {A : Type} (view : DetailedStream.t -> A)
    (a b : list DetailedStream.t) (i : nat) (x : DetailedStream.t) :
  view <$> a = view <$> b -> a !! i = Some x ->
  exists y, b !! i = Some y /\ view x = view y.
Proof.
  intros H Hx.
  assert (Hl : view <$> a !! i = view <$> b !! i) by now rewrite <- !list_lookup_fmap, H.
  rewrite Hx in Hl. destruct (b !! i) as [y|]; simpl in Hl; [|discriminate].
  exists y. split; [reflexivity|]. now injection Hl.
Qed.

Lemma view_length {A : Type} (view : DetailedStream.t -> A) (a b : list DetailedStream.t) :
  view <$> a = view <$> b -> length a = length b.
Proof. intros H. rewrite <- (length_fmap view a), H. apply length_fmap. Qed.

(** The round of a component whose totals disagree, in the first closure:
    every output is multiplied by input over output. *)
Lemma close_component_self (inputs outputs : list nat) (streams : list DetailedStream.t)
    (comp : MineralComponent.t) :
  let id := MineralComponent.id comp in
  let totalInput := total_over (mass_of id) streams inputs in
  let totalOutput := total_over (mass_of id) streams outputs in
  0 < totalInput -> 0.001 < Qabs (totalInput - totalOutput) -> ~ totalOutput == 0 ->
  close_component inputs outputs streams comp
  = update_at (scale_mass id (totalInput / totalOutput)) outputs streams.
Proof.
  intros id totalInput totalOutput Hin Hdiff Hout. unfold close_component.
  fold id. fold totalInput. fold totalOutput.
  apply Qltb_lt in Hdiff. rewrite Hdiff.
  assert (Hz : Qeq_bool totalInput 0 = false) by (apply Qeq_bool_false; lra).
  apply Qltb_lt in Hin. rewrite Hin, Hz. cbn [andb].
  rewrite or_else_keeps by now apply Qeq_bool_false. reflexivity.
Qed.

(** The round of a component whose totals disagree, in the global closure:
    every output gets the same share of the input. *)
Lemma global_component_self (inputs outputs : list nat) (streams : list DetailedStream.t)
    (comp : MineralComponent.t) :
  let id := MineralComponent.id comp in
  let totalInput := total_over (mass_of id) streams inputs in
  let totalOutput := total_over (mass_of id) streams outputs in
  0 < totalInput -> ~ totalOutput == 0 -> 0.01 < Qabs (totalInput / totalOutput - 1) ->
  (forall idx, idx ∈ outputs -> (idx < length streams)%nat) ->
  outputs <> [] ->
  global_component inputs outputs streams comp
  = update_at (set_mass id (totalInput / Qnat (length outputs))) outputs streams.
Proof.
  intros id totalInput totalOutput Hin Hout Hdiff Hlt Hne. unfold global_component.
  fold id. fold totalInput. fold totalOutput.
  apply Qltb_lt in Hin. rewrite Hin.
  rewrite or_else_keeps by now apply Qeq_bool_false.
  apply Qltb_lt in Hdiff. rewrite Hdiff, orb_true_r.
  rewrite present_all by exact Hlt.
  destruct outputs as [|o l]; [congruence|]. reflexivity.
Qed.

Lemma total_over_nonzero (q : DetailedStream.t -> Q) (streams : list DetailedStream.t)
    (indices : list nat) :
  ~ total_over q streams indices == 0 -> indices <> [].
Proof. intros H ->. apply H. reflexivity. Qed.

Lemma boundary_nonempty (inputs outputs : list nat) :
  inputs <> [] -> outputs <> [] ->
  Nat.eqb (length inputs) 0 || Nat.eqb (length outputs) 0 = false.
Proof. destruct inputs, outputs; intros; try congruence; reflexivity. Qed.

(** * The scenario of conflicting totals *)

Section ConflictingTotals.

Variable streams : list DetailedStream.t.
Variable flowLines : list FlowLine.t.
Variable activeComponents : list MineralComponent.t.
Variable comp : MineralComponent.t.

Let id := MineralComponent.id comp.
Let inputs := inputIndices flowLines.
Let outputs := outputIndices flowLines.

Hypothesis distinct_ids : NoDup (MineralComponent.id <$> activeComponents).
Hypothesis comp_active : comp ∈ activeComponents.
Hypothesis populated : length streams = length flowLines.
Hypothesis input_total : input_mass streams flowLines id == 1000.
Hypothesis output_total : output_mass streams flowLines id == 500.

Lemma conflicting_boundary :
  Nat.eqb (length inputs) 0 || Nat.eqb (length outputs) 0 = false.
Proof.
  apply boundary_nonempty.
  - apply (total_over_nonzero (mass_of id) streams). intros H.
    pose proof input_total as H'. unfold input_mass in H'. fold inputs in H'. lra.
  - apply (total_over_nonzero (mass_of id) streams). intros H.
    pose proof output_total as H'. unfold output_mass in H'. fold outputs in H'. lra.
Qed.

(** What the two closures need to know of the array their component loop
    starts from. *)
Lemma conflicting_round
    (step : list DetailedStream.t -> MineralComponent.t -> list DetailedStream.t)
    (start : list DetailedStream.t) :
  (forall strs c, MineralComponent.id c <> id -> mass_of id <$> step strs c = mass_of id <$> strs) ->
  mass_of id <$> start = mass_of id <$> streams ->
  exists pre,
    mass_of id <$> pre = mass_of id <$> streams
    /\ mass_of id <$> foldl step start activeComponents = mass_of id <$> step pre comp
    /\ total_over (mass_of id) pre inputs == 1000
    /\ total_over (mass_of id) pre outputs == 500
    /\ (forall idx, idx ∈ outputs -> (idx < length pre)%nat).
Proof.
  intros Hother Hstart.
  destruct (component_loop_view id step activeComponents comp start Hother distinct_ids
              comp_active eq_refl) as (pre & Hpre & _ & Hfin).
  exists pre. rewrite Hstart in Hpre.
  split; [exact Hpre|]. split; [exact Hfin|].
  rewrite !(total_over_view _ pre streams) by exact Hpre.
  split; [exact input_total|]. split; [exact output_total|].
  intros idx Hidx. rewrite (view_length _ _ _ Hpre), populated.
  eapply indices_where_lt. exact Hidx.
Qed.

Lemma first_closure_doubles :
  let closed := applyMassBalanceClosure streams flowLines activeComponents in
  output_mass closed flowLines id == 1000
  /\ forall idx s s',
       idx ∈ outputs -> streams !! idx = Some s -> closed !! idx = Some s' ->
       mass_of id s' == 2 * mass_of id s.
Proof.
  cbv zeta. unfold applyMassBalanceClosure. fold inputs. fold outputs.
  rewrite conflicting_boundary.
  match goal with
  | |- context [foldl (close_component inputs outputs) ?start activeComponents] =>
      set (closedStreams := start)
  end.
  assert (Hstart : mass_of id <$> closedStreams = mass_of id <$> streams).
  { unfold closedStreams.
    case_tests; rewrite ?update_at_view; reflexivity. }
  destruct (conflicting_round (close_component inputs outputs) closedStreams)
    as (pre & Hpre & Hfin & Hin & Hout & Hlt).
  { intros strs c Hc. now apply close_component_other. }
  { exact Hstart. }
  set (tin := total_over (mass_of id) pre inputs) in *.
  set (tout := total_over (mass_of id) pre outputs) in *.
  assert (Hself : close_component inputs outputs pre comp
                  = update_at (scale_mass id (tin / tout)) outputs pre).
  { apply close_component_self; fold id; fold tin; fold tout.
    - lra.
    - apply Qabs_case; intros; lra.
    - lra. }
  rewrite Hself in Hfin.
  assert (Hk : tin / tout == 2) by (rewrite Hin, Hout; reflexivity).
  split.
  - unfold output_mass. fold outputs.
    rewrite (total_over_view _ _ _ outputs Hfin).
    rewrite (total_over_update (mass_of id) _ (fun x => x * (tin / tout))).
    + rewrite (Qsum_fmap_scale
                 (fun idx => match pre !! idx with
                             | Some s => or_else (mass_of id s) 0
                             | None => 0
                             end)).
      fold (total_over (mass_of id) pre outputs). fold tout. rewrite Hk, Hout. reflexivity.
    + apply indices_where_NoDup.
    + intros s. rewrite mass_of_scale_mass_same, or_else_eq. reflexivity.
    + ring.
  - intros idx s s' Hidx Hs Hs'.
    destruct (view_lookup _ _ _ idx s' Hfin Hs') as (y & Hy & Hview).
    rewrite update_at_lookup in Hy by apply indices_where_NoDup.
    rewrite decide_True in Hy by exact Hidx.
    destruct (pre !! idx) as [p|] eqn:Hp; simpl in Hy; [|discriminate].
    injection Hy as <-.
    destruct (view_lookup _ _ _ idx p Hpre Hp) as (s0 & Hs0 & Hps).
    rewrite Hs in Hs0. injection Hs0 as <-.
    rewrite Hview, mass_of_scale_mass_same, Hps, Hk. ring.
Qed.

(** In the exact arithmetic of the model the shares total the input. *)
Lemma global_closure_shares_equally :
  let corrected := applyGlobalMassBalanceWithClosure streams flowLines activeComponents in
  output_mass corrected flowLines id == 1000
  /\ forall idx s',
       idx ∈ outputs -> corrected !! idx = Some s' ->
       mass_of id s' == 1000 / Qnat (length outputs).
Proof.
  cbv zeta. unfold applyGlobalMassBalanceWithClosure. fold inputs. fold outputs.
  rewrite conflicting_boundary.
  set (correctedStreams := foldl (global_component inputs outputs) streams activeComponents).
  destruct (conflicting_round (global_component inputs outputs) streams)
    as (pre & Hpre & Hfin & Hin & Hout & Hlt).
  { intros strs c Hc. now apply global_component_other. }
  { reflexivity. }
  fold correctedStreams in Hfin.
  set (tin := total_over (mass_of id) pre inputs) in *.
  set (tout := total_over (mass_of id) pre outputs) in *.
  assert (Hne : outputs <> []).
  { apply (total_over_nonzero (mass_of id) pre). fold tout. rewrite Hout. discriminate. }
  assert (Hself : global_component inputs outputs pre comp
                  = update_at (set_mass id (tin / Qnat (length outputs))) outputs pre).
  { apply global_component_self; fold id; fold tin; fold tout; try assumption.
    - lra.
    - lra.
    - assert (Hk : tin / tout - 1 == 1) by (rewrite Hin, Hout; reflexivity).
      rewrite Hk. reflexivity. }
  rewrite Hself in Hfin.
  match goal with
  | |- output_mass ?final _ _ == _ /\ _ => set (corrected := final)
  end.
  assert (Hcorr : mass_of id <$> corrected = mass_of id <$> correctedStreams).
  { unfold corrected.
    case_tests; rewrite ?update_at_view; reflexivity. }
  rewrite Hfin in Hcorr.
  assert (Hn : 0 < Qnat (length outputs)).
  { unfold Qnat. destruct outputs; [congruence|].
    cbn [length]. rewrite Nat2Z.inj_succ. unfold Qlt. simpl. lia. }
  split.
  - unfold output_mass. fold outputs.
    rewrite (total_over_view _ _ _ outputs Hcorr).
    rewrite (total_over_update_const (mass_of id) _ (tin / Qnat (length outputs))).
    + rewrite Hin. field. lra.
    + apply indices_where_NoDup.
    + exact Hlt.
    + intros s. apply mass_of_set_mass_same.
  - intros idx s' Hidx Hs'.
    destruct (view_lookup _ _ _ idx s' Hcorr Hs') as (y & Hy & Hview).
    rewrite update_at_lookup in Hy by apply indices_where_NoDup.
    rewrite decide_True in Hy by exact Hidx.
    destruct (pre !! idx) as [p|] eqn:Hp; simpl in Hy; [|discriminate].
    injection Hy as <-.
    rewrite Hview, mass_of_set_mass_same, Hin. reflexivity.
Qed.

End ConflictingTotals.

(** C2 (as amended). When the input-class streams carry 1000 t/h of a
    component and the output-class streams 500 t/h, one application of
    either closure leaves the outputs carrying 1000 t/h.  The first closure
    multiplies the mass in every output stream by 2, and the total is
    exactly 1000; the global closure gives every output stream the same
    share, 1000 over the number of output streams, whatever it held before,
    and the shares total 1000 up to rounding. *)
Theorem conflicting_totals_closed (streams : list DetailedStream.t)
    (flowLines : list FlowLine.t) (activeComponents : list MineralComponent.t)
    (comp : MineralComponent.t) :
  NoDup (MineralComponent.id <$> activeComponents) ->
  comp ∈ activeComponents ->
  length streams = length flowLines ->
  input_mass streams flowLines (MineralComponent.id comp) == 1000 ->
  output_mass streams flowLines (MineralComponent.id comp) == 500 ->
  let id := MineralComponent.id comp in
  let closed := applyMassBalanceClosure streams flowLines activeComponents in
  let corrected := applyGlobalMassBalanceWithClosure streams flowLines activeComponents in
  (output_mass closed flowLines id == 1000
   /\ forall idx s s',
        idx ∈ outputIndices flowLines -> streams !! idx = Some s -> closed !! idx = Some s' ->
        mass_of id s' == 2 * mass_of id s)
  /\ (agrees (output_mass corrected flowLines id) 1000
      /\ forall idx s',
           idx ∈ outputIndices flowLines -> corrected !! idx = Some s' ->
           mass_of id s' == 1000 / Qnat (length (outputIndices flowLines))).
Proof.
  intros Hnd Hcomp Hlen Hin Hout. cbv zeta. split.
  - now apply first_closure_doubles.
  - destruct (global_closure_shares_equally streams flowLines activeComponents comp
                Hnd Hcomp Hlen Hin Hout) as [Htotal Hshare].
    split; [apply agrees_of_eq; exact Htotal | exact Hshare].
Qed.

Lemma conflicting_totals_closed_witness :
  let streams := (fun fl => stream_of fl [fe]) <$> unequal_circuit in
  let closed := applyMassBalanceClosure streams unequal_circuit [fe] in
  let corrected := applyGlobalMassBalanceWithClosure streams unequal_circuit [fe] in
  input_mass streams unequal_circuit (MineralComponent.id fe) == 1000
  /\ output_mass streams unequal_circuit (MineralComponent.id fe) == 500
  /\ output_mass closed unequal_circuit (MineralComponent.id fe) == 1000
  /\ agrees (output_mass corrected unequal_circuit (MineralComponent.id fe)) 1000.
Proof.
  cbv zeta.
  assert (Hnd : NoDup (MineralComponent.id <$> [fe])).
  { apply NoDup_singleton. }
  assert (Hcomp : fe ∈ [fe]) by left.
  assert (Hlen : length ((fun fl => stream_of fl [fe]) <$> unequal_circuit)
                 = length unequal_circuit) by reflexivity.
  assert (Hin : input_mass ((fun fl => stream_of fl [fe]) <$> unequal_circuit) unequal_circuit
                           (MineralComponent.id fe) == 1000) by reflexivity.
  assert (Hout : output_mass ((fun fl => stream_of fl [fe]) <$> unequal_circuit) unequal_circuit
                             (MineralComponent.id fe) == 500) by reflexivity.
  destruct (conflicting_totals_closed _ _ _ _ Hnd Hcomp Hlen Hin Hout) as [[H1 _] [H2 _]].
  split; [exact Hin|]. split; [exact Hout|]. split; [exact H1 | exact H2].
Defined.

(** C2 (as stated) fails on the global closure: with 1000 t/h in and
    100 t/h and 400 t/h out, both outputs are set to 500 t/h, which is 5
    times the first and 1.25 times the second. *)
Lemma rescaled_by_two_counterexample :
  ~ rescaled_by_two applyGlobalMassBalanceWithClosure (mass_of (MineralComponent.id fe))
      ((fun fl => stream_of fl [fe]) <$> unequal_circuit) unequal_circuit [fe].
Proof.
  intros H. destruct H as [_ H].
  - reflexivity.
  - reflexivity.
  - intros idx Hidx.
    change (outputIndices unequal_circuit) with [1%nat; 2%nat] in Hidx.
    apply elem_of_cons in Hidx as [->|Hidx].
    { eexists. split; [reflexivity|]. intros Hz. vm_compute in Hz. discriminate Hz. }
    apply elem_of_cons in Hidx as [->|Hidx].
    { eexists. split; [reflexivity|]. intros Hz. vm_compute in Hz. discriminate Hz. }
    now apply elem_of_nil in Hidx.
  - assert (Hidx : 1%nat ∈ outputIndices unequal_circuit).
    { change (outputIndices unequal_circuit) with [1%nat; 2%nat]. left. }
    specialize (H 1%nat _ _ Hidx eq_refl eq_refl).
    vm_compute in H. discriminate H.
Qed.

Import Flowsheets.

(** * Propagation: what it keeps and what it fills in *)

(** The pointwise rule with the guards of the four writes: a copy is made
    onto a target, defaults onto a line with no components, a flow onto a
    line with none. *)
Lemma propagate_at_pointwise_guarded (R : FlowLine.t -> FlowLine.t -> Prop)
    (active : list MineralComponent.t) :
  (forall x, R x x) ->
  (forall f x, forward_target f x = true -> R x (copy_forward f x)) ->
  (forall f x, backward_target f x = true -> R x (copy_backward f x)) ->
  (forall x, no_components x = true -> R x (with_defaults active x)) ->
  (forall x est, Qeq_bool (FlowLine.flowRate x) 0 = true -> R x (with_flow est x)) ->
  forall i fls c j x',
    fst (propagate_at active i (fls, c)) !! j = Some x' ->
    exists x, fls !! j = Some x /\ R x x'.
Proof.
  intros Hrefl Hfwd Hbwd Hdef Hflow i fls c j x' H.
  destruct (fls !! i) as [f|] eqn:Hi.
  2:{ rewrite propagate_at_out_of_range in H by exact Hi. simpl in H. eauto. }
  rewrite (propagate_at_cases _ _ _ _ f Hi) in H.
  rewrite case4_lookup in H. case_decide as H4.
  - destruct H4 as (<- & Hz & _). injection H as <-.
    exists f. split; [exact Hi|]. now apply Hflow.
  - rewrite case3_lookup in H. case_decide as H3.
    + destruct H3 as (<- & Hnc & _). injection H as <-.
      exists f. split; [exact Hi|]. now apply Hdef.
    + destruct (decide (i = j)) as [<-|Hne].
      * rewrite (case12_self f fls i Hi) in H. injection H as <-. eauto.
      * rewrite case2_lookup, case1_lookup in H.
        destruct (fls !! j) as [x|] eqn:Hj; [|discriminate]. simpl in H.
        exists x. split; [reflexivity|]. injection H as <-.
        destruct (is_feed f) eqn:E1; destruct (is_product f) eqn:E2; simpl.
        -- unfold is_feed, is_product in *.
           destruct (has_id (FlowLine.fromEquipment f)); simpl in *; discriminate.
        -- destruct (forward_target f x) eqn:Et; [now apply Hfwd | apply Hrefl].
        -- destruct (backward_target f x) eqn:Et; [now apply Hbwd | apply Hrefl].
        -- apply Hrefl.
Qed.

Lemma keeps_data_refl (x : FlowLine.t) : keeps_data x x.
Proof. unfold keeps_data. intuition. Qed.

Lemma keeps_data_trans (x y z : FlowLine.t) :
  keeps_data x y -> keeps_data y z -> keeps_data x z.
Proof.
  unfold keeps_data.
  intros (F1 & S1 & D1 & P1 & C1 & G1) (F2 & S2 & D2 & P2 & C2 & G2).
  repeat split.
  - intros H. rewrite <- (F1 H). apply F2. now rewrite (F1 H).
  - intros H. rewrite <- (S1 H). apply S2. now rewrite (S1 H).
  - intros H. rewrite <- (D1 H). apply D2. now rewrite (D1 H).
  - intros p Hp Hnz. apply P2; [|exact Hnz]. now apply P1.
  - intros c Hc Hne. apply C2; [|exact Hne]. now apply C1.
  - intros k v Hk. apply G2. now apply G1.
Qed.

Lemma or_else_set (x d : Q) : ~ x == 0 -> or_else x d = x.
Proof. intros H. apply or_else_keeps. now apply Qeq_bool_false. Qed.

Lemma no_components_empty (x : FlowLine.t) :
  no_components x = true ->
  (forall c, FlowLine.components x = Some c -> c = [])
  /\ grades_of (FlowLine.componentGrades x) = ∅.
Proof.
  unfold no_components. intros H. apply andb_true_iff in H as [Hc Hg]. split.
  - intros c Ec. rewrite Ec in Hc. apply Nat.eqb_eq in Hc. now apply length_zero_iff_nil.
  - destruct (FlowLine.componentGrades x) as [g|]; [|reflexivity]. simpl.
    apply Nat.eqb_eq in Hg. now apply map_size_empty_iff.
Qed.

Lemma propagate_at_keeps_data (active : list MineralComponent.t) i fls c j x' :
  fst (propagate_at active i (fls, c)) !! j = Some x' ->
  exists x, fls !! j = Some x /\ keeps_data x x'.
Proof.
  apply (propagate_at_pointwise_guarded keeps_data).
  - apply keeps_data_refl.
  - intros f x _. unfold keeps_data. simpl. repeat split.
    + apply or_else_set.
    + apply or_else_set.
    + apply or_else_set.
    + intros p -> Hp. simpl. apply Qeq_bool_false in Hp. now rewrite Hp.
    + intros c' Hc _. unfold components_or. now rewrite Hc.
    + intros k v Hk. unfold merged_grades. now apply lookup_union_Some_l.
  - intros f x _. unfold keeps_data. simpl. repeat split.
    + apply or_else_set.
    + apply or_else_set.
    + apply or_else_set.
    + intros p -> Hp. simpl. f_equal. now apply or_else_set.
    + intros c' Hc _. unfold components_or. now rewrite Hc.
    + intros k v Hk. unfold merged_grades. now apply lookup_union_Some_l.
  - intros x Hnc. apply no_components_empty in Hnc as [Hc Hg].
    unfold keeps_data. simpl. repeat split; try tauto.
    + intros c' Ec Hne. now specialize (Hc c' Ec).
    + intros k v Hk. rewrite Hg in Hk. now rewrite lookup_empty in Hk.
  - intros x est Hz. unfold keeps_data. simpl. repeat split; try tauto.
    + intros Hnz. apply Qeq_bool_false in Hnz. congruence.
    + apply or_else_set.
    + apply or_else_set.
Qed.

Lemma propagate_pass_keeps_data (active : list MineralComponent.t) (fls : list FlowLine.t)
    (j : nat) (x' : FlowLine.t) :
  fst (propagate_pass active fls) !! j = Some x' ->
  exists x, fls !! j = Some x /\ keeps_data x x'.
Proof.
  revert j x'.
  apply (propagate_pass_invariant
           (fun _ l => forall j x', l !! j = Some x' ->
                         exists x, fls !! j = Some x /\ keeps_data x x')).
  - intros j x' H. exists x'. split; [exact H | apply keeps_data_refl].
  - intros i l c _ _ IH j x' H.
    apply propagate_at_keeps_data in H as (y & Hy & Hyx).
    destruct (IH j y Hy) as (x & Hx & Hxy).
    exists x. split; [exact Hx|]. eapply keeps_data_trans; eauto.
Qed.

Lemma propagate_loop_keeps_data (active : list MineralComponent.t) (n : nat)
    (fls : list FlowLine.t) (j : nat) (x' : FlowLine.t) :
  propagate_loop n active fls !! j = Some x' ->
  exists x, fls !! j = Some x /\ keeps_data x x'.
Proof.
  revert fls. induction n as [|n IH]; intros fls H.
  - exists x'. split; [exact H | apply keeps_data_refl].
  - cbn [propagate_loop] in H.
    destruct (propagate_pass active fls) as [fls' c] eqn:E.
    assert (Hpass : forall y, fls' !! j = Some y -> exists x, fls !! j = Some x /\ keeps_data x y).
    { intros y Hy. apply (propagate_pass_keeps_data active). now rewrite E. }
    destruct (Nat.eqb c 0).
    + now apply Hpass.
    + apply IH in H as (y & Hy & Hyx). destruct (Hpass y Hy) as (x & Hx & Hxy).
      exists x. split; [exact Hx|]. eapply keeps_data_trans; eauto.
Qed.

Lemma propagate_loop_flows_set (active : list MineralComponent.t) (n : nat)
    (fls : list FlowLine.t) :
  flows_set (propagate_loop (S n) active fls).
Proof.
  revert fls. induction n as [|n IH]; intros fls.
  - cbn [propagate_loop].
    pose proof (propagate_pass_sets_flows active fls) as H.
    destruct (propagate_pass active fls) as [fls' c]. simpl in H.
    now destruct (Nat.eqb c 0).
  - change (propagate_loop (S (S n)) active fls)
      with (let '(fls', changes) := propagate_pass active fls in
            if Nat.eqb changes 0 then fls' else propagate_loop (S n) active fls').
    pose proof (propagate_pass_sets_flows active fls) as H.
    destruct (propagate_pass active fls) as [fls' c]. simpl in H.
    destruct (Nat.eqb c 0); [exact H | apply IH].
Qed.

(** X1. Propagation keeps the flowsheet as it is drawn: the result has one
    flow line for each flow line given, in the same order, with the same
    id and the same two equipment ends. *)
Theorem propagateStreamData_keeps_topology (flowLines : list FlowLine.t)
    (mineralComponents : list MineralComponent.t) :
  let propagated := propagateStreamData flowLines mineralComponents in
  length propagated = length flowLines
  /\ forall i fl', propagated !! i = Some fl' ->
       exists fl, flowLines !! i = Some fl
         /\ FlowLine.id fl' = FlowLine.id fl
         /\ FlowLine.fromEquipment fl' = FlowLine.fromEquipment fl
         /\ FlowLine.toEquipment fl' = FlowLine.toEquipment fl.
Proof.
  intros propagated.
  pose proof (propagateStreamData_ends flowLines mineralComponents) as H.
  fold propagated in H. split.
  - rewrite <- (length_fmap ends_of propagated), H. apply length_fmap.
  - intros i fl' Hi.
    assert (Hl : (ends_of <$> propagated) !! i = Some (ends_of fl')).
    { rewrite list_lookup_fmap, Hi. reflexivity. }
    rewrite H, list_lookup_fmap in Hl.
    destruct (flowLines !! i) as [fl|]; [|discriminate].
    exists fl. split; [reflexivity|]. simpl in Hl. unfold ends_of in Hl.
    injection Hl as H1 H2 H3. auto.
Qed.

(** The writes of the body put no negative flow rate where there was
    none: a copy takes the rate of the stream copied from, an estimate is
    positive. *)
Lemma propagate_at_nonneg (active : list MineralComponent.t) i fls c :
  (forall j x, fls !! j = Some x -> 0 <= FlowLine.flowRate x) ->
  forall j x', fst (propagate_at active i (fls, c)) !! j = Some x' ->
    0 <= FlowLine.flowRate x'.
Proof.
  intros Hall j x' H.
  destruct (fls !! i) as [f|] eqn:Hi.
  2:{ rewrite propagate_at_out_of_range in H by exact Hi. simpl in H. eauto. }
  pose proof (Hall i f Hi) as Hf.
  rewrite (propagate_at_cases _ _ _ _ f Hi) in H.
  rewrite case4_lookup in H. case_decide as H4.
  - injection H as <-. cbn [with_flow FlowLine.flowRate].
    match goal with |- 0 <= estimated_flow ?l f =>
      pose proof (estimated_flow_positive l f) end. lra.
  - rewrite case3_lookup in H. case_decide as H3.
    + injection H as <-. exact Hf.
    + destruct (decide (i = j)) as [<-|Hne].
      * rewrite (case12_self f fls i Hi) in H. injection H as <-. exact Hf.
      * rewrite case2_lookup, case1_lookup in H.
        destruct (fls !! j) as [x|] eqn:Hj; [|discriminate H]. simpl in H.
        injection H as <-. pose proof (Hall j x Hj) as Hx.
        assert (Hcf : forall y, 0 <= FlowLine.flowRate y ->
                        0 <= FlowLine.flowRate (copy_forward f y)).
        { intros y Hy. cbn [copy_forward FlowLine.flowRate]. unfold or_else.
          now destruct (Qeq_bool (FlowLine.flowRate y) 0). }
        assert (Hcb : forall y, 0 <= FlowLine.flowRate y ->
                        0 <= FlowLine.flowRate (copy_backward f y)).
        { intros y Hy. cbn [copy_backward FlowLine.flowRate]. unfold or_else.
          now destruct (Qeq_bool (FlowLine.flowRate y) 0). }
        case_tests; auto.
Qed.

Lemma propagate_pass_nonneg (active : list MineralComponent.t) (fls : list FlowLine.t) :
  (forall j x, fls !! j = Some x -> 0 <= FlowLine.flowRate x) ->
  forall j x', fst (propagate_pass active fls) !! j = Some x' -> 0 <= FlowLine.flowRate x'.
Proof.
  intros Hall.
  apply (propagate_pass_invariant
           (fun _ l => forall j x', l !! j = Some x' -> 0 <= FlowLine.flowRate x')).
  - exact Hall.
  - intros i l c _ _ IH. now apply propagate_at_nonneg.
Qed.

Lemma propagate_loop_nonneg (active : list MineralComponent.t) (n : nat)
    (fls : list FlowLine.t) :
  (forall j x, fls !! j = Some x -> 0 <= FlowLine.flowRate x) ->
  forall j x', propagate_loop n active fls !! j = Some x' -> 0 <= FlowLine.flowRate x'.
Proof.
  revert fls. induction n as [|n IH]; intros fls Hall j x' H.
  - now apply (Hall j).
  - cbn [propagate_loop] in H.
    pose proof (propagate_pass_nonneg active fls Hall) as Hpass.
    destruct (propagate_pass active fls) as [fls' c]. cbn [fst] in Hpass.
    destruct (Nat.eqb c 0).
    + now apply (Hpass j).
    + now apply (IH fls' Hpass j).
Qed.

(** X2. After propagation no flow line is left with a flow rate of zero,
    and when no flow rate given is negative every flow rate returned is
    positive. *)
Theorem propagateStreamData_sets_every_flow (flowLines : list FlowLine.t)
    (mineralComponents : list MineralComponent.t) (i : nat) (fl : FlowLine.t) :
  propagateStreamData flowLines mineralComponents !! i = Some fl ->
  ~ FlowLine.flowRate fl == 0
  /\ ((forall j x, flowLines !! j = Some x -> 0 <= FlowLine.flowRate x) ->
      0 < FlowLine.flowRate fl).
Proof.
  unfold propagateStreamData. intros H.
  assert (Hnz : ~ FlowLine.flowRate fl == 0).
  { apply Qeq_bool_false. eapply (propagate_loop_flows_set _ 9). exact H. }
  split; [exact Hnz|].
  intros Hall.
  pose proof (propagate_loop_nonneg _ _ _ Hall i fl H) as Hge. lra.
Qed.

Lemma propagateStreamData_sets_every_flow_witness :
  exists fl,
    propagateStreamData [feed; empty_product] [fe] !! 1%nat = Some fl
    /\ FlowLine.flowRate empty_product == 0
    /\ 0 < FlowLine.flowRate fl.
Proof.
  destruct (propagateStreamData [feed; empty_product] [fe] !! 1%nat) as [fl|] eqn:E.
  2:{ exfalso. vm_compute in E. discriminate E. }
  exists fl. split; [reflexivity|]. split; [reflexivity|].
  apply (propagateStreamData_sets_every_flow [feed; empty_product] [fe] 1%nat fl E).
  intros [|[|j]] x Hx; cbn in Hx; [| |discriminate Hx]; injection Hx as <-; cbn; lra.
Defined.

(** X3. Propagation fills gaps and never overwrites: in the line that takes
    the place of a flow line, a flow rate, solids percent or density that
    was set (not zero) is the same number, a particle size that was set and
    a component list that was not empty are kept, and every grade the line
    held is still there with the same value. *)
Theorem propagateStreamData_never_overwrites (flowLines : list FlowLine.t)
    (mineralComponents : list MineralComponent.t) (i : nat) (fl fl' : FlowLine.t) :
  flowLines !! i = Some fl ->
  propagateStreamData flowLines mineralComponents !! i = Some fl' ->
  (~ FlowLine.flowRate fl == 0 -> FlowLine.flowRate fl' = FlowLine.flowRate fl)
  /\ (~ FlowLine.solidPercent fl == 0 -> FlowLine.solidPercent fl' = FlowLine.solidPercent fl)
  /\ (~ FlowLine.density fl == 0 -> FlowLine.density fl' = FlowLine.density fl)
  /\ (forall p, FlowLine.particleSize fl = Some p -> ~ p == 0 ->
        FlowLine.particleSize fl' = Some p)
  /\ (forall c, FlowLine.components fl = Some c -> c <> [] -> FlowLine.components fl' = Some c)
  /\ (forall k v, grades_of (FlowLine.componentGrades fl) !! k = Some v ->
        grades_of (FlowLine.componentGrades fl') !! k = Some v).
Proof.
  intros Hfl H. unfold propagateStreamData in H.
  apply propagate_loop_keeps_data in H as (x & Hx & Hk).
  rewrite Hfl in Hx. injection Hx as <-. exact Hk.
Qed.

Lemma propagateStreamData_never_overwrites_witness :
  exists fl',
    propagateStreamData [feed; empty_product] [fe] !! 0%nat = Some fl'
    /\ FlowLine.flowRate fl' = 1000
    /\ grades_of (FlowLine.componentGrades fl') !! "fe" = Some 35.
Proof.
  destruct (propagateStreamData [feed; empty_product] [fe] !! 0%nat) as [fl'|] eqn:E.
  2:{ exfalso. vm_compute in E. discriminate E. }
  exists fl'. split; [reflexivity|].
  destruct (propagateStreamData_never_overwrites [feed; empty_product] [fe] 0%nat feed fl'
              eq_refl E) as (F & _ & _ & _ & _ & G).
  split.
  - apply F. simpl. intros H. discriminate H.
  - apply G. reflexivity.
Defined.

(** * The solver: shape of the result *)

Lemma foldl_length_invariant {A B : Type} (step : list A -> B -> list A) (l : list B)
    (start : list A) :
  (forall strs b, length (step strs b) = length strs) ->
  length (foldl step start l) = length start.
Proof.
  intros H. revert start. induction l as [|b l IH]; intros start; [reflexivity|].
  cbn [foldl]. now rewrite IH, H.
Qed.

Lemma close_component_length (inputs outputs : list nat) (streams : list DetailedStream.t)
    (comp : MineralComponent.t) :
  length (close_component inputs outputs streams comp) = length streams.
Proof.
  unfold close_component. case_tests; repeat rewrite update_at_length; reflexivity.
Qed.

Lemma global_component_length (inputs outputs : list nat) (streams : list DetailedStream.t)
    (comp : MineralComponent.t) :
  length (global_component inputs outputs streams comp) = length streams.
Proof.
  unfold global_component. case_tests; repeat rewrite update_at_length; reflexivity.
Qed.

Lemma applyMassBalanceClosure_length (streams : list DetailedStream.t)
    (flowLines : list FlowLine.t) (activeComponents : list MineralComponent.t) :
  length (applyMassBalanceClosure streams flowLines activeComponents) = length streams.
Proof.
  unfold applyMassBalanceClosure.
  destruct (_ || _); [reflexivity|]. cbv zeta.
  rewrite foldl_length_invariant by apply close_component_length.
  case_tests; repeat rewrite update_at_length; reflexivity.
Qed.

Lemma applyGlobalMassBalanceWithClosure_length (streams : list DetailedStream.t)
    (flowLines : list FlowLine.t) (activeComponents : list MineralComponent.t) :
  length (applyGlobalMassBalanceWithClosure streams flowLines activeComponents)
  = length streams.
Proof.
  unfold applyGlobalMassBalanceWithClosure.
  destruct (_ || _); [reflexivity|]. cbv zeta.
  case_tests; repeat rewrite update_at_length;
    apply foldl_length_invariant, global_component_length.
Qed.

Lemma write_outputs_length (outputStreamIds : list string)
    (outputStreams : list DetailedStream.t) (flowLines : list FlowLine.t)
    (streams : list DetailedStream.t) :
  length (write_outputs outputStreamIds outputStreams flowLines streams) = length streams.
Proof.
  unfold write_outputs. apply foldl_length_invariant.
  intros strs [index streamId].
  destruct (outputStreams !! index); [|reflexivity].
  destruct (findIndex streamId flowLines); [apply length_insert | reflexivity].
Qed.

Lemma process_equipment_length (flowLines : list FlowLine.t)
    (activeComponents : list MineralComponent.t) (streams streams' : list DetailedStream.t)
    (equipment : Equipment.t) :
  process_equipment flowLines activeComponents streams equipment = Returns streams' ->
  length streams' = length streams.
Proof.
  unfold process_equipment.
  destruct (streams_of _ flowLines streams) as [|s l]; [intros H; now injection H as <-|].
  destruct (calculateEquipmentBalanceWithClosure _ _ _) as [outs|e]; cbn [bind];
    intros H; [|discriminate H].
  injection H as <-. apply write_outputs_length.
Qed.

Lemma process_equipments_length (equipments : list Equipment.t)
    (flowLines : list FlowLine.t) (activeComponents : list MineralComponent.t)
    (streams streams' : list DetailedStream.t) :
  process_equipments equipments flowLines activeComponents streams = Returns streams' ->
  length streams' = length streams.
Proof.
  unfold process_equipments. revert streams.
  induction equipments as [|equipment equipments IH]; intros streams; cbn [foldl].
  - intros H. now injection H as <-.
  - cbn [bind].
    destruct (process_equipment flowLines activeComponents streams equipment) as [s|e] eqn:E.
    + intros H. rewrite (IH s H). eapply process_equipment_length. exact E.
    + intros H. exfalso. clear -H.
      induction equipments as [|eq eqs IH']; cbn [foldl] in H; [discriminate H|].
      cbn [bind] in H. now apply IH'.
Qed.

Lemma iteration_body_length (equipments : list Equipment.t) (flowLines : list FlowLine.t)
    (activeComponents : list MineralComponent.t) (streams streams' : list DetailedStream.t) :
  iteration_body equipments flowLines activeComponents streams = Returns streams' ->
  length streams' = length streams.
Proof.
  unfold iteration_body.
  destruct (process_equipments _ _ _ _) as [s|e] eqn:E; cbn [bind]; intros H;
    [|discriminate H].
  injection H as <-. unfold normalizeStreamCompositions.
  rewrite length_fmap, applyGlobalMassBalanceWithClosure_length.
  rewrite (process_equipments_length _ _ _ _ _ E).
  apply applyMassBalanceClosure_length.
Qed.

Lemma solver_loop_length (n : nat) equipments flowLines activeComponents tolerance
    (iteration : nat) (streams : list DetailedStream.t) converged iteration' streams' :
  solver_loop n equipments flowLines activeComponents tolerance iteration streams
    = Returns (converged, iteration', streams') ->
  length streams' = length streams.
Proof.
  revert iteration streams. induction n as [|n IH]; intros iteration streams;
    cbn [solver_loop].
  - intros H. now injection H as _ _ <-.
  - destruct (iteration_body _ _ _ streams) as [s|e] eqn:E; cbn [bind]; intros H;
      [|discriminate H].
    apply iteration_body_length in E.
    destruct (fst (checkConvergence s flowLines activeComponents tolerance)).
    + injection H as _ _ <-. exact E.
    + rewrite (IH _ _ H). exact E.
Qed.

(** X4. A run returns one stream for each flow line it was given, and one
    propagated flow line for each: closures, transfer functions and
    normalisation write streams in place and never add or drop one. *)
Theorem solver_returns_one_stream_per_flow_line
    equipments flowLines mineralComponents maxIterations tolerance sol :
  solveIterativeMassBalance equipments flowLines mineralComponents maxIterations tolerance
    = Returns sol ->
  length (Solution.streams sol) = length flowLines
  /\ length (Solution.propagatedFlowLines sol) = length flowLines.
Proof.
  intros Hsol. apply solve_inv in Hsol as (Hloop & -> & _).
  apply solver_loop_length in Hloop. rewrite length_fmap in Hloop.
  pose proof (propagateStreamData_ends flowLines mineralComponents) as Hends.
  apply (f_equal length) in Hends. rewrite !length_fmap in Hends.
  split; congruence.
Qed.

Lemma solver_returns_one_stream_per_flow_line_witness :
  exists sol,
    solveIterativeMassBalance [mill] [feed; empty_product] [fe] defaultMaxIterations
                              defaultTolerance = Returns sol
    /\ length (Solution.streams sol) = 2%nat
    /\ length (Solution.propagatedFlowLines sol) = 2%nat.
Proof.
  destruct (solveIterativeMassBalance [mill] [feed; empty_product] [fe] defaultMaxIterations
              defaultTolerance) as [sol|e] eqn:E.
  2:{ exfalso. vm_compute in E. discriminate E. }
  exists sol. split; [reflexivity|].
  exact (solver_returns_one_stream_per_flow_line _ _ _ _ _ sol E).
Defined.

(** * The solver: termination *)

Lemma solver_loop_converged_later (n : nat) equipments flowLines activeComponents tolerance
    (iteration : nat) (streams : list DetailedStream.t) iteration' streams' :
  solver_loop n equipments flowLines activeComponents tolerance iteration streams
    = Returns (true, iteration', streams') ->
  (iteration < iteration')%nat.
Proof.
  revert iteration streams. induction n as [|n IH]; intros iteration streams;
    cbn [solver_loop]; intros H; [discriminate H|].
  destruct (iteration_body _ _ _ streams) as [s|e]; cbn [bind] in H; [|discriminate H].
  destruct (fst (checkConvergence s flowLines activeComponents tolerance)).
  - injection H as <- _. lia.
  - apply IH in H. lia.
Qed.

(** X5. With every mixer's number of outputs a valid array length the
    solver raises nothing and returns a result: it has run at most
    [maxIterations] iterations, all of them when it did not converge and at
    least one when it did. *)
Theorem solver_returns_within_bound
    equipments flowLines mineralComponents maxIterations tolerance :
  Forall well_configured equipments ->
  exists sol,
    solveIterativeMassBalance equipments flowLines mineralComponents maxIterations tolerance
    = Returns sol
    /\ (IterativeResult.iterations (Solution.iterativeResult sol) <= maxIterations)%nat
    /\ (IterativeResult.converged (Solution.iterativeResult sol) = false ->
        IterativeResult.iterations (Solution.iterativeResult sol) = maxIterations)
    /\ (IterativeResult.converged (Solution.iterativeResult sol) = true ->
        (1 <= IterativeResult.iterations (Solution.iterativeResult sol))%nat).
Proof.
  intros Hw.
  destruct (solveIterativeMassBalance_returns equipments flowLines mineralComponents
              maxIterations tolerance Hw) as [sol Hsol].
  exists sol. split; [exact Hsol|].
  destruct (solveIterativeMassBalance_terminal _ _ _ _ _ _ Hsol) as (H1 & H2 & _).
  split; [exact H1|]. split; [exact H2|].
  intros Hc. apply solve_inv in Hsol as (Hloop & _). rewrite Hc in Hloop.
  apply solver_loop_converged_later in Hloop. lia.
Qed.

Lemma two_way_mixer_well_configured : Forall well_configured [two_way_mixer].
Proof.
  constructor; [|constructor]. intros _ _. vm_compute. reflexivity.
Defined.

Lemma solver_returns_within_bound_witness :
  Forall well_configured [two_way_mixer]
  /\ exists sol,
       solveIterativeMassBalance [two_way_mixer] [feed; first_product; second_product] [fe]
                                 defaultMaxIterations defaultTolerance = Returns sol
       /\ (IterativeResult.iterations (Solution.iterativeResult sol)
           <= defaultMaxIterations)%nat.
Proof.
  split; [exact two_way_mixer_well_configured|].
  destruct (solver_returns_within_bound [two_way_mixer] [feed; first_product; second_product]
              [fe] defaultMaxIterations defaultTolerance two_way_mixer_well_configured)
    as (sol & Hsol & Hle & _).
  exists sol. split; [exact Hsol | exact Hle].
Defined.

(** * The solver: a tolerance that cannot be met *)

Lemma checkConvergence_needs_positive_tolerance (streams : list DetailedStream.t)
    (flowLines : list FlowLine.t) (activeComponents : list MineralComponent.t)
    (tolerance : Q) :
  fst (checkConvergence streams flowLines activeComponents tolerance) = true ->
  0 < tolerance.
Proof.
  unfold checkConvergence. cbn [fst]. intros H.
  apply (math_max_lt _ _ H 0). apply elem_of_app. right. apply list_elem_of_singleton.
  reflexivity.
Qed.

(** X6. The convergence test is strict and never sees an error below zero:
    with a tolerance of zero or less no run converges, and the solver
    returns after exactly [maxIterations] iterations with
    [converged = false]. *)
Theorem nonpositive_tolerance_never_converges
    equipments flowLines mineralComponents maxIterations tolerance sol :
  tolerance <= 0 ->
  solveIterativeMassBalance equipments flowLines mineralComponents maxIterations tolerance
    = Returns sol ->
  IterativeResult.converged (Solution.iterativeResult sol) = false
  /\ IterativeResult.iterations (Solution.iterativeResult sol) = maxIterations.
Proof.
  intros Htol Hsol.
  destruct (solveIterativeMassBalance_terminal _ _ _ _ _ _ Hsol) as (_ & H2 & H3).
  destruct (IterativeResult.converged (Solution.iterativeResult sol)) eqn:Ec.
  - specialize (H3 eq_refl). apply checkConvergence_needs_positive_tolerance in H3. lra.
  - split; [reflexivity | now apply H2].
Qed.

Lemma nonpositive_tolerance_never_converges_witness :
  exists sol,
    solveIterativeMassBalance [mill] [feed; empty_product] [fe] 3 0 = Returns sol
    /\ IterativeResult.converged (Solution.iterativeResult sol) = false
    /\ IterativeResult.iterations (Solution.iterativeResult sol) = 3%nat.
Proof.
  destruct (solveIterativeMassBalance [mill] [feed; empty_product] [fe] 3 0)
    as [sol|e] eqn:E.
  2:{ exfalso. vm_compute in E. discriminate E. }
  exists sol. split; [reflexivity|].
  apply (nonpositive_tolerance_never_converges [mill] [feed; empty_product] [fe] 3%nat 0 sol);
    [lra | exact E].
Defined.

(** * Errors are relative, guarded and never negative *)

Lemma relative_error_nonneg (totalInput totalOutput : Q) :
  0 <= relative_error totalInput totalOutput.
Proof.
  unfold relative_error. destruct (Qltb 0 totalInput) eqn:E; [|lra].
  apply Qltb_lt in E. pose proof (Qabs_nonneg (totalInput - totalOutput)) as Ha.
  apply Qmult_le_0_compat; [|lra].
  apply Qle_shift_div_l; [exact E | lra].
Qed.

Lemma relative_error_zero (totalInput totalOutput : Q) :
  relative_error totalInput totalOutput == 0
  <-> totalInput <= 0 \/ totalInput == totalOutput.
Proof.
  unfold relative_error. destruct (Qltb 0 totalInput) eqn:E.
  - apply Qltb_lt in E. split.
    + intros H. right.
      assert (Ha : Qabs (totalInput - totalOutput) == 0).
      { assert (Heq : Qabs (totalInput - totalOutput)
                      == Qabs (totalInput - totalOutput) / totalInput * 100
                         * (totalInput / 100)) by (field; lra).
        rewrite Heq, H. ring. }
      assert (Hle : Qabs (totalInput - totalOutput) <= 0) by lra.
      apply Qabs_Qle_condition in Hle. lra.
    + intros [H|H]; [lra|].
      assert (Hz : totalInput - totalOutput == 0) by lra.
      rewrite Hz. change (Qabs 0) with 0. field. lra.
  - apply (proj1 (Qltb_ge _ _)) in E. split; [now left | reflexivity].
Qed.

(** X7. The error reported for an active component is
    [|in - out| / in x 100] when the component's input total is positive
    and 0 otherwise: it is never negative, and it is zero exactly when the
    input total is not positive or equals the output total.  A component
    that is not active has no entry. *)
Theorem component_errors_guarded (streams : list DetailedStream.t)
    (flowLines : list FlowLine.t) (activeComponents : list MineralComponent.t) :
  (forall comp, comp ∈ activeComponents ->
     exists e,
       calculateComponentErrors streams flowLines activeComponents
         !! MineralComponent.id comp = Some e
       /\ 0 <= e
       /\ (e == 0 <->
           input_mass streams flowLines (MineralComponent.id comp) <= 0
           \/ input_mass streams flowLines (MineralComponent.id comp)
              == output_mass streams flowLines (MineralComponent.id comp)))
  /\ (forall id, id ∉ MineralComponent.id <$> activeComponents ->
        calculateComponentErrors streams flowLines activeComponents !! id = None)
  /\ 0 <= calculateGlobalError streams flowLines.
Proof.
  split; [|split].
  - intros comp Hcomp. eexists. split.
    + unfold calculateComponentErrors.
      apply (by_component_lookup _
               (fun id => relative_error
                            (total_over (mass_of id) streams (inputIndices flowLines))
                            (total_over (mass_of id) streams (outputIndices flowLines))));
        [reflexivity | exact Hcomp].
    + cbv beta. split; [apply relative_error_nonneg | apply relative_error_zero].
  - intros id Hid. unfold calculateComponentErrors, by_component.
    rewrite (by_component_fold_lookup _
               (fun id => relative_error
                            (total_over (mass_of id) streams (inputIndices flowLines))
                            (total_over (mass_of id) streams (outputIndices flowLines))))
      by reflexivity.
    rewrite decide_False by exact Hid. apply lookup_empty.
  - apply relative_error_nonneg.
Qed.

(** * Normalisation is idempotent *)

Lemma normalizeStream_idempotent (activeComponents : list MineralComponent.t)
    (stream : DetailedStream.t) :
  normalizeStream activeComponents (normalizeStream activeComponents stream)
  = normalizeStream activeComponents stream.
Proof.
  pose proof (normalizeStream_total activeComponents stream) as H. cbv zeta in H.
  set (s' := normalizeStream activeComponents stream) in *.
  unfold normalizeStream at 1. cbv zeta.
  destruct H as [H|H].
  - apply Qltb_ge in H. now rewrite H.
  - apply Qltb_ge in H. rewrite H. now rewrite andb_false_r.
Qed.

(** X8. Normalising twice is normalising once: a stream that has been
    normalised sums to 100 within 0.01, or to nothing positive, and is left
    as it is by a second normalisation. *)
Theorem normalizeStreamCompositions_idempotent (streams : list DetailedStream.t)
    (activeComponents : list MineralComponent.t) :
  normalizeStreamCompositions (normalizeStreamCompositions streams activeComponents)
                              activeComponents
  = normalizeStreamCompositions streams activeComponents.
Proof.
  unfold normalizeStreamCompositions. rewrite <- list_fmap_compose.
  apply list_fmap_ext. intros i s _. apply normalizeStream_idempotent.
Qed.

(** * The coherence report *)

Lemma stream_findings_issues (activeComponents : list MineralComponent.t) (index : nat)
    (stream : DetailedStream.t) (r : Finding) :
  r ∈ stream_findings activeComponents index stream -> is_issue r = true.
Proof.
  unfold stream_findings. intros H.
  repeat (apply elem_of_app in H as [H|H]).
  - apply list_elem_of_bind in H as (comp & H & _).
    apply elem_of_app in H as [H|H].
    + destruct (Qltb _ 0); [|now apply elem_of_nil in H].
      apply list_elem_of_singleton in H. now subst r.
    + destruct (Qltb 100 _); [|now apply elem_of_nil in H].
      apply list_elem_of_singleton in H. now subst r.
  - destruct (Qltb 0.1 _); [|now apply elem_of_nil in H].
    apply list_elem_of_singleton in H. now subst r.
  - destruct (_ || _); [|now apply elem_of_nil in H].
    apply list_elem_of_singleton in H. now subst r.
  - destruct (Qle_bool _ 0); [|now apply elem_of_nil in H].
    apply list_elem_of_singleton in H. now subst r.
Qed.

Lemma bind_nil_iff {A B : Type} (f : A -> list B) (l : list A) :
  mbind f l = [] <-> forall x, x ∈ l -> f x = [].
Proof.
  induction l as [|a l IH]; simpl.
  - split; [intros _ x Hx; now apply elem_of_nil in Hx | reflexivity].
  - split.
    + intros H. apply app_eq_nil in H as [Ha Hl]. intros x Hx.
      apply elem_of_cons in Hx as [->|Hx]; [exact Ha|]. now apply IH.
    + intros H. rewrite (H a) by apply list_elem_of_here. simpl.
      apply IH. intros x Hx. apply H. now apply list_elem_of_further.
Qed.

Lemma stream_findings_none (activeComponents : list MineralComponent.t) (index : nat)
    (stream : DetailedStream.t) :
  stream_findings activeComponents index stream = []
  <-> (forall comp, comp ∈ activeComponents ->
         0 <= get0 (DetailedStream.componentPercentages stream) (MineralComponent.id comp)
              <= 100)
      /\ Qabs (totalPercentage activeComponents stream - 100) <= 0.1
      /\ 0 <= DetailedStream.solidPercent stream <= 100
      /\ 0 < DetailedStream.density stream.
Proof.
  unfold stream_findings. split.
  - intros H.
    apply app_eq_nil in H as [Hg H]. apply app_eq_nil in H as [Ht H].
    apply app_eq_nil in H as [Hs Hd].
    split; [|split; [|split]].
    + intros comp Hcomp.
      pose proof (proj1 (bind_nil_iff _ _) Hg comp Hcomp) as Hc. cbv beta zeta in Hc.
      apply app_eq_nil in Hc as [Hlo Hhi].
      destruct (Qltb (get0 (DetailedStream.componentPercentages stream)
                           (MineralComponent.id comp)) 0) eqn:E1; [discriminate Hlo|].
      destruct (Qltb 100 (get0 (DetailedStream.componentPercentages stream)
                               (MineralComponent.id comp))) eqn:E2; [discriminate Hhi|].
      apply Qltb_ge in E1, E2. split; assumption.
    + destruct (Qltb 0.1 _) eqn:E; [discriminate Ht|]. now apply Qltb_ge in E.
    + destruct (Qltb (DetailedStream.solidPercent stream) 0) eqn:E1; [discriminate Hs|].
      destruct (Qltb 100 (DetailedStream.solidPercent stream)) eqn:E2; [discriminate Hs|].
      apply Qltb_ge in E1, E2. split; assumption.
    + destruct (Qle_bool _ 0) eqn:E; [discriminate Hd|].
      apply Qnot_le_lt. intros Hle. apply Qle_bool_iff in Hle. congruence.
  - intros (Hg & Ht & [Hs1 Hs2] & Hd).
    match goal with
    | |- context [mbind ?f activeComponents] =>
      assert (E0 : mbind f activeComponents = [])
    end.
    { apply bind_nil_iff. intros comp Hcomp. cbv zeta.
      destruct (Hg comp Hcomp) as [Hlo Hhi].
      apply Qltb_ge in Hlo, Hhi. now rewrite Hlo, Hhi. }
    rewrite E0. apply Qltb_ge in Ht, Hs1, Hs2. rewrite Ht, Hs1, Hs2.
    assert (E : Qle_bool (DetailedStream.density stream) 0 = false).
    { apply not_true_iff_false. intros Hle. apply Qle_bool_iff in Hle. lra. }
    now rewrite E.
Qed.

Lemma join_imap_nil_iff {A B : Type} (f : nat -> A -> list B) (l : list A) :
  mjoin (imap f l) = [] <-> forall i x, l !! i = Some x -> f i x = [].
Proof.
  revert f. induction l as [|a l IH]; intros f; simpl.
  - split; [intros _ i x Hx; discriminate Hx | reflexivity].
  - split.
    + intros H. apply app_eq_nil in H as [Ha Hl]. intros [|i] x Hx.
      * injection Hx as <-. exact Ha.
      * apply (proj1 (IH (f ∘ S)) Hl i x Hx).
    + intros H. rewrite (H 0%nat a eq_refl). simpl.
      apply IH. intros i x Hx. apply (H (S i) x Hx).
Qed.

Lemma evaluateCoherence_all_coherent (streams : list DetailedStream.t)
    (activeComponents : list MineralComponent.t) :
  evaluateCoherence streams activeComponents = [AllCoherent]
  <-> forall i s, streams !! i = Some s -> stream_findings activeComponents i s = [].
Proof.
  unfold evaluateCoherence. rewrite <- join_imap_nil_iff.
  destruct (mjoin (imap (stream_findings activeComponents) streams)) as [|r report] eqn:E.
  - split; reflexivity.
  - split; [|discriminate]. intros H. exfalso.
    injection H as -> ->.
    assert (Hin : AllCoherent ∈ mjoin (imap (stream_findings activeComponents) streams)).
    { rewrite E. apply list_elem_of_here. }
    apply list_elem_of_join in Hin as (l & Hin & Hl).
    apply list_elem_of_lookup in Hl as (i & Hl).
    rewrite list_lookup_imap in Hl.
    destruct (streams !! i) as [s|]; [|discriminate Hl]. injection Hl as <-.
    apply stream_findings_issues in Hin. discriminate Hin.
Qed.

Lemma evaluateCoherence_clean_iff (streams : list DetailedStream.t)
    (activeComponents : list MineralComponent.t) :
  evaluateCoherence streams activeComponents = [AllCoherent]
  <-> forall s, s ∈ streams ->
        (forall comp, comp ∈ activeComponents ->
           0 <= get0 (DetailedStream.componentPercentages s) (MineralComponent.id comp)
                <= 100)
        /\ Qabs (totalPercentage activeComponents s - 100) <= 0.1
        /\ 0 <= DetailedStream.solidPercent s <= 100
        /\ 0 < DetailedStream.density s.
Proof.
  rewrite evaluateCoherence_all_coherent. split.
  - intros H s Hs. apply list_elem_of_lookup in Hs as (i & Hi).
    apply (stream_findings_none activeComponents i). now apply H.
  - intros H i s Hi. apply stream_findings_none. apply H.
    eapply list_elem_of_lookup_2. exact Hi.
Qed.

(** X9. The coherence report is the success marker alone exactly when every
    stream passes every check: each active component's percentage is
    between 0 and 100, the percentages sum to 100 within 0.1, the solids
    percent is between 0 and 100 and the density is positive. *)
Theorem coherence_report_sound_and_complete (streams : list DetailedStream.t)
    (activeComponents : list MineralComponent.t) :
  evaluateCoherence streams activeComponents = [AllCoherent]
  <-> forall s, s ∈ streams ->
        (forall comp, comp ∈ activeComponents ->
           0 <= get0 (DetailedStream.componentPercentages s) (MineralComponent.id comp)
                <= 100)
        /\ Qabs (totalPercentage activeComponents s - 100) <= 0.1
        /\ 0 <= DetailedStream.solidPercent s <= 100
        /\ 0 < DetailedStream.density s.
Proof. apply evaluateCoherence_clean_iff. Qed.

(** * The convergence test *)

Lemma math_max_fin (l : list Q) : l <> [] -> exists m, math_max l = Fin m.
Proof.
  induction l as [|a l IH]; [congruence|]. intros _. cbn [math_max foldr].
  destruct l as [|b l].
  - cbn [foldr]. eauto.
  - destruct IH as [m Hm]; [discriminate|].
    unfold math_max in Hm. rewrite Hm. cbn [max]. eauto.
Qed.

Lemma math_max_below (l : list Q) (t : Q) :
  l <> [] -> (forall q, q ∈ l -> q < t) -> ltb (math_max l) (Fin t) = true.
Proof.
  induction l as [|a l IH]; [congruence|]. intros _ H. cbn [math_max foldr].
  destruct l as [|b l].
  - cbn [foldr max ltb]. apply Qltb_lt. apply H. left.
  - assert (Hl : ltb (math_max (b :: l)) (Fin t) = true).
    { apply IH; [discriminate|]. intros q Hq. apply H. now right. }
    destruct (math_max_fin (b :: l)) as [m Hm]; [discriminate|].
    unfold math_max in Hm, Hl. rewrite Hm in Hl |- *. cbn [max ltb] in Hl |- *.
    apply Qltb_lt. apply Qltb_lt in Hl. apply Q.max_lub_lt; [|exact Hl].
    apply H. left.
Qed.

Lemma values_by_component (activeComponents : list MineralComponent.t) (h : string -> Q)
    (q : Q) :
  q ∈ values (by_component activeComponents (fun c => h (MineralComponent.id c))) ->
  exists comp, comp ∈ activeComponents /\ q = h (MineralComponent.id comp).
Proof.
  unfold values. intros H. apply list_elem_of_fmap in H as ([k x] & -> & Hkx).
  apply elem_of_map_to_list in Hkx. unfold by_component in Hkx.
  rewrite (by_component_fold_lookup _ h) in Hkx by reflexivity.
  case_decide as Hk; [|now rewrite lookup_empty in Hkx].
  injection Hkx as <-. apply list_elem_of_fmap in Hk as (comp & -> & Hcomp).
  exists comp. split; [exact Hcomp | reflexivity].
Qed.

(** X11. The convergence test passes exactly when the tolerance is positive
    and the relative error of every active component is strictly below it;
    components are the only thing tested, the bulk flow is not. *)
Theorem convergence_test_characterised (streams : list DetailedStream.t)
    (flowLines : list FlowLine.t) (activeComponents : list MineralComponent.t)
    (tolerance : Q) :
  fst (checkConvergence streams flowLines activeComponents tolerance) = true
  <-> 0 < tolerance
      /\ forall comp, comp ∈ activeComponents ->
           relative_error (input_mass streams flowLines (MineralComponent.id comp))
                          (output_mass streams flowLines (MineralComponent.id comp))
           < tolerance.
Proof.
  split.
  - intros H. split.
    + eapply checkConvergence_needs_positive_tolerance. exact H.
    + intros comp Hcomp. exact (checkConvergence_sound _ _ _ _ comp H Hcomp).
  - intros [Htol Herr]. unfold checkConvergence. cbn [fst].
    apply math_max_below.
    + intros H. apply app_eq_nil in H as [_ H]. discriminate H.
    + intros q Hq. apply elem_of_app in Hq as [Hq|Hq].
      * unfold calculateComponentErrors in Hq.
        apply (values_by_component activeComponents
                 (fun id => relative_error
                              (total_over (mass_of id) streams (inputIndices flowLines))
                              (total_over (mass_of id) streams (outputIndices flowLines))))
          in Hq as (comp & Hcomp & ->).
        now apply Herr.
      * apply list_elem_of_singleton in Hq as ->. exact Htol.
Qed.

(** * Transfer functions: what they conserve *)

Lemma valid_array_length_count (n : Q) :
  valid_array_length n = true -> Qnat (loop_count n) == n.
Proof.
  unfold valid_array_length, loop_count, Qnat. intros H.
  apply andb_true_iff in H as [H _]. apply andb_true_iff in H as [Hint Hpos].
  apply Qeq_bool_iff in Hint. apply Qle_bool_iff in Hpos.
  assert (Hc : Qceiling n = Qfloor n).
  { rewrite (Qceiling_comp _ _ Hint). apply Qceiling_Z. }
  rewrite Hc.
  assert (Hz : (0 <= Qfloor n)%Z).
  { apply (Qfloor_resp_le 0 n) in Hpos. exact Hpos. }
  rewrite Z2Nat.id by exact Hz. symmetry. exact Hint.
Qed.

Lemma get0_by_component (activeComponents : list MineralComponent.t)
    (f : MineralComponent.t -> Q) (h : string -> Q) (comp : MineralComponent.t) :
  (forall c, f c = h (MineralComponent.id c)) ->
  comp ∈ activeComponents ->
  get0 (by_component activeComponents f) (MineralComponent.id comp)
  == h (MineralComponent.id comp).
Proof.
  intros Hf Hcomp. apply get0_eq. now apply (by_component_lookup _ h).
Qed.

Lemma Qsum_pair (a b : Q) : Qsum [a; b] == a + b.
Proof. unfold Qsum. simpl. ring. Qed.

Lemma mixer_split_fraction (parameters : EquipmentParameters.t) (numOutputs : Q)
    (splits : list Q) (i : nat) :
  EquipmentParameters.splits parameters = None ->
  mixer_splits parameters numOutputs = Returns splits ->
  opt_or (splits !! i) (100 / numOutputs) = 100 / numOutputs.
Proof.
  unfold mixer_splits. intros -> H.
  destruct (valid_array_length numOutputs); [|discriminate H]. injection H as <-.
  destruct (replicate _ _ !! i) as [x|] eqn:E; [|reflexivity].
  apply lookup_replicate in E as [-> _]. unfold opt_or, or_else.
  now destruct (Qeq_bool _ 0).
Qed.

(** In the exact arithmetic of the model the products of a transfer
    function add up to its inputs, in bulk flow and in every active
    component. *)
Lemma transfer_conserves_in_exact_arithmetic (equipment : Equipment.t)
    (inputStreams : list DetailedStream.t) (activeComponents : list MineralComponent.t) :
  inputStreams <> [] ->
  (Equipment.type equipment = mixer ->
   EquipmentParameters.splits (Equipment.parameters equipment) = None
   /\ valid_array_length
        (opt_or (EquipmentParameters.numberOfOutputs (Equipment.parameters equipment)) 1)
      = true) ->
  exists outputStreams,
    calculateEquipmentBalanceWithClosure equipment inputStreams activeComponents
    = Returns outputStreams
    /\ Qsum (DetailedStream.flowRate <$> outputStreams)
       == Qsum (DetailedStream.flowRate <$> inputStreams)
    /\ forall comp, comp ∈ activeComponents ->
         Qsum (mass_of (MineralComponent.id comp) <$> outputStreams)
         == Qsum (mass_of (MineralComponent.id comp) <$> inputStreams).
Proof.
  intros Hne Hmix.
  destruct inputStreams as [|input rest]; [congruence|].
  set (inputStreams := input :: rest) in *.
  set (parameters := Equipment.parameters equipment) in *.
  set (F := Qsum (DetailedStream.flowRate <$> inputStreams)).
  assert (Hflot : Equipment.type equipment = rougher \/ Equipment.type equipment = cleaner
                  \/ Equipment.type equipment = recleaner ->
            exists outputStreams,
              calculateEquipmentBalanceWithClosure equipment inputStreams activeComponents
              = Returns outputStreams
              /\ Qsum (DetailedStream.flowRate <$> outputStreams) == F
              /\ forall comp, comp ∈ activeComponents ->
                   Qsum (mass_of (MineralComponent.id comp) <$> outputStreams)
                   == Qsum (mass_of (MineralComponent.id comp) <$> inputStreams)).
  { intros Ht.
    set (hc := fun id => or_else (totalInputComponentMass inputStreams id) 0
                         * (componentRecovery parameters
                              (opt_or (EquipmentParameters.recovery parameters) 85) id / 100)).
    set (ht := fun id => or_else (totalInputComponentMass inputStreams id) 0 - hc id).
    exists (flotation parameters input inputStreams activeComponents F). split.
    { unfold calculateEquipmentBalanceWithClosure, inputStreams.
      destruct Ht as [->| [->| ->]]; reflexivity. }
    split.
    { unfold flotation. cbv zeta. rewrite !fmap_cons, fmap_nil, Qsum_pair. simpl. ring. }
    intros comp Hcomp. unfold flotation. cbv zeta.
    rewrite !fmap_cons, fmap_nil, Qsum_pair.
    match goal with
    | |- ?a + ?b == _ =>
      assert (Ha : a == hc (MineralComponent.id comp))
        by (apply (get0_by_component _ _ hc); [reflexivity | exact Hcomp]);
      assert (Hb : b == ht (MineralComponent.id comp))
        by (apply (get0_by_component _ _ ht); [reflexivity | exact Hcomp]);
      rewrite Ha, Hb
    end.
    unfold ht. fold (totalInputComponentMass inputStreams (MineralComponent.id comp)).
    rewrite or_else_eq. ring. }
  destruct (Equipment.type equipment) eqn:Et.
  1,2: exists (pass_through parameters <$> inputStreams); split;
    [unfold calculateEquipmentBalanceWithClosure, inputStreams; now rewrite Et
    | split; [|intros comp _]; rewrite <- list_fmap_compose; reflexivity ].
  1,2,3: apply Hflot; auto.
  destruct (Hmix eq_refl) as [Hs Hv].
  set (n := opt_or (EquipmentParameters.numberOfOutputs parameters) 1) in *.
  assert (Hn : ~ n == 0).
  { unfold n, opt_or. destruct (EquipmentParameters.numberOfOutputs parameters).
    - apply or_else_nonzero. lra.
    - lra. }
  destruct (mixer_splits parameters n) as [splits|e] eqn:Esplits.
  2:{ unfold mixer_splits in Esplits. fold parameters in Hs. rewrite Hs, Hv in Esplits.
      discriminate Esplits. }
  pose proof (fun i => mixer_split_fraction parameters n splits i Hs Esplits) as Hfrac.
  pose proof (valid_array_length_count n Hv) as Hcount.
  eexists. split.
  { unfold calculateEquipmentBalanceWithClosure, inputStreams. rewrite Et.
    fold parameters. fold n. rewrite Esplits. cbn [bind]. reflexivity. }
  fold inputStreams. split.
  - rewrite <- list_fmap_compose.
    rewrite (Qsum_fmap_ext _ (fun _ => F * (100 / n / 100))).
    + rewrite Qsum_fmap_const, length_seq, Hcount. field. exact Hn.
    + intros i _. unfold compose. cbn [mixer_output DetailedStream.flowRate].
      rewrite Hfrac. reflexivity.
  - intros comp Hcomp. rewrite <- list_fmap_compose.
    rewrite (Qsum_fmap_ext _ (fun _ =>
               totalInputComponentMass inputStreams (MineralComponent.id comp)
               * (100 / n / 100))).
    + rewrite Qsum_fmap_const, length_seq, Hcount.
      unfold totalInputComponentMass. field. exact Hn.
    + intros i _. unfold compose, mass_of at 1.
      cbn [mixer_output DetailedStream.componentMass]. rewrite Hfrac.
      apply (get0_by_component _ _
               (fun id => totalInputComponentMass inputStreams id * (100 / n / 100)));
        [reflexivity | exact Hcomp].
Qed.

(** X12. Every transfer function conserves the bulk flow and the mass of
    every active component, up to rounding: on a non-empty input the
    products' flow rates add up to the inputs' and, for each active
    component, the products' masses add up to the inputs'.  For a mixer
    this is with no splits configured and a number of outputs that is a
    valid array length: each output then takes the share 1/n. *)
Theorem transfer_conserves_flow_and_components (equipment : Equipment.t)
    (inputStreams : list DetailedStream.t) (activeComponents : list MineralComponent.t) :
  inputStreams <> [] ->
  (Equipment.type equipment = mixer ->
   EquipmentParameters.splits (Equipment.parameters equipment) = None
   /\ valid_array_length
        (opt_or (EquipmentParameters.numberOfOutputs (Equipment.parameters equipment)) 1)
      = true) ->
  exists outputStreams,
    calculateEquipmentBalanceWithClosure equipment inputStreams activeComponents
    = Returns outputStreams
    /\ agrees (Qsum (DetailedStream.flowRate <$> outputStreams))
              (Qsum (DetailedStream.flowRate <$> inputStreams))
    /\ forall comp, comp ∈ activeComponents ->
         agrees (Qsum (mass_of (MineralComponent.id comp) <$> outputStreams))
                (Qsum (mass_of (MineralComponent.id comp) <$> inputStreams)).
Proof.
  intros Hne Hmix.
  destruct (transfer_conserves_in_exact_arithmetic equipment inputStreams activeComponents
              Hne Hmix) as (outputStreams & Hret & Hflow & Hmass).
  exists outputStreams. split; [exact Hret|]. split.
  - apply agrees_of_eq. exact Hflow.
  - intros comp Hcomp. apply agrees_of_eq. now apply Hmass.
Qed.

Lemma transfer_conserves_flow_and_components_witness :
  exists outputStreams,
    calculateEquipmentBalanceWithClosure two_way_mixer [stream_of assayed_feed [fe; si]]
                                         [fe; si] = Returns outputStreams
    /\ length outputStreams = 2%nat
    /\ agrees (Qsum (DetailedStream.flowRate <$> outputStreams)) 1000
    /\ agrees (Qsum (mass_of (MineralComponent.id fe) <$> outputStreams)) 245.
Proof.
  assert (Hne : [stream_of assayed_feed [fe; si]] <> []) by discriminate.
  assert (Hmix : Equipment.type two_way_mixer = mixer ->
                 EquipmentParameters.splits (Equipment.parameters two_way_mixer) = None
                 /\ valid_array_length
                      (opt_or (EquipmentParameters.numberOfOutputs
                                 (Equipment.parameters two_way_mixer)) 1) = true).
  { intros _. split; [reflexivity | vm_compute; reflexivity]. }
  destruct (transfer_conserves_flow_and_components two_way_mixer
              [stream_of assayed_feed [fe; si]] [fe; si] Hne Hmix)
    as (outputStreams & Hret & Hflow & Hmass).
  exists outputStreams. split; [exact Hret|]. split.
  { vm_compute in Hret. injection Hret as <-. reflexivity. }
  split.
  - eapply agrees_proper; [reflexivity | | exact Hflow]. reflexivity.
  - eapply agrees_proper; [reflexivity | | apply Hmass; left]. reflexivity.
Defined.

(** X13. A flotation cell splits the bulk flow at fixed ratios, whatever
    the feed holds and whatever recovery is configured: the concentrate
    takes 30 % of the total input flow at 65 % solids and the tailing 70 %
    at 35 % solids (the flows up to rounding).  The products' solids
    therefore add up to 44 % of the input flow, not to the solids of the
    feed. *)
Theorem flotation_splits_flow_at_fixed_ratios (equipment : Equipment.t)
    (inputStreams : list DetailedStream.t) (activeComponents : list MineralComponent.t) :
  is_flotation (Equipment.type equipment) = true ->
  inputStreams <> [] ->
  let F := Qsum (DetailedStream.flowRate <$> inputStreams) in
  exists concentrate tailing,
    calculateEquipmentBalanceWithClosure equipment inputStreams activeComponents
    = Returns [concentrate; tailing]
    /\ agrees (DetailedStream.flowRate concentrate) (0.3 * F)
    /\ agrees (DetailedStream.flowRate tailing) (0.7 * F)
    /\ DetailedStream.solidPercent concentrate = 65
    /\ DetailedStream.solidPercent tailing = 35
    /\ agrees (DetailedStream.solidFlow concentrate + DetailedStream.solidFlow tailing)
              (0.44 * F)
    /\ agrees (DetailedStream.waterFlow concentrate + DetailedStream.waterFlow tailing)
              (0.56 * F).
Proof.
  intros Hfl Hne F.
  destruct inputStreams as [|input rest]; [congruence|].
  set (inputStreams := input :: rest) in *.
  exists (flotation_product input activeComponents (F * 0.3) 65 (F * 0.3 * 0.65)
            (fun comp =>
               or_else (totalInputComponentMass inputStreams (MineralComponent.id comp)) 0
               * (componentRecovery (Equipment.parameters equipment)
                    (opt_or (EquipmentParameters.recovery (Equipment.parameters equipment)) 85)
                    (MineralComponent.id comp) / 100))).
  eexists. split.
  { unfold calculateEquipmentBalanceWithClosure, inputStreams.
    destruct (Equipment.type equipment); try discriminate Hfl;
      unfold flotation; cbv zeta; reflexivity. }
  cbn [flotation_product DetailedStream.flowRate DetailedStream.solidPercent
       DetailedStream.solidFlow DetailedStream.waterFlow].
  repeat split; try reflexivity; apply agrees_of_eq; subst F; subst inputStreams; ring.
Qed.

Lemma flotation_splits_flow_at_fixed_ratios_witness :
  exists concentrate tailing,
    calculateEquipmentBalanceWithClosure rougher_cell [stream_of assayed_feed [fe; si]] [fe; si]
    = Returns [concentrate; tailing]
    /\ agrees (DetailedStream.solidFlow concentrate + DetailedStream.solidFlow tailing) 440
    /\ agrees (DetailedStream.solidFlow (stream_of assayed_feed [fe; si])) 700.
Proof.
  assert (Hfl : is_flotation (Equipment.type rougher_cell) = true) by reflexivity.
  assert (Hne : [stream_of assayed_feed [fe; si]] <> []) by discriminate.
  destruct (flotation_splits_flow_at_fixed_ratios rougher_cell
              [stream_of assayed_feed [fe; si]] [fe; si] Hfl Hne)
    as (concentrate & tailing & Hret & _ & _ & _ & _ & Hsolids & _).
  exists concentrate, tailing. split; [exact Hret|]. split.
  - eapply agrees_proper; [reflexivity | | exact Hsolids]. reflexivity.
  - apply agrees_of_eq. reflexivity.
Defined.

(** * Writes happen where the flowsheet says *)

Lemma findIndex_Some (id : string) (flowLines : list FlowLine.t) (j : nat) :
  findIndex id flowLines = Some j ->
  exists fl, flowLines !! j = Some fl /\ FlowLine.id fl = id.
Proof.
  unfold findIndex. intros H.
  destruct (list_find (fun fl => FlowLine.id fl = id) flowLines) as [[k fl]|] eqn:E;
    [|discriminate H].
  injection H as <-. apply list_find_Some in E as (Hk & Hid & _). eauto.
Qed.

Lemma write_outputs_other (outputStreamIds : list string)
    (outputStreams : list DetailedStream.t) (flowLines : list FlowLine.t)
    (streams : list DetailedStream.t) (j : nat) :
  (forall streamId, streamId ∈ outputStreamIds -> findIndex streamId flowLines <> Some j) ->
  write_outputs outputStreamIds outputStreams flowLines streams !! j = streams !! j.
Proof.
  intros H. unfold write_outputs.
  assert (G : forall (l : list (nat * string)) (strs : list DetailedStream.t),
             (forall p, p ∈ l -> findIndex (snd p) flowLines <> Some j) ->
             foldl (fun strs '(index, streamId) =>
                      match outputStreams !! index, findIndex streamId flowLines with
                      | Some out, Some streamIndex => <[streamIndex := out]> strs
                      | _, _ => strs
                      end) strs l !! j = strs !! j).
  { induction l as [|[index streamId] l IH]; intros strs Hl; [reflexivity|].
    cbn [foldl]. rewrite IH by (intros p Hp; apply Hl; now right).
    specialize (Hl (index, streamId) ltac:(left)). cbn [snd] in Hl.
    destruct (outputStreams !! index); [|reflexivity].
    destruct (findIndex streamId flowLines) as [k|]; [|reflexivity].
    apply list_lookup_insert_ne. congruence. }
  apply G. intros [index streamId] Hp. cbn [snd]. apply H.
  apply list_elem_of_lookup in Hp as (i & Hi).
  rewrite list_lookup_imap in Hi.
  destruct (outputStreamIds !! i) as [x|] eqn:E; [|discriminate Hi].
  injection Hi as _ <-. eapply list_elem_of_lookup_2. exact E.
Qed.

(** X14. Processing an equipment rewrites only streams that leave it: with
    a stream for every flow line, the stream of a flow line whose id is the
    id of no flow line leaving the equipment is left exactly as it was.
    (Products are written back through the first flow line that carries
    the id, so ids are what counts.) *)
Theorem process_equipment_writes_only_products (flowLines : list FlowLine.t)
    (activeComponents : list MineralComponent.t) (streams streams' : list DetailedStream.t)
    (equipment : Equipment.t) (j : nat) (fl : FlowLine.t) :
  length streams = length flowLines ->
  flowLines !! j = Some fl ->
  (forall fl', fl' ∈ flowLines ->
     FlowLine.fromEquipment fl' = Some (Equipment.id equipment) ->
     FlowLine.id fl' <> FlowLine.id fl) ->
  process_equipment flowLines activeComponents streams equipment = Returns streams' ->
  streams' !! j = streams !! j.
Proof.
  intros _ Hj Hother. unfold process_equipment.
  destruct (streams_of _ flowLines streams) as [|s l]; [intros H; now injection H as <-|].
  destruct (calculateEquipmentBalanceWithClosure _ _ _) as [outs|e]; cbn [bind];
    intros H; [|discriminate H].
  injection H as <-. apply write_outputs_other.
  intros streamId Hid Hfind.
  apply list_elem_of_fmap in Hid as (fl' & -> & Hfl').
  apply list_elem_of_filter in Hfl' as [Hfrom Hin].
  apply findIndex_Some in Hfind as (x & Hx & Hxid).
  rewrite Hj in Hx. injection Hx as <-.
  apply (Hother fl' Hin Hfrom). now symmetry.
Qed.

Lemma process_equipment_writes_only_products_witness :
  exists streams',
    process_equipment [feed; empty_product] [fe]
      [stream_of feed [fe]; stream_of empty_product [fe]] mill = Returns streams'
    /\ streams' !! 0%nat = Some (stream_of feed [fe]).
Proof.
  destruct (process_equipment [feed; empty_product] [fe]
              [stream_of feed [fe]; stream_of empty_product [fe]] mill) as [streams'|e] eqn:E.
  2:{ exfalso. vm_compute in E. discriminate E. }
  exists streams'. split; [reflexivity|].
  apply (process_equipment_writes_only_products [feed; empty_product] [fe]
           [stream_of feed [fe]; stream_of empty_product [fe]] streams' mill 0%nat feed
           eq_refl eq_refl); [|exact E].
  intros fl' Hin Hfrom.
  apply elem_of_cons in Hin as [->|Hin]; [discriminate Hfrom|].
  apply list_elem_of_singleton in Hin as ->. discriminate.
Defined.

(** * The closures write on the boundary only *)

Lemma update_at_other (f : DetailedStream.t -> DetailedStream.t) (indices : list nat)
    (streams : list DetailedStream.t) (j : nat) :
  j ∉ indices -> update_at f indices streams !! j = streams !! j.
Proof.
  unfold update_at. revert streams.
  induction indices as [|i l IH]; intros streams Hj; [reflexivity|].
  cbn [foldl]. rewrite IH by (intros H; apply Hj; now right).
  apply list_lookup_alter_ne. intros ->. apply Hj. now left.
Qed.

Lemma present_subset (streams : list DetailedStream.t) (indices : list nat) (j : nat) :
  j ∉ indices -> j ∉ present streams indices.
Proof.
  unfold present. intros Hj H. apply list_elem_of_filter in H as [_ H]. contradiction.
Qed.

Lemma foldl_lookup_invariant {A B : Type} (step : list A -> B -> list A) (l : list B)
    (start : list A) (j : nat) :
  (forall strs b, step strs b !! j = strs !! j) ->
  foldl step start l !! j = start !! j.
Proof.
  intros H. revert start. induction l as [|b l IH]; intros start; [reflexivity|].
  cbn [foldl]. now rewrite IH, H.
Qed.

Lemma close_component_interior (inputs outputs : list nat) (streams : list DetailedStream.t)
    (comp : MineralComponent.t) (j : nat) :
  j ∉ inputs -> j ∉ outputs ->
  close_component inputs outputs streams comp !! j = streams !! j.
Proof.
  intros Hi Ho. unfold close_component. cbv zeta.
  case_tests; repeat (rewrite update_at_other; [|auto using present_subset]); reflexivity.
Qed.

Lemma global_component_interior (inputs outputs : list nat) (streams : list DetailedStream.t)
    (comp : MineralComponent.t) (j : nat) :
  j ∉ inputs -> j ∉ outputs ->
  global_component inputs outputs streams comp !! j = streams !! j.
Proof.
  intros Hi Ho. unfold global_component. cbv zeta.
  case_tests; repeat (rewrite update_at_other; [|auto using present_subset]); reflexivity.
Qed.

Lemma indices_where_elem (p : FlowLine.t -> bool) (flowLines : list FlowLine.t) (j : nat) :
  j ∈ indices_where p flowLines <-> exists fl, flowLines !! j = Some fl /\ p fl = true.
Proof.
  unfold indices_where. rewrite list_elem_of_filter, elem_of_seq. split.
  - intros [H _]. destruct (flowLines !! j) as [fl|]; [eauto | discriminate H].
  - intros (fl & Hfl & Hp). rewrite Hfl. split; [exact Hp|].
    apply lookup_lt_Some in Hfl. lia.
Qed.

(** X15. Both closures write on the boundary of the circuit only: the
    stream of a flow line that has an equipment at both ends comes out of
    [applyMassBalanceClosure] and of [applyGlobalMassBalanceWithClosure]
    exactly as it went in. *)
Theorem closures_leave_interior_streams (streams : list DetailedStream.t)
    (flowLines : list FlowLine.t) (activeComponents : list MineralComponent.t)
    (j : nat) (fl : FlowLine.t) :
  flowLines !! j = Some fl ->
  has_id (FlowLine.fromEquipment fl) = true ->
  has_id (FlowLine.toEquipment fl) = true ->
  applyMassBalanceClosure streams flowLines activeComponents !! j = streams !! j
  /\ applyGlobalMassBalanceWithClosure streams flowLines activeComponents !! j
     = streams !! j.
Proof.
  intros Hj Hfrom Hto.
  assert (Hi : j ∉ inputIndices flowLines).
  { unfold inputIndices. rewrite indices_where_elem. intros (x & Hx & Hp).
    rewrite Hj in Hx. injection Hx as <-. rewrite Hfrom in Hp. discriminate Hp. }
  assert (Ho : j ∉ outputIndices flowLines).
  { unfold outputIndices. rewrite indices_where_elem. intros (x & Hx & Hp).
    rewrite Hj in Hx. injection Hx as <-. rewrite Hto in Hp. discriminate Hp. }
  split.
  - unfold applyMassBalanceClosure.
    destruct (_ || _); [reflexivity|]. cbv zeta.
    rewrite foldl_lookup_invariant by (intros; now apply close_component_interior).
    case_tests; repeat (rewrite update_at_other; [|auto using present_subset]); reflexivity.
  - unfold applyGlobalMassBalanceWithClosure.
    destruct (_ || _); [reflexivity|]. cbv zeta.
    case_tests; repeat (rewrite update_at_other; [|auto using present_subset]);
      apply foldl_lookup_invariant; intros; now apply global_component_interior.
Qed.

Lemma closures_leave_interior_streams_witness :
  let flowLines := [feed; middle_line; assayed_product] in
  let streams := (fun fl => stream_of fl [fe]) <$> flowLines in
  applyMassBalanceClosure streams flowLines [fe] !! 1%nat = streams !! 1%nat
  /\ applyGlobalMassBalanceWithClosure streams flowLines [fe] !! 1%nat = streams !! 1%nat.
Proof.
  intros flowLines streams.
  apply (closures_leave_interior_streams streams flowLines [fe] 1%nat middle_line);
    reflexivity.
Defined.

(** * The closures close *)

Lemma total_over_untouched (q : DetailedStream.t -> Q) (f : DetailedStream.t -> DetailedStream.t)
    (written indices : list nat) (streams : list DetailedStream.t) :
  (forall idx, idx ∈ indices -> idx ∉ written) ->
  total_over q (update_at f written streams) indices = total_over q streams indices.
Proof.
  intros H. unfold total_over. f_equal. apply list_fmap_ext. intros i idx Hidx.
  rewrite update_at_other; [reflexivity|]. apply H. eapply list_elem_of_lookup_2. exact Hidx.
Qed.

Lemma attached_disjoint (flowLines : list FlowLine.t) :
  every_line_attached flowLines ->
  forall idx, idx ∈ inputIndices flowLines -> idx ∉ outputIndices flowLines.
Proof.
  intros Hatt idx Hin Hout.
  apply indices_where_elem in Hin as (fl & Hfl & Hi).
  apply indices_where_elem in Hout as (fl' & Hfl' & Ho).
  rewrite Hfl in Hfl'. injection Hfl' as <-.
  assert (Hmem : fl ∈ flowLines) by (eapply list_elem_of_lookup_2; exact Hfl).
  specialize (Hatt fl Hmem).
  destruct (has_id (FlowLine.fromEquipment fl)), (has_id (FlowLine.toEquipment fl));
    discriminate.
Qed.

Lemma Qnat_pos (l : list nat) : l <> [] -> 0 < Qnat (length l).
Proof.
  unfold Qnat. destruct l; [congruence|]. intros _.
  cbn [length]. rewrite Nat2Z.inj_succ. unfold Qlt. simpl. lia.
Qed.

Lemma length_pos_ltb (l : list nat) : l <> [] -> Nat.ltb 0 (length l) = true.
Proof. destruct l; [congruence | reflexivity]. Qed.

(** One round of the first closure, for the component of the round. *)
Lemma close_component_closes (inputs outputs : list nat) (pre : list DetailedStream.t)
    (comp : MineralComponent.t) :
  let id := MineralComponent.id comp in
  let totalInput := total_over (mass_of id) pre inputs in
  let totalOutput := total_over (mass_of id) pre outputs in
  let closed := close_component inputs outputs pre comp in
  NoDup outputs ->
  (forall idx, idx ∈ inputs -> idx ∉ outputs) ->
  0 < totalInput -> ~ totalOutput == 0 ->
  total_over (mass_of id) closed inputs = totalInput
  /\ Qabs (totalInput - total_over (mass_of id) closed outputs) <= 0.001.
Proof.
  intros id totalInput totalOutput closed Hnd Hdisj Hin Hout.
  unfold closed, close_component. fold id. fold totalInput. fold totalOutput.
  assert (Hz : Qeq_bool totalInput 0 = false) by (apply Qeq_bool_false; lra).
  rewrite Hz. cbn [andb].
  assert (Hpos : Qltb 0 totalInput = true) by now apply Qltb_lt.
  rewrite Hpos. cbn [andb].
  destruct (Qltb 0.001 (Qabs (totalInput - totalOutput))) eqn:Ed.
  - rewrite or_else_keeps by now apply Qeq_bool_false.
    split; [now apply total_over_untouched|].
    rewrite (total_over_update (mass_of id) _ (fun x => x * (totalInput / totalOutput)));
      [ | exact Hnd | | ring].
    + rewrite (Qsum_fmap_scale
                 (fun idx => match pre !! idx with
                             | Some s => or_else (mass_of id s) 0
                             | None => 0
                             end)).
      fold (total_over (mass_of id) pre outputs). fold totalOutput.
      assert (Heq : totalInput - totalOutput * (totalInput / totalOutput) == 0)
        by (field; exact Hout).
      rewrite Heq. apply Qabs_Qle_condition. lra.
    + intros s. rewrite mass_of_scale_mass_same, or_else_eq. reflexivity.
  - split; [reflexivity|]. fold totalOutput. apply (proj1 (Qltb_ge _ _)). exact Ed.
Qed.

(** One round of the global closure, for the component of the round. *)
Lemma global_component_closes (inputs outputs : list nat) (pre : list DetailedStream.t)
    (comp : MineralComponent.t) :
  let id := MineralComponent.id comp in
  let totalInput := total_over (mass_of id) pre inputs in
  let corrected := global_component inputs outputs pre comp in
  NoDup outputs ->
  (forall idx, idx ∈ outputs -> (idx < length pre)%nat) ->
  outputs <> [] ->
  (forall idx, idx ∈ inputs -> idx ∉ outputs) ->
  0 < totalInput ->
  total_over (mass_of id) corrected inputs = totalInput
  /\ Qabs (totalInput - total_over (mass_of id) corrected outputs)
     <= 0.01 * total_over (mass_of id) corrected outputs.
Proof.
  intros id totalInput corrected Hnd Hlt Hne Hdisj Hin.
  unfold corrected, global_component. fold id. fold totalInput.
  set (totalOutput := total_over (mass_of id) pre outputs).
  assert (Hpos : Qltb 0 totalInput = true) by now apply Qltb_lt.
  rewrite Hpos. rewrite present_all by exact Hlt. rewrite (length_pos_ltb _ Hne).
  destruct (Qeq_bool totalOutput 0
            || Qltb 0.01 (Qabs (totalInput / or_else totalOutput 0.001 - 1))) eqn:Ec.
  - split; [now apply total_over_untouched|].
    rewrite (total_over_update_const (mass_of id) _ (totalInput / Qnat (length outputs)));
      [ | exact Hnd | exact Hlt | intros s; apply mass_of_set_mass_same].
    pose proof (Qnat_pos outputs Hne) as Hn.
    assert (Heq : Qnat (length outputs) * (totalInput / Qnat (length outputs)) == totalInput)
      by (field; lra).
    rewrite Heq.
    assert (Hz : totalInput - totalInput == 0) by ring.
    rewrite Hz. change (Qabs 0) with 0. lra.
  - split; [reflexivity|]. fold totalOutput.
    apply orb_false_iff in Ec as [Ez Ed].
    rewrite or_else_keeps in Ed by exact Ez.
    apply Qeq_bool_false in Ez. apply Qltb_ge in Ed.
    apply Qabs_Qle_condition in Ed as [Hlo Hhi].
    assert (Heq : totalInput / totalOutput * totalOutput == totalInput) by (field; exact Ez).
    set (ratio := totalInput / totalOutput) in *.
    assert (Hout : 0 < totalOutput).
    { destruct (Qlt_le_dec 0 totalOutput) as [H|H]; [exact H|]. exfalso.
      assert (Hprod : ratio * totalOutput <= 0).
      { assert (Hopp : ratio * totalOutput == - (ratio * - totalOutput)) by ring.
        assert (0 <= ratio * - totalOutput) by (apply Qmult_le_0_compat; lra). lra. }
      lra. }
    assert (Hlo' : 0.99 * totalOutput <= totalInput).
    { rewrite <- Heq. apply Qmult_le_r; [exact Hout | lra]. }
    assert (Hhi' : totalInput <= 1.01 * totalOutput).
    { rewrite <- Heq. apply Qmult_le_r; [exact Hout | lra]. }
    apply Qabs_Qle_condition. lra.
Qed.

Lemma foldl_view_invariant {A B C : Type} (view : A -> C) (step : list A -> B -> list A)
    (l : list B) (start : list A) :
  (forall strs b, view <$> step strs b = view <$> strs) ->
  view <$> foldl step start l = view <$> start.
Proof.
  intros H. revert start. induction l as [|b l IH]; intros start; [reflexivity|].
  cbn [foldl]. now rewrite IH, H.
Qed.

Lemma close_component_flow (inputs outputs : list nat) (streams : list DetailedStream.t)
    (comp : MineralComponent.t) :
  DetailedStream.flowRate <$> close_component inputs outputs streams comp
  = DetailedStream.flowRate <$> streams.
Proof.
  unfold close_component. case_tests; rewrite ?update_at_view; reflexivity.
Qed.

Lemma global_component_flow (inputs outputs : list nat) (streams : list DetailedStream.t)
    (comp : MineralComponent.t) :
  DetailedStream.flowRate <$> global_component inputs outputs streams comp
  = DetailedStream.flowRate <$> streams.
Proof.
  unfold global_component. case_tests; rewrite ?update_at_view; reflexivity.
Qed.

Lemma outputs_populated (streams : list DetailedStream.t) (flowLines : list FlowLine.t) :
  length streams = length flowLines ->
  forall idx, idx ∈ outputIndices flowLines -> (idx < length streams)%nat.
Proof. intros -> idx Hidx. eapply indices_where_lt. exact Hidx. Qed.

(** X16. The first closure closes every component it can rescale: for an
    active component whose input-class streams carry a positive total and
    whose output-class streams do not total zero, the closure leaves the
    input total as it was and the output total within 0.001 t/h of it
    (equal to it when it had to rescale).  Component ids are distinct and
    no flow line has both ends free. *)
Theorem first_closure_closes_component (streams : list DetailedStream.t)
    (flowLines : list FlowLine.t) (activeComponents : list MineralComponent.t)
    (comp : MineralComponent.t) :
  NoDup (MineralComponent.id <$> activeComponents) ->
  comp ∈ activeComponents ->
  every_line_attached flowLines ->
  let id := MineralComponent.id comp in
  0 < input_mass streams flowLines id ->
  ~ output_mass streams flowLines id == 0 ->
  let closed := applyMassBalanceClosure streams flowLines activeComponents in
  input_mass closed flowLines id = input_mass streams flowLines id
  /\ Qabs (input_mass closed flowLines id - output_mass closed flowLines id) <= 0.001.
Proof.
  intros Hnd Hcomp Hatt id Hin Hout closed.
  unfold closed, input_mass, output_mass in *. unfold applyMassBalanceClosure.
  set (inputs := inputIndices flowLines) in *.
  set (outputs := outputIndices flowLines) in *.
  rewrite boundary_nonempty.
  2:{ apply (total_over_nonzero (mass_of id) streams). lra. }
  2:{ apply (total_over_nonzero (mass_of id) streams). exact Hout. }
  match goal with
  | |- context [foldl (close_component inputs outputs) ?start activeComponents] =>
      set (closedStreams := start)
  end.
  assert (Hstart : mass_of id <$> closedStreams = mass_of id <$> streams).
  { unfold closedStreams. case_tests; rewrite ?update_at_view; reflexivity. }
  destruct (component_loop_view id (close_component inputs outputs) activeComponents comp
              closedStreams) as (pre & Hpre & _ & Hfin);
    [intros strs c Hc; now apply close_component_other | exact Hnd | exact Hcomp
    | reflexivity |].
  rewrite Hstart in Hpre.
  rewrite (total_over_view _ _ _ inputs Hfin), (total_over_view _ _ _ outputs Hfin).
  rewrite <- (total_over_view _ pre streams inputs Hpre).
  rewrite <- (total_over_view _ pre streams inputs Hpre) in Hin.
  rewrite <- (total_over_view _ pre streams outputs Hpre) in Hout.
  destruct (close_component_closes inputs outputs pre comp) as [H1 H2];
    [apply indices_where_NoDup | now apply attached_disjoint | exact Hin | exact Hout |].
  fold id in H1, H2. rewrite H1. split; [reflexivity | exact H2].
Qed.

(** X17. The global closure closes every component that enters the
    circuit: for an active component whose input-class streams carry a
    positive total, it leaves the input total as it was and the output
    total within 1 % of it (equal to it when it had to redistribute, each
    output stream then holding the same share).  Component ids are
    distinct, there is a stream for every flow line, at least one flow
    line leaves the circuit and none has both ends free. *)
Theorem global_closure_closes_component (streams : list DetailedStream.t)
    (flowLines : list FlowLine.t) (activeComponents : list MineralComponent.t)
    (comp : MineralComponent.t) :
  NoDup (MineralComponent.id <$> activeComponents) ->
  comp ∈ activeComponents ->
  length streams = length flowLines ->
  every_line_attached flowLines ->
  outputIndices flowLines <> [] ->
  let id := MineralComponent.id comp in
  0 < input_mass streams flowLines id ->
  let corrected := applyGlobalMassBalanceWithClosure streams flowLines activeComponents in
  input_mass corrected flowLines id = input_mass streams flowLines id
  /\ Qabs (input_mass corrected flowLines id - output_mass corrected flowLines id)
     <= 0.01 * output_mass corrected flowLines id.
Proof.
  intros Hnd Hcomp Hlen Hatt Hne id Hin corrected.
  unfold corrected, input_mass, output_mass in *. unfold applyGlobalMassBalanceWithClosure.
  set (inputs := inputIndices flowLines) in *.
  set (outputs := outputIndices flowLines) in *.
  rewrite boundary_nonempty; [| |exact Hne].
  2:{ apply (total_over_nonzero (mass_of id) streams). lra. }
  set (correctedStreams := foldl (global_component inputs outputs) streams activeComponents).
  destruct (component_loop_view id (global_component inputs outputs) activeComponents comp
              streams) as (pre & Hpre & Hprelen & Hfin);
    [intros strs c Hc; now apply global_component_other | exact Hnd | exact Hcomp
    | reflexivity |].
  fold correctedStreams in Hfin.
  match goal with
  | |- total_over _ ?final _ = _ /\ _ => set (final' := final)
  end.
  assert (Hcorr : mass_of id <$> final' = mass_of id <$> correctedStreams).
  { unfold final'. case_tests; rewrite ?update_at_view; reflexivity. }
  rewrite Hfin in Hcorr.
  rewrite (total_over_view _ _ _ inputs Hcorr), (total_over_view _ _ _ outputs Hcorr).
  rewrite <- (total_over_view _ pre streams inputs Hpre).
  rewrite <- (total_over_view _ pre streams inputs Hpre) in Hin.
  destruct (global_component_closes inputs outputs pre comp) as [H1 H2];
    [apply indices_where_NoDup
    | rewrite Hprelen; now apply outputs_populated
    | exact Hne | now apply attached_disjoint | exact Hin |].
  fold id in H1, H2. rewrite H1. split; [reflexivity | exact H2].
Qed.

(** X18. The first closure closes the bulk flow to within 10 %: when the
    input-class streams carry a positive total flow, it leaves that total
    as it was and the output total within a tenth of it (equal to it when
    it had to redistribute). *)
Theorem first_closure_closes_flow (streams : list DetailedStream.t)
    (flowLines : list FlowLine.t) (activeComponents : list MineralComponent.t) :
  length streams = length flowLines ->
  every_line_attached flowLines ->
  outputIndices flowLines <> [] ->
  0 < input_flow streams flowLines ->
  let closed := applyMassBalanceClosure streams flowLines activeComponents in
  input_flow closed flowLines = input_flow streams flowLines
  /\ Qabs (input_flow closed flowLines - output_flow closed flowLines)
     <= 0.1 * input_flow closed flowLines.
Proof.
  intros Hlen Hatt Hne Hin closed.
  unfold closed, input_flow, output_flow in *. unfold applyMassBalanceClosure.
  set (inputs := inputIndices flowLines) in *.
  set (outputs := outputIndices flowLines) in *.
  rewrite boundary_nonempty; [| |exact Hne].
  2:{ apply (total_over_nonzero DetailedStream.flowRate streams). lra. }
  cbv zeta.
  match goal with
  | |- context [foldl (close_component inputs outputs) ?start activeComponents] =>
      set (closedStreams := start)
  end.
  assert (Hfold : DetailedStream.flowRate
                    <$> foldl (close_component inputs outputs) closedStreams activeComponents
                  = DetailedStream.flowRate <$> closedStreams).
  { apply foldl_view_invariant. intros. apply close_component_flow. }
  rewrite (total_over_view _ _ _ inputs Hfold), (total_over_view _ _ _ outputs Hfold).
  set (totalInputFlow := total_over DetailedStream.flowRate streams inputs) in *.
  set (totalOutputFlow := total_over DetailedStream.flowRate streams outputs) in *.
  assert (Hdiv : jsdiv (Qabs (totalInputFlow - totalOutputFlow)) totalInputFlow
                 = Fin (Qabs (totalInputFlow - totalOutputFlow) / totalInputFlow)).
  { unfold jsdiv. assert (Hz : Qeq_bool totalInputFlow 0 = false)
      by (apply Qeq_bool_false; lra).
    now rewrite Hz. }
  unfold closedStreams. rewrite Hdiv. unfold gtb. cbn [ltb].
  rewrite present_all by now apply outputs_populated.
  rewrite (length_pos_ltb _ Hne).
  destruct (Qeq_bool totalOutputFlow 0
            || Qltb 0.1 (Qabs (totalInputFlow - totalOutputFlow) / totalInputFlow)) eqn:Ec.
  - rewrite total_over_untouched by now apply attached_disjoint.
    fold totalInputFlow. split; [reflexivity|].
    rewrite (total_over_update_const DetailedStream.flowRate _
               (totalInputFlow / Qnat (length outputs)));
      [ | apply indices_where_NoDup | now apply outputs_populated | intros s; reflexivity].
    pose proof (Qnat_pos outputs Hne) as Hn.
    assert (Heq : totalInputFlow
                  - Qnat (length outputs) * (totalInputFlow / Qnat (length outputs)) == 0)
      by (field; lra).
    rewrite Heq. change (Qabs 0) with 0. lra.
  - fold totalInputFlow. fold totalOutputFlow. split; [reflexivity|].
    apply orb_false_iff in Ec as [_ Ed]. apply Qltb_ge in Ed.
    assert (Heq : Qabs (totalInputFlow - totalOutputFlow)
                  == Qabs (totalInputFlow - totalOutputFlow) / totalInputFlow * totalInputFlow)
      by (field; lra).
    rewrite Heq. apply Qmult_le_r; [exact Hin | exact Ed].
Qed.

(** X19. The global closure closes the bulk flow to within 0.01 t/h: when
    the input-class streams carry a positive total flow, it leaves that
    total as it was and the output total within 0.01 of it (equal to it
    when it had to redistribute). *)
Theorem global_closure_closes_flow (streams : list DetailedStream.t)
    (flowLines : list FlowLine.t) (activeComponents : list MineralComponent.t) :
  length streams = length flowLines ->
  every_line_attached flowLines ->
  outputIndices flowLines <> [] ->
  0 < input_flow streams flowLines ->
  let corrected := applyGlobalMassBalanceWithClosure streams flowLines activeComponents in
  input_flow corrected flowLines = input_flow streams flowLines
  /\ Qabs (input_flow corrected flowLines - output_flow corrected flowLines) <= 0.01.
Proof.
  intros Hlen Hatt Hne Hin corrected.
  unfold corrected, input_flow, output_flow in *. unfold applyGlobalMassBalanceWithClosure.
  set (inputs := inputIndices flowLines) in *.
  set (outputs := outputIndices flowLines) in *.
  rewrite boundary_nonempty; [| |exact Hne].
  2:{ apply (total_over_nonzero DetailedStream.flowRate streams). lra. }
  cbv zeta.
  set (correctedStreams := foldl (global_component inputs outputs) streams activeComponents).
  assert (Hfold : DetailedStream.flowRate <$> correctedStreams
                  = DetailedStream.flowRate <$> streams).
  { apply foldl_view_invariant. intros. apply global_component_flow. }
  assert (Hclen : length correctedStreams = length flowLines).
  { rewrite <- Hlen. apply foldl_length_invariant. intros. apply global_component_length. }
  rewrite !(total_over_view _ correctedStreams streams _ Hfold).
  set (totalInputFlow := total_over DetailedStream.flowRate streams inputs) in *.
  set (totalOutputFlow := total_over DetailedStream.flowRate streams outputs) in *.
  assert (Hpos : Qltb 0 totalInputFlow = true) by now apply Qltb_lt.
  assert (Hz : Qeq_bool totalInputFlow 0 = false) by (apply Qeq_bool_false; lra).
  rewrite Hpos, Hz, andb_false_r. cbn [andb].
  rewrite present_all by now apply outputs_populated.
  rewrite (length_pos_ltb _ Hne).
  destruct (Qeq_bool totalOutputFlow 0
            || Qltb 0.01 (Qabs (totalInputFlow - totalOutputFlow))) eqn:Ec.
  - rewrite total_over_untouched by now apply attached_disjoint.
    rewrite (total_over_view _ correctedStreams streams _ Hfold). fold totalInputFlow.
    split; [reflexivity|].
    rewrite (total_over_update_const DetailedStream.flowRate _
               (totalInputFlow / Qnat (length outputs)));
      [ | apply indices_where_NoDup | now apply outputs_populated | intros s; reflexivity].
    pose proof (Qnat_pos outputs Hne) as Hn.
    assert (Heq : totalInputFlow
                  - Qnat (length outputs) * (totalInputFlow / Qnat (length outputs)) == 0)
      by (field; lra).
    rewrite Heq. change (Qabs 0) with 0. lra.
  - rewrite !(total_over_view _ correctedStreams streams _ Hfold).
    fold totalInputFlow. fold totalOutputFlow. split; [reflexivity|].
    apply orb_false_iff in Ec as [_ Ed]. now apply Qltb_ge in Ed.
Qed.

Lemma unequal_circuit_attached : every_line_attached unequal_circuit.
Proof.
  intros fl Hfl. unfold unequal_circuit in Hfl.
  repeat (apply elem_of_cons in Hfl as [->|Hfl]; [reflexivity|]).
  now apply elem_of_nil in Hfl.
Defined.

Lemma first_closure_closes_component_witness :
  let streams := (fun fl => stream_of fl [fe]) <$> unequal_circuit in
  let closed := applyMassBalanceClosure streams unequal_circuit [fe] in
  input_mass streams unequal_circuit (MineralComponent.id fe) == 1000
  /\ output_mass streams unequal_circuit (MineralComponent.id fe) == 500
  /\ Qabs (input_mass closed unequal_circuit (MineralComponent.id fe)
           - output_mass closed unequal_circuit (MineralComponent.id fe)) <= 0.001.
Proof.
  cbv zeta.
  assert (Hnd : NoDup (MineralComponent.id <$> [fe])) by apply NoDup_singleton.
  assert (Hcomp : fe ∈ [fe]) by left.
  assert (Hin : 0 < input_mass ((fun fl => stream_of fl [fe]) <$> unequal_circuit)
                               unequal_circuit (MineralComponent.id fe)) by reflexivity.
  assert (Hout : ~ output_mass ((fun fl => stream_of fl [fe]) <$> unequal_circuit)
                               unequal_circuit (MineralComponent.id fe) == 0).
  { intros H. vm_compute in H. discriminate H. }
  split; [reflexivity|]. split; [reflexivity|].
  exact (proj2 (first_closure_closes_component _ _ _ _ Hnd Hcomp unequal_circuit_attached
                  Hin Hout)).
Defined.

Lemma global_closure_closes_component_witness :
  let streams := (fun fl => stream_of fl [fe]) <$> unequal_circuit in
  let corrected := applyGlobalMassBalanceWithClosure streams unequal_circuit [fe] in
  input_mass streams unequal_circuit (MineralComponent.id fe) == 1000
  /\ output_mass streams unequal_circuit (MineralComponent.id fe) == 500
  /\ Qabs (input_mass corrected unequal_circuit (MineralComponent.id fe)
           - output_mass corrected unequal_circuit (MineralComponent.id fe))
     <= 0.01 * output_mass corrected unequal_circuit (MineralComponent.id fe).
Proof.
  cbv zeta.
  assert (Hnd : NoDup (MineralComponent.id <$> [fe])) by apply NoDup_singleton.
  assert (Hcomp : fe ∈ [fe]) by left.
  assert (Hlen : length ((fun fl => stream_of fl [fe]) <$> unequal_circuit)
                 = length unequal_circuit) by reflexivity.
  assert (Hne : outputIndices unequal_circuit <> []) by discriminate.
  assert (Hin : 0 < input_mass ((fun fl => stream_of fl [fe]) <$> unequal_circuit)
                               unequal_circuit (MineralComponent.id fe)) by reflexivity.
  split; [reflexivity|]. split; [reflexivity|].
  exact (proj2 (global_closure_closes_component _ _ _ _ Hnd Hcomp Hlen
                  unequal_circuit_attached Hne Hin)).
Defined.

Lemma first_closure_closes_flow_witness :
  let streams := (fun fl => stream_of fl [fe]) <$> unequal_circuit in
  let closed := applyMassBalanceClosure streams unequal_circuit [fe] in
  input_flow streams unequal_circuit == 1000
  /\ output_flow streams unequal_circuit == 500
  /\ Qabs (input_flow closed unequal_circuit - output_flow closed unequal_circuit)
     <= 0.1 * input_flow closed unequal_circuit.
Proof.
  cbv zeta.
  assert (Hlen : length ((fun fl => stream_of fl [fe]) <$> unequal_circuit)
                 = length unequal_circuit) by reflexivity.
  assert (Hne : outputIndices unequal_circuit <> []) by discriminate.
  assert (Hin : 0 < input_flow ((fun fl => stream_of fl [fe]) <$> unequal_circuit)
                               unequal_circuit) by reflexivity.
  split; [reflexivity|]. split; [reflexivity|].
  exact (proj2 (first_closure_closes_flow _ _ [fe] Hlen unequal_circuit_attached Hne Hin)).
Defined.

Lemma global_closure_closes_flow_witness :
  let streams := (fun fl => stream_of fl [fe]) <$> unequal_circuit in
  let corrected := applyGlobalMassBalanceWithClosure streams unequal_circuit [fe] in
  input_flow streams unequal_circuit == 1000
  /\ output_flow streams unequal_circuit == 500
  /\ Qabs (input_flow corrected unequal_circuit - output_flow corrected unequal_circuit)
     <= 0.01.
Proof.
  cbv zeta.
  assert (Hlen : length ((fun fl => stream_of fl [fe]) <$> unequal_circuit)
                 = length unequal_circuit) by reflexivity.
  assert (Hne : outputIndices unequal_circuit <> []) by discriminate.
  assert (Hin : 0 < input_flow ((fun fl => stream_of fl [fe]) <$> unequal_circuit)
                               unequal_circuit) by reflexivity.
  split; [reflexivity|]. split; [reflexivity|].
  exact (proj2 (global_closure_closes_flow _ _ [fe] Hlen unequal_circuit_attached Hne Hin)).
Defined.

(** * What the solver ignores *)

Lemma active_components_idempotent (mineralComponents : list MineralComponent.t) :
  active_components (active_components mineralComponents)
  = active_components mineralComponents.
Proof.
  unfold active_components.
  induction mineralComponents as [|c l IH]; [reflexivity|].
  rewrite filter_cons. case_decide as Hc.
  - rewrite filter_cons, decide_True by exact Hc. now rewrite IH.
  - exact IH.
Qed.

(** X20. Components that are not active play no part in a run: the solver
    returns the same result on a list of components and on that list
    stripped of its inactive members (which is how [runSimulation] calls
    it). *)
Theorem solver_ignores_inactive_components
    equipments flowLines mineralComponents maxIterations tolerance :
  solveIterativeMassBalance equipments flowLines (active_components mineralComponents)
                            maxIterations tolerance
  = solveIterativeMassBalance equipments flowLines mineralComponents maxIterations tolerance.
Proof.
  unfold solveIterativeMassBalance, propagateStreamData.
  now rewrite active_components_idempotent.
Qed.

(** X21. An equipment that no flow line enters is skipped: processing it
    returns the streams as they are and raises nothing, even for a mixer
    whose number of outputs is not a valid array length. *)
Theorem equipment_without_feed_is_skipped (flowLines : list FlowLine.t)
    (activeComponents : list MineralComponent.t) (streams : list DetailedStream.t)
    (equipment : Equipment.t) :
  (forall fl, fl ∈ flowLines -> FlowLine.toEquipment fl <> Some (Equipment.id equipment)) ->
  process_equipment flowLines activeComponents streams equipment = Returns streams.
Proof.
  intros H. unfold process_equipment.
  assert (E : filter (fun fl => FlowLine.toEquipment fl = Some (Equipment.id equipment))
                     flowLines = []).
  { induction flowLines as [|fl l IH]; [reflexivity|].
    rewrite filter_cons, decide_False by (apply H; left).
    apply IH. intros x Hx. apply H. now right. }
  rewrite E. reflexivity.
Qed.

Lemma equipment_without_feed_is_skipped_witness :
  process_equipment [empty_product] [fe] [stream_of empty_product [fe]] odd_mixer
  = Returns [stream_of empty_product [fe]].
Proof.
  apply equipment_without_feed_is_skipped.
  intros fl Hfl. apply list_elem_of_singleton in Hfl as ->. discriminate.
Defined.

(** * Validation of a set of streams *)

Lemma relative_error_below (totalInput totalOutput bound : Q) :
  0 < bound ->
  (relative_error totalInput totalOutput < bound
   <-> (0 < totalInput -> Qabs (totalInput - totalOutput) < bound / 100 * totalInput)).
Proof.
  intros Hb. unfold relative_error. destruct (Qltb 0 totalInput) eqn:E.
  - apply Qltb_lt in E.
    assert (Heq : Qabs (totalInput - totalOutput) / totalInput * 100
                  == Qabs (totalInput - totalOutput) * (100 / totalInput)) by (field; lra).
    assert (Hk : 0 < 100 / totalInput).
    { apply Qlt_shift_div_l; [exact E | lra]. }
    assert (Hb' : bound == bound / 100 * totalInput * (100 / totalInput)) by (field; lra).
    split.
    + intros H _. rewrite Heq in H. rewrite Hb' in H.
      apply Qmult_lt_r in H; [exact H | exact Hk].
    + intros H. specialize (H E). rewrite Heq. rewrite Hb'.
      apply Qmult_lt_r; [exact Hk | exact H].
  - apply (proj1 (Qltb_ge _ _)) in E. split; [intros _ H; lra | intros _; exact Hb].
Qed.

(** X22. [validateGlobalMassBalance] declares a balance valid exactly when
    the total mass flows agree within 0.1 % of the input and the total
    solid flows do too; a total that is not positive on the input side is
    not checked at all, so that with no input stream every set of outputs
    is valid. *)
Theorem validateGlobalMassBalance_verdict (inputStreams outputStreams : list StreamBalance.t) :
  let massIn := Qsum (StreamBalance.massFlow <$> inputStreams) in
  let massOut := Qsum (StreamBalance.massFlow <$> outputStreams) in
  let solidsIn := Qsum (StreamBalance.solidFlow <$> inputStreams) in
  let solidsOut := Qsum (StreamBalance.solidFlow <$> outputStreams) in
  (Validation.isValid (validateGlobalMassBalance inputStreams outputStreams) = true
   <-> (0 < massIn -> Qabs (massIn - massOut) < 0.001 * massIn)
       /\ (0 < solidsIn -> Qabs (solidsIn - solidsOut) < 0.001 * solidsIn))
  /\ 0 <= Validation.error (validateGlobalMassBalance inputStreams outputStreams)
  /\ Validation.isValid (validateGlobalMassBalance [] outputStreams) = true.
Proof.
  intros massIn massOut solidsIn solidsOut.
  unfold validateGlobalMassBalance. cbn [Validation.isValid Validation.error].
  fold massIn. fold massOut. fold solidsIn. fold solidsOut.
  split; [|split].
  - rewrite Qltb_lt, Q.max_lub_lt_iff.
    rewrite !(relative_error_below _ _ 0.1) by reflexivity.
    assert (Hk : 0.1 / 100 == 0.001) by reflexivity.
    split; intros [H1 H2]; split; intros Hpos.
    + rewrite <- Hk. now apply H1.
    + rewrite <- Hk. now apply H2.
    + rewrite Hk. now apply H1.
    + rewrite Hk. now apply H2.
  - apply Q.max_le_iff. left. apply relative_error_nonneg.
  - reflexivity.
Qed.

Lemma validation_fold_lookup (f : string -> Validation.t) (l : list string)
    (m : gmap string Validation.t) (k : string) :
  foldl (fun results component => <[component := f component]> results) m l !! k
  = if decide (k ∈ l) then Some (f k) else m !! k.
Proof.
  revert m. induction l as [|c l IH]; intros m; cbn [foldl].
  - rewrite decide_False; [reflexivity | apply not_elem_of_nil].
  - rewrite IH. destruct (decide (k ∈ l)) as [Hin|Hnin].
    + rewrite decide_True; [reflexivity | now right].
    + destruct (decide (k = c)) as [->|Hne].
      * rewrite decide_True by left. apply lookup_insert_eq.
      * rewrite decide_False; [now apply lookup_insert_ne|].
        intros H. apply elem_of_cons in H as [H|H]; contradiction.
Qed.

(** X23. [validateComponentBalance] reports on the components it is asked
    about and on no other.  A component is valid exactly when its input
    and output totals agree within 0.1 % of the input, a stream that does
    not list the component counting for zero; a component with no positive
    input total is always valid. *)
Theorem validateComponentBalance_verdict (inputStreams outputStreams : list StreamBalance.t)
    (components : list string) (component : string) :
  let results := validateComponentBalance inputStreams outputStreams components in
  let totalIn := component_total component inputStreams in
  let totalOut := component_total component outputStreams in
  (component ∈ components ->
   exists verdict,
     results !! component = Some verdict
     /\ 0 <= Validation.error verdict
     /\ (Validation.isValid verdict = true
         <-> (0 < totalIn -> Qabs (totalIn - totalOut) < 0.001 * totalIn)))
  /\ (component ∉ components -> results !! component = None).
Proof.
  intros results totalIn totalOut. unfold results, validateComponentBalance.
  rewrite (validation_fold_lookup
             (fun component =>
                {| Validation.isValid :=
                     Qltb (relative_error (component_total component inputStreams)
                                          (component_total component outputStreams)) 0.1;
                   Validation.error :=
                     relative_error (component_total component inputStreams)
                                    (component_total component outputStreams) |})).
  split.
  - intros Hin. rewrite decide_True by exact Hin. eexists. split; [reflexivity|].
    cbn [Validation.isValid Validation.error]. fold totalIn. fold totalOut.
    split; [apply relative_error_nonneg|].
    rewrite Qltb_lt, (relative_error_below _ _ 0.1) by reflexivity.
    assert (Hk : 0.1 / 100 == 0.001) by reflexivity.
    split; intros H Hpos; [rewrite <- Hk | rewrite Hk]; now apply H.
  - intros Hnin. rewrite decide_False by exact Hnin. apply lookup_empty.
Qed.

Lemma validateComponentBalance_verdict_witness :
  exists verdict,
    validateComponentBalance [full_balance] [half_balance] ["fe"] !! "fe" = Some verdict
    /\ Validation.isValid verdict = false.
Proof.
  assert (Hin : "fe" ∈ ["fe"]) by left.
  destruct (proj1 (validateComponentBalance_verdict [full_balance] [half_balance] ["fe"] "fe")
              Hin) as (verdict & Hv & _ & Hvalid).
  exists verdict. split; [exact Hv|].
  destruct (Validation.isValid verdict); [|reflexivity]. exfalso.
  assert (Hpos : 0 < component_total "fe" [full_balance]) by reflexivity.
  pose proof (proj1 Hvalid eq_refl Hpos) as H. vm_compute in H. discriminate H.
Defined.

(** * Recovery and rescaling of a set of streams *)

Lemma recovery_fold_lookup (f : string -> Recovery.t) (l : list string)
    (m : gmap string Recovery.t) (k : string) :
  foldl (fun results component => <[component := f component]> results) m l !! k
  = if decide (k ∈ l) then Some (f k) else m !! k.
Proof.
  revert m. induction l as [|c l IH]; intros m; cbn [foldl].
  - rewrite decide_False; [reflexivity | apply not_elem_of_nil].
  - rewrite IH. destruct (decide (k ∈ l)) as [Hin|Hnin].
    + rewrite decide_True; [reflexivity | now right].
    + destruct (decide (k = c)) as [->|Hne].
      * rewrite decide_True by left. apply lookup_insert_eq.
      * rewrite decide_False; [now apply lookup_insert_ne|].
        intros H. apply elem_of_cons in H as [H|H]; contradiction.
Qed.

(** X24. For a component it is asked about, [calculateMetallurgicalRecovery]
    reports the share of the feed's component mass found in the
    concentrate, in percent: recovery x feed mass is 100 x concentrate mass
    up to rounding when the feed holds some, and the recovery is 0 (no
    division) when it holds none.  The recovery lies between 0 and 100
    whenever the concentrate holds between nothing and all of what the feed
    holds.  The tailing streams play no part in the result. *)
Theorem metallurgical_recovery_is_share_of_feed
    (feedStreams concentrateStreams tailingStreams : list StreamBalance.t)
    (components : list string) (component : string) :
  component ∈ components ->
  let feedMass := component_total component feedStreams in
  let concentrateMass := component_total component concentrateStreams in
  (exists r,
     calculateMetallurgicalRecovery feedStreams concentrateStreams tailingStreams components
       !! component = Some r
     /\ (0 < feedMass -> agrees (Recovery.recovery r * feedMass) (100 * concentrateMass))
     /\ (feedMass <= 0 -> Recovery.recovery r = 0)
     /\ (0 <= concentrateMass <= feedMass -> 0 <= Recovery.recovery r <= 100))
  /\ calculateMetallurgicalRecovery feedStreams concentrateStreams tailingStreams components
     = calculateMetallurgicalRecovery feedStreams concentrateStreams [] components.
Proof.
  intros Hin feedMass concentrateMass. split; [|reflexivity].
  unfold calculateMetallurgicalRecovery.
  match goal with
  | |- context [foldl (fun results component => <[component := @?f component]> results)] =>
    rewrite (recovery_fold_lookup f)
  end.
  rewrite decide_True by exact Hin. eexists. split; [reflexivity|].
  cbn [Recovery.recovery]. fold feedMass. fold concentrateMass.
  destruct (Qltb 0 feedMass) eqn:E.
  - apply Qltb_lt in E. split; [|split].
    + intros _. apply agrees_of_eq. field. lra.
    + intros H. lra.
    + intros [Hlo Hhi].
      assert (Heq : concentrateMass / feedMass * 100 == concentrateMass * (100 / feedMass))
        by (field; lra).
      assert (Hk : 0 < 100 / feedMass) by (apply Qlt_shift_div_l; [exact E | lra]).
      rewrite Heq. split.
      * apply Qmult_le_0_compat; lra.
      * assert (H100 : 100 == feedMass * (100 / feedMass)) by (field; lra).
        rewrite H100 at 2. apply Qmult_le_r; [exact Hk | exact Hhi].
  - apply (proj1 (Qltb_ge _ _)) in E. split; [|split].
    + intros H. lra.
    + reflexivity.
    + intros _. lra.
Qed.

Lemma metallurgical_recovery_is_share_of_feed_witness :
  exists r,
    calculateMetallurgicalRecovery [full_balance] [half_balance] [] ["fe"] !! "fe" = Some r
    /\ agrees (Recovery.recovery r * 245) (100 * 122.5)
    /\ 0 <= Recovery.recovery r <= 100.
Proof.
  assert (Hin : "fe" ∈ ["fe"]) by left.
  destruct (metallurgical_recovery_is_share_of_feed [full_balance] [half_balance] [] ["fe"]
              "fe" Hin) as ((r & Hr & Hshare & _ & Hbounds) & _).
  exists r. split; [exact Hr|].
  assert (Hpos : 0 < component_total "fe" [full_balance]) by reflexivity.
  split.
  - eapply agrees_proper; [| | exact (Hshare Hpos)]; reflexivity.
  - apply Hbounds. split; [discriminate | discriminate].
Defined.

(** What the loop body does to the objects of the store. *)
Lemma scale_in_place_objects (k : Q) (store : Store.t) (ref ref' : nat) :
  Store.objects (scale_in_place k store ref) !! ref'
  = if decide (ref' = ref) then scaled k <$> Store.objects store !! ref'
    else Store.objects store !! ref'.
Proof.
  unfold scale_in_place.
  destruct (Store.objects store !! ref) as [stream|] eqn:E; cbn [Store.objects].
  - case_decide as H.
    + subst ref'. rewrite lookup_insert_eq, E. reflexivity.
    + apply lookup_insert_ne. congruence.
  - case_decide as H; [|reflexivity]. subst ref'. rewrite E. reflexivity.
Qed.

Lemma scale_in_place_dictionaries_of (k : Q) (store : Store.t) (ref : nat)
    (streams : list nat) :
  dictionaries_of (scale_in_place k store ref) streams = dictionaries_of store streams.
Proof.
  unfold dictionaries_of. apply list_omap_ext, Forall_Forall2_diag, Forall_forall.
  intros r _.
  rewrite scale_in_place_objects. case_decide as H; [|reflexivity].
  now destruct (Store.objects store !! r).
Qed.

(** The objects after the loop: one listed once is scaled once. *)
Lemma scale_loop_objects (k : Q) (streams : list nat) (store : Store.t) (ref : nat) :
  NoDup streams ->
  Store.objects (foldl (scale_in_place k) store streams) !! ref
  = if decide (ref ∈ streams) then scaled k <$> Store.objects store !! ref
    else Store.objects store !! ref.
Proof.
  revert store. induction streams as [|r l IH]; intros store Hnd; cbn [foldl].
  - rewrite decide_False; [reflexivity | apply not_elem_of_nil].
  - apply NoDup_cons in Hnd as [Hr Hnd]. rewrite (IH _ Hnd), scale_in_place_objects.
    destruct (decide (ref ∈ l)) as [Hin|Hnin].
    + rewrite (decide_True (P := ref ∈ r :: l)) by (now right).
      rewrite (decide_False (P := ref = r)); [reflexivity|]. intros ->. contradiction.
    + destruct (decide (ref = r)) as [->|Hne].
      * rewrite (decide_True (P := r ∈ r :: l)) by left. reflexivity.
      * rewrite (decide_False (P := ref ∈ r :: l)); [reflexivity|].
        intros H. apply elem_of_cons in H as [H|H]; contradiction.
Qed.

(** The dictionaries after the loop: one that belongs to one listed object
    is scaled once. *)
Lemma dictionaries_of_cons (store : Store.t) (r : nat) (l : list nat) :
  dictionaries_of store (r :: l)
  = match Store.objects store !! r with
    | Some stream => StreamObject.componentMass stream :: dictionaries_of store l
    | None => dictionaries_of store l
    end.
Proof.
  unfold dictionaries_of. cbn [omap list_omap].
  now destruct (Store.objects store !! r).
Qed.

Lemma scale_loop_dictionaries (k : Q) (streams : list nat) (store : Store.t) (d : nat) :
  NoDup (dictionaries_of store streams) ->
  Store.dictionaries (foldl (scale_in_place k) store streams) !! d
  = if decide (d ∈ dictionaries_of store streams)
    then scaled_masses k <$> Store.dictionaries store !! d
    else Store.dictionaries store !! d.
Proof.
  revert store. induction streams as [|r l IH]; intros store Hnd; cbn [foldl].
  - rewrite decide_False; [reflexivity | apply not_elem_of_nil].
  - rewrite dictionaries_of_cons in Hnd |- *.
    assert (Hl : NoDup (dictionaries_of store l)).
    { destruct (Store.objects store !! r); [now apply NoDup_cons in Hnd | exact Hnd]. }
    rewrite IH by (now rewrite scale_in_place_dictionaries_of).
    rewrite scale_in_place_dictionaries_of.
    unfold scale_in_place.
    destruct (Store.objects store !! r) as [stream|] eqn:E; [|reflexivity].
    cbn [Store.dictionaries]. cbv beta iota. apply NoDup_cons in Hnd as [Hr _].
    destruct (decide (d ∈ StreamObject.componentMass stream :: dictionaries_of store l))
      as [Hin'|Hnin'];
      destruct (decide (d ∈ dictionaries_of store l)) as [Hin|Hnin].
    + rewrite lookup_alter_ne; [reflexivity|]. intros <-. contradiction.
    + apply elem_of_cons in Hin' as [->|Hin']; [|contradiction].
      apply lookup_alter_eq.
    + exfalso. apply Hnin'. now right.
    + apply lookup_alter_ne. intros <-. apply Hnin'. left.
Qed.

Lemma dictionaries_of_elem (store : Store.t) (streams : list nat) (ref : nat)
    (stream : StreamObject.t) :
  ref ∈ streams -> Store.objects store !! ref = Some stream ->
  StreamObject.componentMass stream ∈ dictionaries_of store streams.
Proof.
  intros Hin Hs. unfold dictionaries_of. apply list_elem_of_omap.
  exists ref. split; [exact Hin|]. now rewrite Hs.
Qed.

(** X25. [correctStreamImbalances] rescales the stream objects it is given,
    in place, by the one factor target / total, and returns an array of the
    same objects; when the mass flows total zero nothing is written.  When
    no object is listed twice, the mass flow and the solid flow of every
    listed object are multiplied by the factor, the mass flows total the
    target up to rounding, and no other object is written; every entry of
    the object's dictionary of component masses is multiplied by the factor
    when, further, no two listed objects share a dictionary.  An object
    listed twice is scaled twice: of an array that lists one object two
    times, the mass flow is multiplied by the square of the factor. *)
Theorem correctStreamImbalances_reaches_target (store : Store.t) (streams : list nat)
    (targetTotalMass : Q) (targetComponents : gmap string Q) :
  let total := Qsum (mass_flow_at store <$> streams) in
  let factor := targetTotalMass / total in
  let result := correctStreamImbalances store streams targetTotalMass targetComponents in
  fst result = streams
  /\ (total == 0 -> snd result = store)
  /\ (~ total == 0 -> NoDup streams ->
      agrees (Qsum (mass_flow_at (snd result) <$> streams)) targetTotalMass
      /\ (forall ref stream,
            ref ∈ streams -> Store.objects store !! ref = Some stream ->
            Store.objects (snd result) !! ref = Some (scaled factor stream)
            /\ (NoDup (dictionaries_of store streams) ->
                Store.dictionaries (snd result) !! StreamObject.componentMass stream
                = scaled_masses factor
                    <$> Store.dictionaries store !! StreamObject.componentMass stream))
      /\ (forall ref, ref ∉ streams ->
            Store.objects (snd result) !! ref = Store.objects store !! ref))
  /\ (~ total == 0 ->
      forall ref stream,
        streams = [ref; ref] -> Store.objects store !! ref = Some stream ->
        Store.objects (snd result) !! ref = Some (scaled factor (scaled factor stream))).
Proof.
  intros total factor result. unfold result, correctStreamImbalances. fold total.
  destruct (Qeq_bool total 0) eqn:E.
  - apply Qeq_bool_iff in E. cbn [fst snd].
    split; [reflexivity|]. split; [reflexivity|]. split; intros H; contradiction.
  - apply Qeq_bool_false in E. cbn [fst snd]. fold factor.
    split; [reflexivity|]. split; [intros H; contradiction|]. split.
    + intros _ Hnd. split; [|split].
      * apply agrees_of_eq.
        rewrite (Qsum_fmap_ext _ (fun ref => mass_flow_at store ref * factor)).
        -- rewrite Qsum_fmap_scale. fold total. unfold factor. field. exact E.
        -- intros ref Hin. unfold mass_flow_at.
           rewrite (scale_loop_objects _ _ _ _ Hnd), decide_True by exact Hin.
           destruct (Store.objects store !! ref) as [stream|]; [reflexivity | simpl; ring].
      * intros ref stream Hin Hs. split.
        -- rewrite (scale_loop_objects _ _ _ _ Hnd), decide_True by exact Hin.
           rewrite Hs. reflexivity.
        -- intros Hdict. rewrite (scale_loop_dictionaries _ _ _ _ Hdict).
           rewrite decide_True; [reflexivity|]. now apply (dictionaries_of_elem _ _ ref).
      * intros ref Hnin.
        rewrite (scale_loop_objects _ _ _ _ Hnd), decide_False by exact Hnin. reflexivity.
    + intros _ ref stream -> Hs. cbn [foldl].
      rewrite !scale_in_place_objects, !decide_True by reflexivity.
      rewrite Hs. reflexivity.
Qed.

Lemma correctStreamImbalances_reaches_target_witness :
  let result := correctStreamImbalances two_objects [0%nat; 1%nat] 3000 ∅ in
  let twice := correctStreamImbalances two_objects [0%nat; 0%nat] 4000 ∅ in
  Qsum (mass_flow_at two_objects <$> [0%nat; 1%nat]) == 1500
  /\ agrees (Qsum (mass_flow_at (snd result) <$> [0%nat; 1%nat])) 3000
  /\ (exists stream, Store.objects (snd result) !! 0%nat = Some stream
                     /\ StreamObject.massFlow stream == 2000)
  /\ Qsum (mass_flow_at two_objects <$> [0%nat; 0%nat]) == 2000
  /\ (exists stream, Store.objects (snd twice) !! 0%nat = Some stream
                     /\ StreamObject.massFlow stream == 4000)
  /\ Qsum (mass_flow_at (snd twice) <$> [0%nat; 0%nat]) == 8000.
Proof.
  cbv zeta.
  assert (Hnz : ~ Qsum (mass_flow_at two_objects <$> [0%nat; 1%nat]) == 0).
  { intros H. vm_compute in H. discriminate H. }
  assert (Hnz' : ~ Qsum (mass_flow_at two_objects <$> [0%nat; 0%nat]) == 0).
  { intros H. vm_compute in H. discriminate H. }
  assert (Hnd : NoDup [0%nat; 1%nat]).
  { apply NoDup_cons. split; [|apply NoDup_singleton].
    intros H. apply list_elem_of_singleton in H. discriminate H. }
  destruct (correctStreamImbalances_reaches_target two_objects [0%nat; 1%nat] 3000 ∅)
    as (_ & _ & H & _).
  destruct (H Hnz Hnd) as (Htotal & Hobjects & _).
  destruct (correctStreamImbalances_reaches_target two_objects [0%nat; 0%nat] 4000 ∅)
    as (_ & _ & _ & Htwice).
  split; [reflexivity|]. split; [exact Htotal|]. split.
  { eexists. split.
    - apply (Hobjects 0%nat); [left | reflexivity].
    - reflexivity. }
  split; [reflexivity|]. split.
  { eexists. split.
    - apply (Htwice Hnz' 0%nat); reflexivity.
    - reflexivity. }
  vm_compute. reflexivity.
Defined.

(** * Stand-alone calculators *)

Lemma sum_by_nil {A : Type} (f : A -> num) : sum_by f [] = Fin 0.
Proof. reflexivity. Qed.

(** X26. [validateMassBalance] divides by the total input flow without a
    guard: with no input stream the error is a division by zero, infinite
    or NaN, and the balance is never valid, whatever the outputs and even
    with none. *)
Theorem validateMassBalance_without_input (outputs : list MaterialStream.t) :
  MassBalance.isValid (validateMassBalance [] outputs) = false
  /\ (MassBalance.error (validateMassBalance [] outputs) = PInf
      \/ MassBalance.error (validateMassBalance [] outputs) = NaN).
Proof.
  unfold validateMassBalance. cbn [MassBalance.isValid MassBalance.error].
  rewrite sum_by_nil.
  destruct (sum_by MaterialStream.flowRate outputs) as [t| | |].
  - cbn [num_sub num_neg add num_abs div]. unfold jsdiv.
    change (Qeq_bool 0 0) with true. cbv iota.
    destruct (Qltb 0 (Qabs (0 + - t))) eqn:E1.
    + split; [reflexivity | left; reflexivity].
    + assert (E2 : Qltb (Qabs (0 + - t)) 0 = false).
      { apply Qltb_ge. apply Qabs_nonneg. }
      rewrite E2. split; [reflexivity | right; reflexivity].
  - split; [reflexivity | left; reflexivity].
  - split; [reflexivity | left; reflexivity].
  - split; [reflexivity | right; reflexivity].
Qed.

(** X27. [calculateFlotationRecovery] is clamped on every input, ordinary
    or not: its result is NaN, 0, 100 or a number strictly between 0 and
    100, and it is 0 when the concentrate is no richer than the tailing.
    On a feed of 35 % with a concentrate of 60 % and a tailing of 10 % it
    is 87.5.  NaN does come out of finite grades: from 0/0 when the feed
    and the tailing hold nothing, from products that underflow to 0/0, and
    from products that overflow to infinity/infinity. *)
Theorem calculateFlotationRecovery_clamped (gradeIn gradeConcentrate gradeTailing : float) :
  let result := calculateFlotationRecovery gradeIn gradeConcentrate gradeTailing in
  (result = PrimFloat.nan \/ result = 0%float \/ result = 100%float
   \/ (PrimFloat.ltb 0 result = true /\ PrimFloat.ltb result 100 = true))
  /\ (PrimFloat.leb gradeConcentrate gradeTailing = true -> result = 0%float)
  /\ calculateFlotationRecovery 35 60 10 = 87.5%float
  /\ calculateFlotationRecovery 0 30 0 = PrimFloat.nan
  /\ calculateFlotationRecovery 0x1p-600 0x1p-600 0 = PrimFloat.nan
  /\ calculateFlotationRecovery 0x1p+600 0x1p+600 1 = PrimFloat.nan.
Proof.
  intros result. split; [|split; [|split; [|split; [|split]]]].
  - unfold result, calculateFlotationRecovery.
    destruct (PrimFloat.leb gradeConcentrate gradeTailing).
    + right. left. reflexivity.
    + cbv zeta.
      match goal with |- context [max_zero ?r] => set (recovery := r); clearbody recovery end.
      unfold min_hundred, max_zero.
      destruct (PrimFloat.is_nan recovery) eqn:Enan.
      * left. reflexivity.
      * destruct (PrimFloat.ltb 0 recovery) eqn:Epos.
        -- rewrite Enan. destruct (PrimFloat.ltb recovery 100) eqn:Ebelow.
           ++ right. right. right. split; [exact Epos | exact Ebelow].
           ++ right. right. left. reflexivity.
        -- change (PrimFloat.is_nan 0) with false. cbv iota.
           change (PrimFloat.ltb 0 100) with true. cbv iota.
           right. left. reflexivity.
  - intros Hle. unfold result, calculateFlotationRecovery. rewrite Hle. reflexivity.
  - vm_compute. reflexivity.
  - vm_compute. reflexivity.
  - vm_compute. reflexivity.
  - vm_compute. reflexivity.
Qed.

(** X28. [calculateWaterBalance] takes the stream's flow rate as its flow of
    solids and adds the water that the solids percent calls for: for a
    flow F of at most 10^9 at p % solids, p between 0.001 and 100, the
    solid flow is F and the water flow w is a number such that F is p % of
    F + w up to rounding, and w is not negative when F is not.  At 0 %
    solids the division is by zero and the water flow is not a finite
    number. *)
Theorem calculateWaterBalance_matches_solid_percent (stream : MaterialStream.t) (F p : Q) :
  MaterialStream.flowRate stream = Fin F ->
  MaterialStream.solidPercent stream = Fin p ->
  let balanced := calculateWaterBalance stream in
  MaterialStream.solidFlow balanced = Some (Fin F)
  /\ MaterialStream.flowRate balanced = Fin F
  /\ (0.001 <= p <= 100 -> Qabs F <= 1000000000 ->
      exists w, MaterialStream.waterFlow balanced = Some (Fin w)
                /\ agrees F (p / 100 * (F + w))
                /\ (0 <= F -> 0 <= w))
  /\ (p == 0 -> forall w, MaterialStream.waterFlow balanced <> Some (Fin w)).
Proof.
  intros HF Hp balanced. unfold balanced, calculateWaterBalance.
  cbn [MaterialStream.solidFlow MaterialStream.flowRate MaterialStream.waterFlow].
  rewrite HF, Hp. split; [reflexivity|]. split; [reflexivity|].
  assert (Hd : div (Fin p) (Fin 100) = Fin (p / 100)) by reflexivity.
  rewrite Hd. cbn [div]. unfold jsdiv.
  destruct (Qeq_bool (p / 100) 0) eqn:E.
  - apply Qeq_bool_iff in E.
    assert (Hz : p == 0).
    { assert (Heq : p == p / 100 * 100) by field. rewrite Heq, E. ring. }
    split; [intros [H _]; lra|].
    intros _ w Heq.
    destruct (Qltb 0 F); [cbn in Heq; discriminate Heq|].
    destruct (Qltb F 0); cbn in Heq; discriminate Heq.
  - apply Qeq_bool_false in E.
    assert (Hnz : ~ p == 0).
    { intros H. apply E. rewrite H. reflexivity. }
    split; [|intros H; contradiction].
    intros [Hlo Hhi] _. eexists. split; [reflexivity|]. split.
    + apply agrees_of_eq. field. exact Hnz.
    + intros HF0.
      assert (Heq : F / (p / 100) + - F == F * ((100 - p) / p)) by (field; exact Hnz).
      rewrite Heq. apply Qmult_le_0_compat; [exact HF0|].
      apply Qle_shift_div_l; lra.
Qed.

Lemma calculateWaterBalance_matches_solid_percent_witness :
  exists w,
    MaterialStream.waterFlow
      (calculateWaterBalance
         (MaterialStream.mk (Fin 700) (Fin 70) (Fin 2.8) (Fin 150) ∅ None None None))
    = Some (Fin w)
    /\ agrees 700 (70 / 100 * (700 + w))
    /\ 0 <= w.
Proof.
  destruct (calculateWaterBalance_matches_solid_percent
              (MaterialStream.mk (Fin 700) (Fin 70) (Fin 2.8) (Fin 150) ∅ None None None)
              700 70 eq_refl eq_refl) as (_ & _ & H & _).
  destruct H as (w & Hw & Hagrees & Hpos).
  - split; discriminate.
  - discriminate.
  - exists w. split; [exact Hw|]. split; [exact Hagrees|]. apply Hpos. discriminate.
Defined.

(** * Every iteration ends normalised *)

Lemma solver_loop_keeps_normalised (n : nat) equipments flowLines activeComponents tolerance
    (iteration : nat) (streams : list DetailedStream.t) converged iteration' streams' :
  (exists pre, streams = normalizeStreamCompositions pre activeComponents) ->
  solver_loop n equipments flowLines activeComponents tolerance iteration streams
    = Returns (converged, iteration', streams') ->
  exists pre, streams' = normalizeStreamCompositions pre activeComponents.
Proof.
  revert iteration streams. induction n as [|n IH]; intros iteration streams Hpre;
    cbn [solver_loop]; intros H.
  - injection H as _ _ <-. exact Hpre.
  - destruct (iteration_body _ _ _ streams) as [s|e] eqn:E; cbn [bind] in H;
      [|discriminate H].
    apply iteration_body_normalized in E.
    destruct (fst (checkConvergence s flowLines activeComponents tolerance)).
    + injection H as _ _ <-. exact E.
    + eapply IH; [exact E | exact H].
Qed.

Lemma solver_loop_ends_normalised (n : nat) equipments flowLines activeComponents tolerance
    (iteration : nat) (streams : list DetailedStream.t) converged iteration' streams' :
  solver_loop (S n) equipments flowLines activeComponents tolerance iteration streams
    = Returns (converged, iteration', streams') ->
  exists pre, streams' = normalizeStreamCompositions pre activeComponents.
Proof.
  cbn [solver_loop]. intros H.
  destruct (iteration_body _ _ _ streams) as [s|e] eqn:E; cbn [bind] in H;
    [|discriminate H].
  apply iteration_body_normalized in E.
  destruct (fst (checkConvergence s flowLines activeComponents tolerance)).
  - injection H as _ _ <-. exact E.
  - eapply solver_loop_keeps_normalised; [exact E | exact H].
Qed.

(** X29. Every run of at least one iteration returns normalised streams,
    converged or not: in each returned stream the percentages of the
    active components sum to 100 within 0.01, or to nothing positive (such
    a stream is left as it is by normalisation). *)
Theorem solver_result_is_normalised
    equipments flowLines mineralComponents maxIterations tolerance sol s :
  (1 <= maxIterations)%nat ->
  solveIterativeMassBalance equipments flowLines mineralComponents maxIterations tolerance
    = Returns sol ->
  s ∈ Solution.streams sol ->
  let total := totalPercentage (active_components mineralComponents) s in
  total <= 0 \/ Qabs (total - 100) <= 0.01.
Proof.
  intros Hmax Hsol Hs. apply solve_inv in Hsol as (Hloop & _).
  destruct maxIterations as [|n]; [lia|].
  apply solver_loop_ends_normalised in Hloop as (pre & Hpre).
  rewrite Hpre in Hs. unfold normalizeStreamCompositions in Hs.
  apply list_elem_of_fmap in Hs as (s0 & -> & _).
  apply normalizeStream_total.
Qed.

Lemma solver_result_is_normalised_witness :
  exists sol s,
    solveIterativeMassBalance [mill] [assayed_feed; assayed_product] [fe; si] 1 0
    = Returns sol
    /\ Solution.streams sol !! 1%nat = Some s
    /\ (totalPercentage [fe; si] s <= 0 \/ Qabs (totalPercentage [fe; si] s - 100) <= 0.01).
Proof.
  destruct (solveIterativeMassBalance [mill] [assayed_feed; assayed_product] [fe; si] 1 0)
    as [sol|e] eqn:E.
  2:{ exfalso. vm_compute in E. discriminate E. }
  destruct (Solution.streams sol !! 1%nat) as [s|] eqn:Es.
  2:{ exfalso. pose proof E as E'. vm_compute in E'. injection E' as Esol.
      rewrite <- Esol in Es. vm_compute in Es. discriminate Es. }
  exists sol, s. split; [reflexivity|].
  split; [exact Es|].
  apply (solver_result_is_normalised [mill] [assayed_feed; assayed_product] [fe; si] 1%nat 0
           sol s); [lia | exact E |].
  eapply list_elem_of_lookup_2. exact Es.
Defined.

(** * What the first closure cannot do *)

(** X30. The first closure rescales and so cannot fill what is empty: for
    an active component that enters the circuit (positive input-class
    total, component ids distinct) while the output-class streams total
    zero, the output total is still zero after [applyMassBalanceClosure].
    (The global closure, which shares the input total out equally, is the
    one that fills it.) *)
Theorem first_closure_cannot_fill_empty_outputs (streams : list DetailedStream.t)
    (flowLines : list FlowLine.t) (activeComponents : list MineralComponent.t)
    (comp : MineralComponent.t) :
  NoDup (MineralComponent.id <$> activeComponents) ->
  comp ∈ activeComponents ->
  let id := MineralComponent.id comp in
  0 < input_mass streams flowLines id ->
  output_mass streams flowLines id == 0 ->
  output_mass (applyMassBalanceClosure streams flowLines activeComponents) flowLines id == 0.
Proof.
  intros Hnd Hcomp id Hin Hout.
  unfold input_mass, output_mass in *. unfold applyMassBalanceClosure.
  set (inputs := inputIndices flowLines) in *.
  set (outputs := outputIndices flowLines) in *.
  destruct (Nat.eqb (length inputs) 0 || Nat.eqb (length outputs) 0); [exact Hout|].
  cbv zeta.
  match goal with
  | |- context [foldl (close_component inputs outputs) ?start activeComponents] =>
      set (closedStreams := start)
  end.
  assert (Hstart : mass_of id <$> closedStreams = mass_of id <$> streams).
  { unfold closedStreams. case_tests; rewrite ?update_at_view; reflexivity. }
  destruct (component_loop_view id (close_component inputs outputs) activeComponents comp
              closedStreams) as (pre & Hpre & _ & Hfin);
    [intros strs c Hc; now apply close_component_other | exact Hnd | exact Hcomp
    | reflexivity |].
  rewrite Hstart in Hpre.
  rewrite (total_over_view _ _ _ outputs Hfin).
  rewrite <- (total_over_view _ pre streams inputs Hpre) in Hin.
  rewrite <- (total_over_view _ pre streams outputs Hpre) in Hout.
  unfold close_component. fold id.
  set (totalInput := total_over (mass_of id) pre inputs) in *.
  set (totalOutput := total_over (mass_of id) pre outputs) in *.
  assert (Hz : Qeq_bool totalInput 0 = false) by (apply Qeq_bool_false; lra).
  rewrite Hz. cbn [andb].
  destruct (Qltb 0 totalInput && Qltb 0.001 (Qabs (totalInput - totalOutput))).
  - set (factor := totalInput / or_else totalOutput 1). clearbody factor.
    rewrite (total_over_update (mass_of id) _ (fun x => x * factor));
      [ | apply indices_where_NoDup | | ring].
    + rewrite (Qsum_fmap_scale
                 (fun idx => match pre !! idx with
                             | Some s => or_else (mass_of id s) 0
                             | None => 0
                             end)).
      fold (total_over (mass_of id) pre outputs). fold totalOutput.
      rewrite Hout. ring.
    + intros s. rewrite mass_of_scale_mass_same, or_else_eq. reflexivity.
  - exact Hout.
Qed.

Lemma first_closure_cannot_fill_empty_outputs_witness :
  let flowLines := [feed; empty_product] in
  let streams := (fun fl => stream_of fl [fe]) <$> flowLines in
  0 < input_mass streams flowLines (MineralComponent.id fe)
  /\ output_mass (applyMassBalanceClosure streams flowLines [fe]) flowLines
                 (MineralComponent.id fe) == 0.
Proof.
  cbv zeta.
  assert (Hnd : NoDup (MineralComponent.id <$> [fe])) by apply NoDup_singleton.
  assert (Hcomp : fe ∈ [fe]) by left.
  assert (Hin : 0 < input_mass ((fun fl => stream_of fl [fe]) <$> [feed; empty_product])
                               [feed; empty_product] (MineralComponent.id fe)) by reflexivity.
  assert (Hout : output_mass ((fun fl => stream_of fl [fe]) <$> [feed; empty_product])
                             [feed; empty_product] (MineralComponent.id fe) == 0)
    by reflexivity.
  split; [exact Hin|].
  exact (first_closure_cannot_fill_empty_outputs _ _ _ _ Hnd Hcomp Hin Hout).
Defined.
